(** * asymmetric-nfc: the [useWebNfc] hook and its consumer

    A shallow embedding of [src/index.ts] (the hook: status decoder, progress
    mapper, frame extractor, change-coalescing emitter, scan sessions) and of
    the power-cycle supervisor and device-info flow of the demo application.

    Conventions.
    - A JavaScript string is the list of its UTF-16 code units ([jstring]).
    - A JavaScript number is an IEEE-754 binary64 value ([float], the
      kernel's primitive floats): the numbers read from a tag, the timing
      options and the delays handed to timers.  What [Date.now()] returns
      is an integer ([Z]), and so is the delay a timer works with, which is
      the number it was handed converted as the platform converts it.
    - Platform built-ins whose code is not part of the repository
      ([TextDecoder.decode], [JSON.parse], [JSON.stringify]) and the
      callbacks of the consumer are Section variables; what can raise
      returns a sum.
    - An [async] function is a resumption: it runs to its next [await] and
      hands back a continuation that the event loop resumes later. *)

From Stdlib Require Import ZArith NArith List Bool Lia Ascii String.
From Stdlib Require Import Floats DecimalString.
Import ListNotations.

Set Implicit Arguments.
Open Scope Z_scope.

(* ================================================================== *)
(** * JavaScript strings *)
(* ================================================================== *)

Module JS.

Local Open Scope N_scope.

(** A UTF-16 code unit. *)
Definition cu := N.
Definition jstring := list cu.

Definition of_ascii (a : ascii) : cu := N_of_ascii a.

(** The code units of an ASCII literal. *)
Definition lit (s : string) : jstring := map of_ascii (list_ascii_of_string s).

Definition cu_eqb (a b : cu) : bool := N.eqb a b.

Fixpoint str_eqb (a b : jstring) : bool :=
  match a, b with
  | [], [] => true
  | x :: a', y :: b' => cu_eqb x y && str_eqb a' b'
  | _, _ => false
  end.

Definition between (lo hi c : cu) : bool := (N.leb lo c && N.leb c hi)%bool.

(** ECMAScript WhiteSpace and LineTerminator code points: what
    [String.prototype.trim] strips and what [\s] matches. *)
Definition is_space (c : cu) : bool :=
  (between 9 13 c || cu_eqb c 32 || cu_eqb c 160 || cu_eqb c 5760
   || between 8192 8202 c || cu_eqb c 8232 || cu_eqb c 8233
   || cu_eqb c 8239 || cu_eqb c 8287 || cu_eqb c 12288 || cu_eqb c 65279)%bool.

Definition is_digit (c : cu) : bool := between 48 57 c.
Definition is_upper (c : cu) : bool := between 65 90 c.
Definition is_lower (c : cu) : bool := between 97 122 c.

(** [\w] without the [u] flag: [[A-Za-z0-9_]]. *)
Definition is_word (c : cu) : bool :=
  (is_upper c || is_lower c || is_digit c || cu_eqb c 95)%bool.

(** [[0-9A-Fa-f]]; it is also [[0-9A-F]] under the [i] flag. *)
Definition is_hex (c : cu) : bool :=
  (is_digit c || between 65 70 c || between 97 102 c)%bool.

Fixpoint trimStart (s : jstring) : jstring :=
  match s with
  | c :: s' => if is_space c then trimStart s' else s
  | [] => []
  end.

Definition trimEnd (s : jstring) : jstring := rev (trimStart (rev s)).

(** [String.prototype.trim]. *)
Definition trim (s : jstring) : jstring := trimEnd (trimStart s).

(** [String.prototype.startsWith]. *)
Fixpoint startsWith (s p : jstring) : bool :=
  match p, s with
  | [], _ => true
  | x :: p', y :: s' => cu_eqb x y && startsWith s' p'
  | _ :: _, [] => false
  end.

(** [Array.prototype.join] on strings. *)
Fixpoint join (sep : jstring) (l : list jstring) : jstring :=
  match l with
  | [] => []
  | [x] => x
  | x :: l' => x ++ sep ++ join sep l'
  end.

(** [String.prototype.substring (a, b)] for [a <= b]. *)
Definition substring (a b : nat) (s : jstring) : jstring :=
  firstn (Nat.sub b a) (skipn a s).

End JS.
Import JS.

(* ================================================================== *)
(** * Regular expressions

    A backtracking matcher for the fragment of ECMAScript regular
    expressions the hook uses: literals and classes, concatenation, ordered
    alternation, greedy [*] (hence [?], [+], [{n}], [{n,}]), capture groups,
    [^], [$] and [\b].  Character tests are given with the pattern's flags
    already applied: under [i] a letter matches either case, and nothing
    outside ASCII folds to an ASCII letter when the [u] flag is absent. *)
(* ================================================================== *)

Module Regex.

Inductive re : Type :=
| Eps
| Chr (p : cu -> bool)
| Seq (r1 r2 : re)
| Alt (r1 r2 : re)
| Star (r : re)
| Group (i : nat) (r : re)
| Bol
| Eol
| WordB.

(** Matcher state: the code unit before the cursor, the input from the
    cursor on, the cursor's index, and the capture groups closed so far. *)
Record mstate := MState {
  prev : option cu;
  rest : jstring;
  pos : nat;
  caps : list (nat * (nat * nat))
}.

Definition word_before (s : mstate) : bool :=
  match prev s with Some c => is_word c | None => false end.
Definition word_after (s : mstate) : bool :=
  match rest s with c :: _ => is_word c | [] => false end.

(** Greedy iteration of one matcher: each round must move the cursor, and
    when no further round leads to a match the continuation takes over.
    The text left bounds the number of rounds. *)
Fixpoint star_iter (step : mstate -> (mstate -> option mstate) -> option mstate)
  (k : mstate -> option mstate) (fuel : nat) (s0 : mstate) {struct fuel}
  : option mstate :=
  match fuel with
  | O => k s0
  | S fuel' =>
      match step s0 (fun s1 => if Nat.leb (pos s1) (pos s0) then None
                               else star_iter step k fuel' s1) with
      | Some m => Some m
      | None => k s0
      end
  end.

Fixpoint matchk (r : re) (s : mstate) (k : mstate -> option mstate)
  {struct r} : option mstate :=
  match r with
  | Eps => k s
  | Chr p =>
      match rest s with
      | c :: tl =>
          if p c then k (MState (Some c) tl (S (pos s)) (caps s)) else None
      | [] => None
      end
  | Seq r1 r2 => matchk r1 s (fun s1 => matchk r2 s1 k)
  | Alt r1 r2 =>
      match matchk r1 s k with
      | Some m => Some m
      | None => matchk r2 s k
      end
  | Star r1 => star_iter (matchk r1) k (S (List.length (rest s))) s
  | Group i r1 =>
      matchk r1 s
        (fun s1 => k (MState (prev s1) (rest s1) (pos s1)
                        ((i, (pos s, pos s1)) :: caps s1)))
  | Bol => match prev s with None => k s | Some _ => None end
  | Eol => match rest s with [] => k s | _ :: _ => None end
  | WordB => if xorb (word_before s) (word_after s) then k s else None
  end.

(** One attempt at the cursor. *)
Definition match_here (r : re) (p : option cu) (i : nat) (s : jstring)
  : option mstate :=
  matchk r (MState p s i []) (fun m => Some m).

(** Leftmost match: the start index and the final matcher state. *)
Fixpoint search (r : re) (p : option cu) (i : nat) (s : jstring)
  : option (nat * mstate) :=
  match match_here r p i s with
  | Some m => Some (i, m)
  | None =>
      match s with
      | [] => None
      | c :: s' => search r (Some c) (S i) s'
      end
  end.

(** [RegExp.prototype.exec] without the [g] flag. *)
Definition exec (r : re) (s : jstring) : option (nat * mstate) :=
  search r None 0%nat s.

(** [RegExp.prototype.test]. *)
Definition test (r : re) (s : jstring) : bool :=
  match exec r s with Some _ => true | None => false end.

(** Entry [0] of a match result: the matched text. *)
Definition whole (s : jstring) (m : nat * mstate) : jstring :=
  substring (fst m) (pos (snd m)) s.

(** Entry [i] of a match result; [None] is [undefined]. *)
Definition group (i : nat) (s : jstring) (m : nat * mstate) : option jstring :=
  match find (fun c => Nat.eqb (fst c) i) (caps (snd m)) with
  | Some (_, (a, b)) => Some (substring a b s)
  | None => None
  end.

(** Pattern syntax. *)
Fixpoint cat (l : list re) : re :=
  match l with
  | [] => Eps
  | [r] => r
  | r :: l' => Seq r (cat l')
  end.

Definition opt (r : re) : re := Alt r Eps.
Definition plus (r : re) : re := Seq r (Star r).

Fixpoint times (n : nat) (r : re) : re :=
  match n with
  | O => Eps
  | S n' => Seq r (times n' r)
  end.

Definition at_least (n : nat) (r : re) : re := Seq (times n r) (Star r).

(** A literal code unit, case-sensitive. *)
Definition ch (a : ascii) : re := Chr (cu_eqb (of_ascii a)).

(** A literal code unit under the [i] flag. *)
Definition fold_case (c : cu) : cu := if is_lower c then (c - 32)%N else c.
Definition chi (a : ascii) : re :=
  Chr (fun c => cu_eqb (fold_case c) (fold_case (of_ascii a))).

Definition word_of (f : ascii -> re) (s : string) : re :=
  cat (map f (list_ascii_of_string s)).

Definition str (s : string) : re := word_of ch s.
Definition stri (s : string) : re := word_of chi s.

Definition space : re := Chr is_space.
Definition digit : re := Chr is_digit.
Definition hex : re := Chr is_hex.
Definition one_of (s : string) : re :=
  Chr (fun c => existsb (cu_eqb c) (lit s)).
Definition spaces : re := Star space.

End Regex.
Import Regex.

(* ================================================================== *)
(** * JavaScript numbers *)
(* ================================================================== *)

Module Num.

(** The binary64 value nearest to an integer (ties to even). *)
Definition of_Z (z : Z) : float :=
  SF2Prim (binary_normalize prec emax z 0 false).

(** [Math.round]: non-finite values, zeros and integral values are returned
    as they are; otherwise the nearest integer, a tie going towards
    [+Infinity], and a result of zero keeping the argument's sign. *)
Definition Math_round (x : float) : float :=
  match Prim2SF x with
  | S754_finite sg m e =>
      if (0 <=? e)%Z then x
      else
        let d := Z.pow 2 (- e) in
        let n := if sg then Z.opp (Z.pos m) else Z.pos m in
        let q := Z.div (2 * n + d) (2 * d) in
        if (q =? 0)%Z then (if sg then neg_zero else zero) else of_Z q
  | _ => x
  end.

(** [Math.max] and [Math.min] of two numbers: [NaN] if either is, and
    [+0] above [-0]. *)
Definition Math_max (a b : float) : float :=
  if (is_nan a || is_nan b)%bool then nan
  else if PrimFloat.ltb a b then b
  else if PrimFloat.ltb b a then a
  else if get_sign a then b else a.

Definition Math_min (a b : float) : float :=
  if (is_nan a || is_nan b)%bool then nan
  else if PrimFloat.ltb a b then a
  else if PrimFloat.ltb b a then b
  else if get_sign a then a else b.

(** A number as a WebIDL [long], the type of the delay of [setTimeout] and
    [setInterval]: [NaN] and the infinities are 0, a fraction is dropped,
    and the integer wraps into 32 bits. *)
Definition to_long (x : float) : Z :=
  match Prim2SF x with
  | S754_finite sg m e =>
      let a := if (0 <=? e)%Z then Z.pos m * Z.pow 2 e
               else Z.div (Z.pos m) (Z.pow 2 (- e)) in
      let r := Z.modulo (if sg then Z.opp a else a) (Z.pow 2 32) in
      if (Z.pow 2 31 <=? r)%Z then r - Z.pow 2 32 else r
  | _ => 0
  end.

(** The delay a timer works with: a negative one is 0. *)
Definition delay_of (ms : float) : Z := Z.max 0 (to_long ms).

(** The value of a run of decimal digits. *)
Definition digits_value (s : jstring) : Z :=
  fold_left (fun acc c => 10 * acc + (Z.of_N c - 48)) s 0.

(** [Number(s)] for a non-empty run of decimal digits [s]. *)
Definition Number_of_digits (s : jstring) : float := of_Z (digits_value s).

End Num.
Import Num.

Arguments Math_max a b : simpl never.
Arguments Math_min a b : simpl never.
Arguments of_Z z : simpl never.
Arguments delay_of ms : simpl never.

(* ================================================================== *)
(** * Progress mapper *)
(* ================================================================== *)

Definition TOTAL_STEPS : float := 255%float.
Definition INIT_PROGRESS : float := 10%float.
Definition R_DONE_PROGRESS : float := 95%float.

Definition clamp01to100 (n : float) : float :=
  Math_max 0%float (Math_min 100%float (Math_round n)).

Record Progress := { progress : float; stepsTotal : float }.

(** Fixed mapping: remaining 255..0 maps to 10%..95%. *)
Definition progressFromRemaining (rem : float) : Progress :=
  let clamped := Math_max 0%float (Math_min TOTAL_STEPS (Math_round rem)) in
  let ratio := ((TOTAL_STEPS - clamped) / TOTAL_STEPS)%float in
  let pct :=
    (INIT_PROGRESS + ratio * (R_DONE_PROGRESS - INIT_PROGRESS))%float in
  {| progress := clamp01to100 pct; stepsTotal := TOTAL_STEPS |}.

(* ================================================================== *)
(** * Status decoder *)
(* ================================================================== *)

Inductive State :=
| ERROR | PH_INIT_K | PH_INIT_R | PH_R_WORK | PH_R_DONE | PH_DONE | PH_IDLE
| BUSY.

(** The status object.  The declared union gives each variant its own
    fields, and the frame extractor adds [progress] and [stepsTotal] to
    variants that do not declare them, so every field is optional here;
    [None] is a property the object does not have. *)
Module Status.
Record t := Make {
  state : State;
  error : option jstring;
  progress : option float;
  stepsRemaining : option float;
  stepsTotal : option float;
  signature : option jstring;
  pubkey : option jstring
}.

(** An object with only its [state]. *)
Definition only (s : State) : t := Make s None None None None None None.

Definition set_progress (p : float) (x : t) : t :=
  Make (state x) (error x) (Some p) (stepsRemaining x) (stepsTotal x)
       (signature x) (pubkey x).
Definition set_stepsTotal (n : float) (x : t) : t :=
  Make (state x) (error x) (progress x) (stepsRemaining x) (Some n)
       (signature x) (pubkey x).
End Status.

Definition EdSignStatus := option Status.t.

Definition State_eqb (a b : State) : bool :=
  match a, b with
  | ERROR, ERROR | PH_INIT_K, PH_INIT_K | PH_INIT_R, PH_INIT_R
  | PH_R_WORK, PH_R_WORK | PH_R_DONE, PH_R_DONE | PH_DONE, PH_DONE
  | PH_IDLE, PH_IDLE | BUSY, BUSY => true
  | _, _ => false
  end.

(** The patterns of [parseEdSignTextStatus], in source order. *)
Module Pat.
(** [/err(or)?/i] *)
Definition error : re := cat [stri "err"; opt (Group 1 (stri "or"))].
(** [/\bPH_INIT_K\b/i] *)
Definition init_k : re := cat [WordB; stri "PH_INIT_K"; WordB].
(** [/\bPH_INIT_R\b/i] *)
Definition init_r : re := cat [WordB; stri "PH_INIT_R"; WordB].
(** [/R\s*:?\s*i\s*=\s*(\d+)/i] *)
Definition r_work : re :=
  cat [chi "R"; spaces; opt (ch ":"); spaces; chi "i"; spaces; ch "=";
       spaces; Group 1 (plus digit)].
(** [/^R\b/i] *)
Definition r_line : re := cat [Bol; chi "R"; WordB].
(** [/(\d+)/] *)
Definition number : re := Group 1 (plus digit).
(** [/\bR\s*:?\s*done\b/i] *)
Definition r_done : re :=
  cat [WordB; chi "R"; spaces; opt (ch ":"); spaces; stri "done"; WordB].
(** [/^[0-9A-F]+$/i] *)
Definition all_hex : re := cat [Bol; plus hex; Eol].
(** [/^\s*busy\s*$/i] *)
Definition busy : re := cat [Bol; spaces; stri "busy"; spaces; Eol].
(** [/sig(nature)?/i] *)
Definition sig : re := cat [stri "sig"; opt (Group 1 (stri "nature"))].
(** [/\b[0-9a-f]{64,}\b/i] *)
Definition long_hex : re := cat [WordB; at_least 64 hex; WordB].
(** [/\b(done|ok|success)\b/i] *)
Definition done : re :=
  cat [WordB; Group 1 (Alt (stri "done") (Alt (stri "ok") (stri "success")));
       WordB].
End Pat.

(** [parseEdSignTextStatus].  Its [console.log] lines are not modelled. *)
Definition parseEdSignTextStatus (text : jstring) : EdSignStatus :=
  let t := trim text in
  (* Errors *)
  if test Pat.error t then
    Some (Status.Make ERROR (Some t) None None None None None)
  (* Explicit init phases *)
  else if test Pat.init_k t then
    Some (Status.Make PH_INIT_K None (Some INIT_PROGRESS) None None None None)
  else if test Pat.init_r t then
    Some (Status.Make PH_INIT_R None (Some INIT_PROGRESS) None None None None)
  else
  (* R work: "R:i=<n>" *)
  match exec Pat.r_work t with
  | Some r =>
      let remaining :=
        match group 1 t r with
        | Some d => Number_of_digits d
        | None => nan
        end in
      Some (Status.Make PH_R_WORK None None (Some remaining) None None None)
  | None =>
  (* R work (fallback): lines starting with "R" and containing a number *)
  if test Pat.r_line t then
    match exec Pat.number t with
    | Some num =>
        let remaining :=
          match group 1 t num with
          | Some d => Number_of_digits d
          | None => nan
          end in
        Some (Status.Make PH_R_WORK None None (Some remaining) None None None)
    | None => Some (Status.only PH_R_WORK)
    end
  (* R done: "R:done" *)
  else if test Pat.r_done t then Some (Status.only PH_R_DONE)
  (* Final 128-hex signature *)
  else if (Nat.eqb (List.length t) 128 && test Pat.all_hex t)%bool then
    Some (Status.Make PH_DONE None (Some 100%float) None None (Some t) None)
  (* Idle/public key: 64-hex *)
  else if (Nat.eqb (List.length t) 64 && test Pat.all_hex t)%bool then
    Some (Status.Make PH_IDLE None None None None None (Some t))
  (* Busy *)
  else if test Pat.busy t then Some (Status.only BUSY)
  (* Legacy fallbacks *)
  else if test Pat.sig t then
    match option_map (whole t) (exec Pat.long_hex t) with
    | Some h =>
        if (negb (str_eqb h []) && Nat.eqb (List.length h) 128)%bool then
          Some (Status.Make PH_DONE None (Some 100%float) None None (Some h)
                            None)
        else Some (Status.Make PH_DONE None (Some 100%float) None None None
                               None)
    | None =>
        Some (Status.Make PH_DONE None (Some 100%float) None None None None)
    end
  else if test Pat.done t then
    Some (Status.Make PH_DONE None (Some 100%float) None None None None)
  (* No match *)
  else None
  end.

(** The adjustments the frame extractor makes to a decoded status before
    returning it (step 3 of [tryParseFromEvent]). *)
Definition backfill (status : Status.t) : Status.t :=
  (* Inject progress for init phases if not set *)
  let status :=
    match Status.state status, Status.progress status with
    | (PH_INIT_K | PH_INIT_R), None => Status.set_progress INIT_PROGRESS status
    | _, _ => status
    end in
  (* Map stepsRemaining to progress 10..95 and set stepsTotal=255 *)
  let status :=
    match Status.stepsRemaining status with
    | Some rem =>
        let r := progressFromRemaining rem in
        Status.set_stepsTotal (stepsTotal r)
          (Status.set_progress (progress r) status)
    | None => status
    end in
  (* Nudge PH_R_DONE into the last 5% window *)
  let status :=
    match Status.state status, Status.progress status with
    | PH_R_DONE, None =>
        Status.set_stepsTotal TOTAL_STEPS
          (Status.set_progress (Math_max R_DONE_PROGRESS 97%float) status)
    | _, _ => status
    end in
  (* Ensure PH_DONE is 100% *)
  match Status.state status with
  | PH_DONE => Status.set_progress 100%float status
  | _ => status
  end.

(* ================================================================== *)
(** * Exceptions *)
(* ================================================================== *)

(** What a [throw] or a rejected promise carries: the DOM exceptions the
    hook tells apart by name, the built-in error classes, and the hook's own
    [Error("Web NFC not supported ...")]. *)
Inductive exn :=
| AbortError | NotAllowedError | OtherDOMException
| TypeError | SyntaxError | NotSupported.

(** A computation that returns or throws. *)
Definition result (A : Type) : Type := exn + A.
Definition ok {A} (a : A) : result A := inr a.
Definition throw {A} (e : exn) : result A := inl e.

Definition bind_result {A B} (m : result A) (f : A -> result B) : result B :=
  match m with
  | inr a => f a
  | inl e => inl e
  end.

(** [try { m } catch { h }] *)
Definition try_catch {A} (m : result A) (h : exn -> result A) : result A :=
  match m with
  | inr a => inr a
  | inl e => h e
  end.

(* ================================================================== *)
(** * Frame extractor *)
(* ================================================================== *)

(** Values [JSON.parse] can return. *)
#[local] Unset Elimination Schemes.
Inductive json :=
| JNull
| JBool (b : bool)
| JNum (x : float)
| JStr (s : jstring)
| JArr (l : list json)
| JObj (l : list (jstring * json)).
#[local] Set Elimination Schemes.

(** [ToBoolean] on such a value. *)
Definition truthy (v : json) : bool :=
  match v with
  | JNull => false
  | JBool b => b
  | JNum x => negb (is_nan x || PrimFloat.eqb x 0%float)
  | JStr s => negb (str_eqb s [])
  | JArr _ | JObj _ => true
  end.

(** The plain payload synthesized from raw text: [{ publicKey }] alone, or
    [{ rawText }] with the labelled fields that were found. *)
Record TextPayload := {
  rawText : option jstring;
  publicKey : option jstring;
  chipId : option jstring
}.

(** What [tryParseFromEvent] returns when it is not [null]. *)
Inductive payload :=
| PJson (v : json)
| PStatus (s : Status.t)
| PText (p : TextPayload).

Definition payload_truthy (p : payload) : bool :=
  match p with
  | PJson v => truthy v
  | PStatus _ | PText _ => true
  end.

(** What the [data] of a record holds when it holds anything: the bytes
    behind the [DataView] of a record the reader delivered, or, in an event
    that the reader did not make, a value that is no buffer and has no
    [byteLength]. *)
Inductive RecordData :=
| Bytes (d : list N)
| NoBuffer.

(** An NDEF record of a reading event; [data] is [None] for a record
    without data. *)
Record NDEFRecord := {
  recordType : jstring;
  mediaType : option jstring;
  id : option jstring;
  data : option RecordData
}.

(** A reading event; [records = None] is an event whose message has no
    records array. *)
Record Event := {
  serialNumber : option jstring;
  records : option (list NDEFRecord)
}.

(** The per-record shape [{ t, m, id, len }] behind [lastHashRef]. *)
Definition shape : Type := jstring * option jstring * option jstring * nat.
Definition shape_of (r : NDEFRecord) : shape :=
  (recordType r, mediaType r, id r,
   match data r with
   | Some (Bytes d) => List.length d
   | Some NoBuffer | None => 0%nat
   end).

Module LabelPat.
(** [/^[0-9a-fA-F]{64}$/] *)
Definition hex64 : re := cat [Bol; times 64 hex; Eol].
Definition underscore_or_space : re :=
  Chr (fun c => cu_eqb c 95%N || is_space c)%bool.
(** [/(pubkey|public[_\s]?key)\s*[:=]\s*([0-9a-fA-F]+)/i] *)
Definition pubkey : re :=
  cat [Group 1 (Alt (stri "pubkey")
                    (cat [stri "public"; opt underscore_or_space; stri "key"]));
       spaces; one_of ":="; spaces; Group 2 (plus hex)].
(** [/\b(uid|chip[_\s]?id)\s*[:=]\s*([0-9a-fA-F]+)/i] *)
Definition uid : re :=
  cat [WordB;
       Group 1 (Alt (stri "uid")
                    (cat [stri "chip"; opt underscore_or_space; stri "id"]));
       spaces; one_of ":="; spaces; Group 2 (plus hex)].
End LabelPat.

Definition is_text (r : NDEFRecord) : bool :=
  str_eqb (recordType r) (lit "text").

Definition is_json_media (r : NDEFRecord) : bool :=
  match mediaType r with
  | Some m => (str_eqb m (lit "application/vnd.edsign+json")
               || str_eqb m (lit "application/json"))%bool
  | None => false
  end.

Definition looks_like_json (text : jstring) : bool :=
  (negb (str_eqb text [])
   && (startsWith (trim text) (lit "{")
       || startsWith (trim text) (lit "[")))%bool.

(** The platform functions the hook calls, whose code is not part of the
    repository: [TextDecoder.prototype.decode] of the decoder that
    [new TextDecoder()] makes, on the bytes of a buffer (that decoder is
    not fatal: it throws on no bytes), [JSON.parse], which may throw, and
    [JSON.stringify], on the list of record shapes and on a payload. *)
Class Platform := {
  decode : list N -> jstring;
  JSON_parse : jstring -> result json;
  JSON_stringify_shapes : list shape -> jstring;
  JSON_stringify : payload -> jstring
}.

Section Extractor.

Context {PF : Platform}.

Definition safeDecode (data : option RecordData) : jstring :=
  match try_catch
          (match data with
           | None => ok []
           | Some (Bytes d) => ok (decode d)
           (* [decode] of what is no buffer source *)
           | Some NoBuffer => throw TypeError
           end)
          (fun _ => ok []) with
  | inr s => s
  | inl _ => []
  end.

(** The loops of steps 1 and 2: the first selected record whose text looks
    like JSON and parses; a parse error moves on to the next record. *)
Fixpoint first_json (select : NDEFRecord -> bool) (rs : list NDEFRecord)
  : option json :=
  match rs with
  | [] => None
  | record :: rs' =>
      if select record then
        let text := safeDecode (data record) in
        if looks_like_json text then
          match try_catch (bind_result (JSON_parse text) (fun v => ok (Some v)))
                          (fun _ => ok None) with
          | inr (Some v) => Some v
          | _ => first_json select rs'
          end
        else first_json select rs'
      else first_json select rs'
  end.

(** The loop of step 3: the first text record that decodes to a status. *)
Fixpoint first_status (rs : list NDEFRecord) : option Status.t :=
  match rs with
  | [] => None
  | record :: rs' =>
      if is_text record then
        match parseEdSignTextStatus (safeDecode (data record)) with
        | Some status => Some (backfill status)
        | None => first_status rs'
        end
      else first_status rs'
  end.

(** The loop of step 4: the trimmed texts of the text records that have
    any. *)
Fixpoint raw_texts (rs : list NDEFRecord) : list jstring :=
  match rs with
  | [] => []
  | record :: rs' =>
      if is_text record then
        let text := safeDecode (data record) in
        if negb (str_eqb text []) then trim text :: raw_texts rs'
        else raw_texts rs'
      else raw_texts rs'
  end.

Definition synthesize (texts : list jstring) : option payload :=
  match texts with
  | [] => None
  | _ :: _ =>
      let rawText := trim (join [10%N] texts) in
      if test LabelPat.hex64 rawText then
        Some (PText {| rawText := None; publicKey := Some rawText;
                       chipId := None |})
      else
        let pubkeyMatch := exec LabelPat.pubkey rawText in
        let uidMatch := exec LabelPat.uid rawText in
        Some (PText {|
          rawText := Some rawText;
          publicKey := match pubkeyMatch with
                       | Some m => group 2 rawText m
                       | None => None
                       end;
          chipId := match uidMatch with
                    | Some m => group 2 rawText m
                    | None => None
                    end |})
  end.

(** [tryParseFromEvent], with [lastHashRef] passed in and out.  Reading
    [records] of a message that has none throws a [TypeError]. *)
Definition tryParseFromEvent (event : Event) (lastHash : jstring)
  : jstring * result (option payload) :=
  match records event with
  | None => (lastHash, throw TypeError)
  | Some rs =>
      let msgSig := JSON_stringify_shapes (map shape_of rs) in
      let lastHash := if negb (str_eqb lastHash msgSig) then msgSig
                      else lastHash in
      (lastHash,
       (* 1) Try JSON records *)
       match first_json is_json_media rs with
       | Some v => ok (Some (PJson v))
       | None =>
       (* 2) Try text record containing JSON *)
       match first_json is_text rs with
       | Some v => ok (Some (PJson v))
       | None =>
       (* 3) Try to parse signing status from text *)
       match first_status rs with
       | Some status => ok (Some (PStatus status))
       | None =>
       (* 4) As a last resort, synthesize a plain payload *)
       ok (synthesize (raw_texts rs))
       end end end)
  end.

End Extractor.
(* ================================================================== *)
(** * The hook's state and its environment *)
(* ================================================================== *)

(** What a pending [setTimeout] will run. *)
Inductive timer_cb :=
| RescanAfterReading       (* () => void rescanNow("after-reading") *)
| SingleReadTimeout (localController : option nat).

(** The [console] lines of the session code. *)
Inductive log_line :=
| LogReadingReceived
| LogParsedResult (parsed : option payload)
| LogNoParsedResult
| LogErrorInReading (e : exn)
| LogRescanNow (reason : jstring)
| LogDeepReset
| LogSingleReadTimeout.

(** The refs of [useWebNfc].  [readerRef] and the reader's
    [_listenersAttached] flag are one field: the reader is created with the
    first scan and its listeners are attached then.  [rBaselineRef] is
    written and never read, and is left out.  An [AbortController] and a
    timer are known by their identifiers. *)
Record hook := Hook {
  listenersAttached : bool;
  controllerRef : option nat;
  scanIntervalRef : option nat;
  restartingRef : bool;
  pollingMsRef : float;
  deepEveryRef : float;
  deepPauseRef : float;
  staleAfterRef : float;
  lastHashRef : jstring;
  lastPayloadRef : jstring;
  lastUpdateTsRef : Z;
  lastDeepResetTsRef : Z;
  suppressRescanRef : bool
}.

(** The page around the hook: the clock behind [Date.now()], the abort
    signals that were raised, the signals a running scan listens to, the
    timers ([intervals] with their period and the time they last fired,
    [timeouts] with the time they are due), the console, and the calls made
    through [onReadingRef] and [onErrorRef], which reach the consumer's
    callbacks when it registered them. *)
Record browser := Browser {
  isSupported : bool;
  clock : Z;
  nextId : nat;
  aborted : list nat;
  scanning : list nat;
  intervals : list (nat * Z * Z);
  timeouts : list (nat * timer_cb * Z);
  console : list log_line;
  readings : list (option jstring * payload);
  errors : list exn
}.

Record world := World { refs : hook; env : browser }.

Definition hook_set_listenersAttached (v : bool) (x : hook) : hook :=
  Hook v (controllerRef x) (scanIntervalRef x) (restartingRef x)
  (pollingMsRef x) (deepEveryRef x) (deepPauseRef x) (staleAfterRef x)
  (lastHashRef x) (lastPayloadRef x) (lastUpdateTsRef x)
  (lastDeepResetTsRef x) (suppressRescanRef x).
Definition hook_set_controllerRef (v : option nat) (x : hook) : hook :=
  Hook (listenersAttached x) v (scanIntervalRef x) (restartingRef x)
  (pollingMsRef x) (deepEveryRef x) (deepPauseRef x) (staleAfterRef x)
  (lastHashRef x) (lastPayloadRef x) (lastUpdateTsRef x)
  (lastDeepResetTsRef x) (suppressRescanRef x).
Definition hook_set_scanIntervalRef (v : option nat) (x : hook) : hook :=
  Hook (listenersAttached x) (controllerRef x) v (restartingRef x)
  (pollingMsRef x) (deepEveryRef x) (deepPauseRef x) (staleAfterRef x)
  (lastHashRef x) (lastPayloadRef x) (lastUpdateTsRef x)
  (lastDeepResetTsRef x) (suppressRescanRef x).
Definition hook_set_restartingRef (v : bool) (x : hook) : hook :=
  Hook (listenersAttached x) (controllerRef x) (scanIntervalRef x) v
  (pollingMsRef x) (deepEveryRef x) (deepPauseRef x) (staleAfterRef x)
  (lastHashRef x) (lastPayloadRef x) (lastUpdateTsRef x)
  (lastDeepResetTsRef x) (suppressRescanRef x).
Definition hook_set_pollingMsRef (v : float) (x : hook) : hook :=
  Hook (listenersAttached x) (controllerRef x) (scanIntervalRef x)
  (restartingRef x) v (deepEveryRef x) (deepPauseRef x) (staleAfterRef x)
  (lastHashRef x) (lastPayloadRef x) (lastUpdateTsRef x)
  (lastDeepResetTsRef x) (suppressRescanRef x).
Definition hook_set_deepEveryRef (v : float) (x : hook) : hook :=
  Hook (listenersAttached x) (controllerRef x) (scanIntervalRef x)
  (restartingRef x) (pollingMsRef x) v (deepPauseRef x) (staleAfterRef x)
  (lastHashRef x) (lastPayloadRef x) (lastUpdateTsRef x)
  (lastDeepResetTsRef x) (suppressRescanRef x).
Definition hook_set_deepPauseRef (v : float) (x : hook) : hook :=
  Hook (listenersAttached x) (controllerRef x) (scanIntervalRef x)
  (restartingRef x) (pollingMsRef x) (deepEveryRef x) v (staleAfterRef x)
  (lastHashRef x) (lastPayloadRef x) (lastUpdateTsRef x)
  (lastDeepResetTsRef x) (suppressRescanRef x).
Definition hook_set_staleAfterRef (v : float) (x : hook) : hook :=
  Hook (listenersAttached x) (controllerRef x) (scanIntervalRef x)
  (restartingRef x) (pollingMsRef x) (deepEveryRef x) (deepPauseRef x) v
  (lastHashRef x) (lastPayloadRef x) (lastUpdateTsRef x)
  (lastDeepResetTsRef x) (suppressRescanRef x).
Definition hook_set_lastHashRef (v : jstring) (x : hook) : hook :=
  Hook (listenersAttached x) (controllerRef x) (scanIntervalRef x)
  (restartingRef x) (pollingMsRef x) (deepEveryRef x) (deepPauseRef x)
  (staleAfterRef x) v (lastPayloadRef x) (lastUpdateTsRef x)
  (lastDeepResetTsRef x) (suppressRescanRef x).
Definition hook_set_lastPayloadRef (v : jstring) (x : hook) : hook :=
  Hook (listenersAttached x) (controllerRef x) (scanIntervalRef x)
  (restartingRef x) (pollingMsRef x) (deepEveryRef x) (deepPauseRef x)
  (staleAfterRef x) (lastHashRef x) v (lastUpdateTsRef x)
  (lastDeepResetTsRef x) (suppressRescanRef x).
Definition hook_set_lastUpdateTsRef (v : Z) (x : hook) : hook :=
  Hook (listenersAttached x) (controllerRef x) (scanIntervalRef x)
  (restartingRef x) (pollingMsRef x) (deepEveryRef x) (deepPauseRef x)
  (staleAfterRef x) (lastHashRef x) (lastPayloadRef x) v
  (lastDeepResetTsRef x) (suppressRescanRef x).
Definition hook_set_lastDeepResetTsRef (v : Z) (x : hook) : hook :=
  Hook (listenersAttached x) (controllerRef x) (scanIntervalRef x)
  (restartingRef x) (pollingMsRef x) (deepEveryRef x) (deepPauseRef x)
  (staleAfterRef x) (lastHashRef x) (lastPayloadRef x) (lastUpdateTsRef x)
  v (suppressRescanRef x).
Definition hook_set_suppressRescanRef (v : bool) (x : hook) : hook :=
  Hook (listenersAttached x) (controllerRef x) (scanIntervalRef x)
  (restartingRef x) (pollingMsRef x) (deepEveryRef x) (deepPauseRef x)
  (staleAfterRef x) (lastHashRef x) (lastPayloadRef x) (lastUpdateTsRef x)
  (lastDeepResetTsRef x) v.

Definition browser_set_isSupported (v : bool) (x : browser) : browser :=
  Browser v (clock x) (nextId x) (aborted x) (scanning x) (intervals x)
  (timeouts x) (console x) (readings x) (errors x).
Definition browser_set_clock (v : Z) (x : browser) : browser :=
  Browser (isSupported x) v (nextId x) (aborted x) (scanning x)
  (intervals x) (timeouts x) (console x) (readings x) (errors x).
Definition browser_set_nextId (v : nat) (x : browser) : browser :=
  Browser (isSupported x) (clock x) v (aborted x) (scanning x)
  (intervals x) (timeouts x) (console x) (readings x) (errors x).
Definition browser_set_aborted (v : list nat) (x : browser) : browser :=
  Browser (isSupported x) (clock x) (nextId x) v (scanning x) (intervals x)
  (timeouts x) (console x) (readings x) (errors x).
Definition browser_set_scanning (v : list nat) (x : browser) : browser :=
  Browser (isSupported x) (clock x) (nextId x) (aborted x) v (intervals x)
  (timeouts x) (console x) (readings x) (errors x).
Definition browser_set_intervals (v : list (nat * Z * Z)) (x : browser)
  : browser :=
  Browser (isSupported x) (clock x) (nextId x) (aborted x) (scanning x) v
  (timeouts x) (console x) (readings x) (errors x).
Definition browser_set_timeouts (v : list (nat * timer_cb * Z)) (x : browser)
  : browser :=
  Browser (isSupported x) (clock x) (nextId x) (aborted x) (scanning x)
  (intervals x) v (console x) (readings x) (errors x).
Definition browser_set_console (v : list log_line) (x : browser) : browser :=
  Browser (isSupported x) (clock x) (nextId x) (aborted x) (scanning x)
  (intervals x) (timeouts x) v (readings x) (errors x).
Definition browser_set_readings (v : list (option jstring * payload))
  (x : browser) : browser :=
  Browser (isSupported x) (clock x) (nextId x) (aborted x) (scanning x)
  (intervals x) (timeouts x) (console x) v (errors x).
Definition browser_set_errors (v : list exn) (x : browser) : browser :=
  Browser (isSupported x) (clock x) (nextId x) (aborted x) (scanning x)
  (intervals x) (timeouts x) (console x) (readings x) v.

Definition set_listenersAttached (v : bool) (w : world) : world :=
  World (hook_set_listenersAttached v (refs w)) (env w).
Definition set_controllerRef (v : option nat) (w : world) : world :=
  World (hook_set_controllerRef v (refs w)) (env w).
Definition set_scanIntervalRef (v : option nat) (w : world) : world :=
  World (hook_set_scanIntervalRef v (refs w)) (env w).
Definition set_restartingRef (v : bool) (w : world) : world :=
  World (hook_set_restartingRef v (refs w)) (env w).
Definition set_pollingMsRef (v : float) (w : world) : world :=
  World (hook_set_pollingMsRef v (refs w)) (env w).
Definition set_deepEveryRef (v : float) (w : world) : world :=
  World (hook_set_deepEveryRef v (refs w)) (env w).
Definition set_deepPauseRef (v : float) (w : world) : world :=
  World (hook_set_deepPauseRef v (refs w)) (env w).
Definition set_staleAfterRef (v : float) (w : world) : world :=
  World (hook_set_staleAfterRef v (refs w)) (env w).
Definition set_lastHashRef (v : jstring) (w : world) : world :=
  World (hook_set_lastHashRef v (refs w)) (env w).
Definition set_lastPayloadRef (v : jstring) (w : world) : world :=
  World (hook_set_lastPayloadRef v (refs w)) (env w).
Definition set_lastUpdateTsRef (v : Z) (w : world) : world :=
  World (hook_set_lastUpdateTsRef v (refs w)) (env w).
Definition set_lastDeepResetTsRef (v : Z) (w : world) : world :=
  World (hook_set_lastDeepResetTsRef v (refs w)) (env w).
Definition set_suppressRescanRef (v : bool) (w : world) : world :=
  World (hook_set_suppressRescanRef v (refs w)) (env w).
Definition set_isSupported (v : bool) (w : world) : world :=
  World (refs w) (browser_set_isSupported v (env w)).
Definition set_clock (v : Z) (w : world) : world :=
  World (refs w) (browser_set_clock v (env w)).
Definition set_nextId (v : nat) (w : world) : world :=
  World (refs w) (browser_set_nextId v (env w)).
Definition set_aborted (v : list nat) (w : world) : world :=
  World (refs w) (browser_set_aborted v (env w)).
Definition set_scanning (v : list nat) (w : world) : world :=
  World (refs w) (browser_set_scanning v (env w)).
Definition set_intervals (v : list (nat * Z * Z)) (w : world) : world :=
  World (refs w) (browser_set_intervals v (env w)).
Definition set_timeouts (v : list (nat * timer_cb * Z)) (w : world) : world :=
  World (refs w) (browser_set_timeouts v (env w)).
Definition set_console (v : list log_line) (w : world) : world :=
  World (refs w) (browser_set_console v (env w)).
Definition set_readings (v : list (option jstring * payload)) (w : world)
  : world :=
  World (refs w) (browser_set_readings v (env w)).
Definition set_errors (v : list exn) (w : world) : world :=
  World (refs w) (browser_set_errors v (env w)).

(* ================================================================== *)
(** * Asynchronous functions as resumptions *)
(* ================================================================== *)

Section Resumption.

(** The state the code works on, and what an [await] can wait for. *)
Variables (St Wt : Type).

(** A call of an async function has either finished, with a value or an
    exception, or is suspended at an [await]; the continuation takes the
    outcome of the awaited promise and the state as it is by then. *)
Inductive run (A : Type) : Type :=
| Done (s : St) (r : result A)
| Await (s : St) (on : Wt) (k : result unit -> St -> run A).

Definition async (A : Type) : Type := St -> run A.

Fixpoint bind_run {A B} (r : run A) (f : A -> async B) : run B :=
  match r with
  | Done s (inr a) => f a s
  | Done s (inl e) => Done s (inl e)
  | Await s on k => Await s on (fun res s' => bind_run (k res s') f)
  end.

Fixpoint catch_run {A} (r : run A) (h : exn -> async A) : run A :=
  match r with
  | Done s (inr a) => Done s (inr a)
  | Done s (inl e) => h e s
  | Await s on k => Await s on (fun res s' => catch_run (k res s') h)
  end.

Fixpoint finally_run {A} (r : run A) (f : St -> St) : run A :=
  match r with
  | Done s res => Done (f s) res
  | Await s on k => Await s on (fun res s' => finally_run (k res s') f)
  end.

Definition ret {A} (a : A) : async A := fun s => Done s (ok a).
Definition raise {A} (e : exn) : async A := fun s => Done s (throw e).
Definition bind {A B} (m : async A) (f : A -> async B) : async B :=
  fun s => bind_run (m s) f.
(** [try { m } catch (e) { h e }] *)
Definition catch {A} (m : async A) (h : exn -> async A) : async A :=
  fun s => catch_run (m s) h.
(** [try { m } finally { f }], for a block [f] that only assigns. *)
Definition finally {A} (m : async A) (f : St -> St) : async A :=
  fun s => finally_run (m s) f.
(** A synchronous statement. *)
Definition exec_ (f : St -> St) : async unit := fun s => Done (f s) (ok tt).
(** A synchronous expression. *)
Definition read {A} (f : St -> A) : async A := fun s => Done s (ok (f s)).
(** [await] of a promise of the environment. *)
Definition await (on : Wt) : async unit :=
  fun s => Await s on (fun res s' => Done s' res).


(** A call runs to completion: each promise it awaits settles in a way
    [allowed] permits, and while it is suspended the rest of the program
    changes the state only as [rely] permits. *)
Inductive completes (rely : St -> St -> Prop)
  (allowed : Wt -> result unit -> Prop) {A : Type}
  : run A -> St -> result A -> Prop :=
| completes_done s r : completes rely allowed (Done s r) s r
| completes_await s on k res s' sf rf :
    allowed on res -> rely s s' ->
    completes rely allowed (k res s') sf rf ->
    completes rely allowed (Await s on k) sf rf.

(** The same with nothing else running: the awaited promises settle as
    listed; [None] when the list ends before the call does. *)
Fixpoint feed {A} (l : list (result unit)) (r : run A)
  : option (St * result A) :=
  match r, l with
  | Done s res, _ => Some (s, res)
  | Await s on k, res :: l' => feed l' (k res s)
  | Await _ _ _, [] => None
  end.

(** What such a run awaits, in order. *)
Fixpoint awaited {A} (l : list (result unit)) (r : run A) : list Wt :=
  match r, l with
  | Done _ _, _ => []
  | Await s on k, res :: l' => on :: awaited l' (k res s)
  | Await _ on _, [] => [on]
  end.

End Resumption.

Arguments Done {St Wt A} s r.
Arguments Await {St Wt A} s on k.
Arguments ret {St Wt A} a _.
Arguments raise {St Wt A} e _.
Arguments exec_ {St Wt} f _.
Arguments read {St Wt A} f _.
Arguments await {St Wt} on _.

Declare Scope async_scope.
Delimit Scope async_scope with async.
Notation "x <- m ;; k" := (bind m (fun x => k))
  (at level 61, m at next level, right associativity) : async_scope.
Notation "m ;; k" := (bind m (fun _ => k))
  (at level 61, right associativity) : async_scope.
Open Scope async_scope.

(** What an [await] of the hook waits for: [sleep(ms)], or the promise of
    [reader.scan({ signal })]. *)
Inductive wait :=
| Sleep (ms : float)
| Scan (signal : nat).

(* ================================================================== *)
(** * Platform calls *)
(* ================================================================== *)

Definition log (l : log_line) (w : world) : world :=
  set_console (console (env w) ++ [l]) w.

(** [controller.abort()]: the signal is raised and a scan listening to it
    stops. *)
Definition abort (c : nat) (w : world) : world :=
  set_scanning (filter (fun x => negb (Nat.eqb x c)) (scanning (env w)))
    (set_aborted (c :: aborted (env w)) w).

(** [controllerRef.current?.abort()] *)
Definition abort_current (w : world) : world :=
  match controllerRef (refs w) with
  | Some c => abort c w
  | None => w
  end.

(** [window.setTimeout(cb, ms)], giving the timer's identifier. *)
Definition setTimeout (cb : timer_cb) (ms : float) (w : world) : nat * world :=
  let i := nextId (env w) in
  (i, set_timeouts
        (timeouts (env w) ++ [(i, cb, clock (env w) + delay_of ms)])
        (set_nextId (S i) w)).

Definition clearTimeout (i : nat) (w : world) : world :=
  set_timeouts
    (filter (fun t => negb (Nat.eqb (fst (fst t)) i)) (timeouts (env w))) w.

(** [window.setInterval(tick, ms)]; the hook has one interval callback. *)
Definition setInterval (ms : float) (w : world) : nat * world :=
  let i := nextId (env w) in
  (i, set_intervals (intervals (env w) ++ [(i, delay_of ms, clock (env w))])
        (set_nextId (S i) w)).

Definition clearInterval (i : nat) (w : world) : world :=
  set_intervals
    (filter (fun t => negb (Nat.eqb (fst (fst t)) i)) (intervals (env w))) w.

(** [new AbortController()] *)
Definition new_controller (w : world) : nat * world :=
  (nextId (env w), set_nextId (S (nextId (env w))) w).

(* ================================================================== *)
(** * The hook *)
(* ================================================================== *)

(** The options of [startScan]: each a number, or [None] when it is not
    given. *)
Record StartOpts := {
  pollMs : option float;
  deepResetEveryMs : option float;
  deepResetPauseMs : option float;
  staleAfterMs : option float
}.

(** [opts?.field ?? dflt] *)
Definition opt_or (opts : option StartOpts)
  (field : StartOpts -> option float) (dflt : float) : float :=
  match opts with
  | Some o => match field o with Some v => v | None => dflt end
  | None => dflt
  end.

(** The calls a consumer of the hook makes. *)
Inductive call :=
| CallStartScan (opts : option StartOpts)
| CallStartSingleRead (timeoutMs : option float)
| CallStopScan
| CallDispose (to : nat).

(** What a callback of the consumer does to the hook while it runs: the
    calls it makes into the hook, in order, and the exception it ends with
    when it throws. *)
Record reaction := { makes : list call; throws : option exn }.

Definition no_reaction : reaction := {| makes := []; throws := None |}.

(** The callbacks the consumer gave to [useWebNfc], kept in [onReadingRef]
    and [onErrorRef].  What a callback does may depend on everything that
    has happened on the page; a callback that was not given is one that
    does nothing. *)
Class Consumer := {
  onReading : option jstring -> payload -> world -> reaction;
  onError : exn -> world -> reaction
}.

Section Hook.

Context {PF : Platform} {CB : Consumer}.

(** [sleep(50)] inside [doScan]. *)
Definition SCAN_SETTLE_MS : float := 50%float.

Definition doScan : async world wait unit :=
  fun w =>
  (if negb (isSupported (env w)) then raise NotSupported
   else
     exec_ (set_listenersAttached true) ;;
     exec_ abort_current ;;
     await (Sleep SCAN_SETTLE_MS) ;;
     c <- (fun w => let (c, w') := new_controller w in
                    Done (set_controllerRef (Some c) w') (ok c)) ;;
     catch (await (Scan c))
           (fun e => match e with
                     | AbortError => ret tt
                     | NotAllowedError => raise e
                     | _ => ret tt
                     end)) w.

Definition rescanNow (reason : jstring) : async world wait unit :=
  exec_ (log (LogRescanNow reason)) ;;
  restarting <- read (fun w => restartingRef (refs w)) ;;
  if restarting then ret tt
  else
    exec_ (set_restartingRef true) ;;
    finally doScan (set_restartingRef false).

Definition deepReset : async world wait unit :=
  exec_ (log LogDeepReset) ;;
  exec_ abort_current ;;
  pause <- read (fun w => deepPauseRef (refs w)) ;;
  await (Sleep pause) ;;
  doScan ;;
  exec_ (fun w => set_lastDeepResetTsRef (clock (env w)) w).

Definition stopPolling (w : world) : world :=
  match scanIntervalRef (refs w) with
  | Some i => set_scanIntervalRef None (clearInterval i w)
  | None => w
  end.

(** The callback [startScan] gives to [setInterval]. *)
Definition tick : async world wait unit :=
  fun w =>
  let now := clock (env w) in
  let dueDeep :=
    (deepEveryRef (refs w) <=? of_Z (now - lastDeepResetTsRef (refs w)))%float
  in
  let stale :=
    (staleAfterRef (refs w) <=? of_Z (now - lastUpdateTsRef (refs w)))%float
  in
  (if (dueDeep || stale)%bool then deepReset
   else rescanNow (lit "interval")) w.

Definition startScan (opts : option StartOpts) : async world wait unit :=
  exec_ (set_pollingMsRef
           (Math_max 250%float (opt_or opts pollMs 1000%float))) ;;
  exec_ (set_deepEveryRef
           (Math_max 3000%float (opt_or opts deepResetEveryMs 10000%float))) ;;
  exec_ (set_deepPauseRef
           (Math_max 500%float (opt_or opts deepResetPauseMs 1800%float))) ;;
  exec_ (set_staleAfterRef
           (Math_max 2000%float (opt_or opts staleAfterMs 5000%float))) ;;
  exec_ (set_lastPayloadRef []) ;;
  exec_ (set_lastHashRef []) ;;
  (* Ensure continuous mode *)
  exec_ (set_suppressRescanRef false) ;;
  doScan ;;
  exec_ (fun w => set_lastDeepResetTsRef (clock (env w)) w) ;;
  exec_ (fun w => set_lastUpdateTsRef (clock (env w)) w) ;;
  exec_ stopPolling ;;
  exec_ (fun w => let (i, w') := setInterval (pollingMsRef (refs w)) w in
                  set_scanIntervalRef (Some i) w').

(** The callback [startSingleRead] gives to [setTimeout]. *)
Definition singleReadTimeout (localController : option nat) (w : world)
  : world :=
  let same :=
    match controllerRef (refs w), localController with
    | Some a, Some b => Nat.eqb a b
    | None, None => true
    | _, _ => false
    end in
  if same then abort_current (log LogSingleReadTimeout w) else w.

(** [startSingleRead]; the value is the timer that the disposer it returns
    clears. *)
Definition startSingleRead (timeoutMs : option float)
  : async world wait nat :=
  let timeoutMs :=
    match timeoutMs with Some t => t | None => 3000%float end in
  (* Disable auto rescan & interval polling *)
  exec_ (set_suppressRescanRef true) ;;
  exec_ stopPolling ;;
  exec_ (set_lastPayloadRef []) ;;
  exec_ (set_lastHashRef []) ;;
  doScan ;;
  (* Timeout to abort if nothing is read *)
  (fun w => let localController := controllerRef (refs w) in
            let (to, w') := setTimeout (SingleReadTimeout localController)
                                       timeoutMs w in
            Done w' (ok to)).

(** The disposer [startSingleRead] returns. *)
Definition dispose (to : nat) (w : world) : world := clearTimeout to w.

Definition stopScan (w : world) : world :=
  let w := stopPolling w in
  let w := abort_current w in
  (* Return to default mode for next call *)
  set_suppressRescanRef false w.

(** [rescanNow] is scheduled this long after a reading. *)
Definition RESCAN_AFTER_READING_MS : float := 150%float.

(** What a timer callback does. *)
Definition run_timer (cb : timer_cb) : async world wait unit :=
  match cb with
  | RescanAfterReading => rescanNow (lit "after-reading")
  | SingleReadTimeout lc => exec_ (singleReadTimeout lc)
  end.

(* ------------------------------------------------------------------ *)
(** ** The calls in flight *)

(** A suspended call: what it waits for, when a [sleep] it waits for is
    over, and how it goes on. *)
Record task := Task {
  on : wait;
  due : Z;
  k : result unit -> world -> run world wait unit
}.

(** The page: the world and the calls in flight. *)
Record sys := Sys { W : world; tasks : list task }.

(** A call was made and ran to its first [await], or to its end; nobody
    awaits its promise. *)
Definition spawn {A} (r : run world wait A) (ts : list task) : sys :=
  match r with
  | Done w _ => Sys w ts
  | Await w on k =>
      let due := match on with
                 | Sleep ms => clock (env w) + delay_of ms
                 | Scan _ => clock (env w)
                 end in
      Sys w (ts ++ [Task on due
                      (fun res w' => bind_run (k res w') (fun _ => ret tt))])
  end.

(** A call of the consumer into the hook. *)
Definition make (c : call) (s : sys) : sys :=
  match c with
  | CallStartScan opts => spawn (startScan opts (W s)) (tasks s)
  | CallStartSingleRead t => spawn (startSingleRead t (W s)) (tasks s)
  | CallStopScan => Sys (stopScan (W s)) (tasks s)
  | CallDispose to => Sys (dispose to (W s)) (tasks s)
  end.

(* ------------------------------------------------------------------ *)
(** ** The reading listener *)

(** A callback of the consumer runs: its calls into the hook are made one
    after the other, and it returns or throws. *)
Definition react (r : reaction) (s : sys) : sys * result unit :=
  (fold_left (fun s c => make c s) (makes r) s,
   match throws r with
   | Some e => throw e
   | None => ok tt
   end).

(** [emitIfChanged]; the call through [onReadingRef] is recorded in
    [readings] before the callback runs. *)
Definition emitIfChanged (tagId : option jstring) (p : payload) (s : sys)
  : sys * result unit :=
  let w := W s in
  let sig := JSON_stringify p in
  if negb (str_eqb sig (lastPayloadRef (refs w))) then
    let w := set_lastPayloadRef sig w in
    let w := set_lastUpdateTsRef (clock (env w)) w in
    let w := set_readings (readings (env w) ++ [(tagId, p)]) w in
    react (onReading tagId p w) (Sys w (tasks s))
  else (s, ok tt).

(** The [catch] block of the listener; the call through [onErrorRef] is
    recorded in [errors] before the callback runs, and what the callback
    throws leaves the listener. *)
Definition readingFailed (e : exn) (s : sys) : sys :=
  let w := log (LogErrorInReading e) (W s) in
  let w := set_errors (errors (env w) ++ [e]) w in
  fst (react (onError e w) (Sys w (tasks s))).

(** The ["reading"] listener that [doScan] attaches. *)
Definition onReadingEvent (event : Event) (s : sys) : sys :=
  let w := log LogReadingReceived (W s) in
  let tagId := serialNumber event in
  let (lastHash, parsed) :=
    tryParseFromEvent event (lastHashRef (refs w)) in
  let w := set_lastHashRef lastHash w in
  match parsed with
  | inl e => readingFailed e (Sys w (tasks s))
  | inr parsed =>
      let w := log (LogParsedResult parsed) w in
      let (s', r) :=
        match parsed with
        | Some p =>
            if payload_truthy p then emitIfChanged tagId p (Sys w (tasks s))
            else (Sys (log LogNoParsedResult w) (tasks s), ok tt)
        | None => (Sys (log LogNoParsedResult w) (tasks s), ok tt)
        end in
      match r with
      | inl e => readingFailed e s'
      | inr _ =>
          (* only schedule rescan if not in single-shot mode *)
          if negb (suppressRescanRef (refs (W s'))) then
            Sys (snd (setTimeout RescanAfterReading RESCAN_AFTER_READING_MS
                                 (W s')))
                (tasks s')
          else s'
      end
  end.

(* ------------------------------------------------------------------ *)
(** ** The event loop *)

(** What can happen on the page. *)
Inductive event :=
| Advance (t : Z)                     (* time passes: the clock reads [t] *)
| Tick (id : nat)                     (* an interval fires *)
| Timeout (id : nat)                  (* a timeout fires *)
| Settle (i : nat) (res : result unit) (* the promise task [i] awaits settles *)
| Reading (ev : Event)                (* the reader dispatches "reading" *)
| Call (c : call).                    (* the consumer calls the hook *)

Definition mem (c : nat) (l : list nat) : bool := existsb (Nat.eqb c) l.

(** How the promise a task awaits may settle: a [sleep] resolves once its
    time is up; [reader.scan] resolves while its signal is not raised,
    rejects with [AbortError] once it is, and may be refused. *)
Definition may_settle (t : task) (res : result unit) (w : world) : bool :=
  match on t, res with
  | Sleep _, inr _ => due t <=? clock (env w)
  | Sleep _, inl _ => false
  | Scan c, inr _ => negb (mem c (aborted (env w)))
  | Scan c, inl AbortError => mem c (aborted (env w))
  | Scan _, inl NotAllowedError => true
  | Scan _, inl OtherDOMException => true
  | Scan _, inl _ => false
  end.

(** A scan that has started listens until its signal is raised. *)
Definition settled (t : task) (res : result unit) (w : world) : world :=
  match on t, res with
  | Scan c, inr _ => set_scanning (c :: scanning (env w)) w
  | _, _ => w
  end.

Fixpoint remove_nth {A} (i : nat) (l : list A) : list A :=
  match l, i with
  | [], _ => []
  | _ :: l', O => l'
  | x :: l', S i' => x :: remove_nth i' l'
  end.

(** One event; [None] when it cannot happen in this state. *)
Definition step (e : event) (s : sys) : option sys :=
  let w := W s in
  match e with
  | Advance t =>
      if clock (env w) <=? t then Some (Sys (set_clock t w) (tasks s))
      else None
  | Tick i =>
      match find (fun x => Nat.eqb (fst (fst x)) i) (intervals (env w)) with
      | Some (_, period, last) =>
          if last + period <=? clock (env w) then
            let w' := set_intervals
                        (map (fun x => if Nat.eqb (fst (fst x)) i
                                       then (i, period, clock (env w)) else x)
                             (intervals (env w))) w in
            Some (spawn (tick w') (tasks s))
          else None
      | None => None
      end
  | Timeout i =>
      match find (fun x => Nat.eqb (fst (fst x)) i) (timeouts (env w)) with
      | Some (_, cb, due) =>
          if due <=? clock (env w) then
            Some (spawn (run_timer cb (clearTimeout i w)) (tasks s))
          else None
      | None => None
      end
  | Settle i res =>
      match nth_error (tasks s) i with
      | Some t =>
          if may_settle t res w then
            Some (spawn (k t res (settled t res w)) (remove_nth i (tasks s)))
          else None
      | None => None
      end
  | Reading ev =>
      if (listenersAttached (refs w)
          && negb (Nat.eqb (List.length (scanning (env w))) 0))%bool
      then Some (onReadingEvent ev s)
      else None
  | Call c => Some (make c s)
  end.

(** A sequence of events, each possible when it happens. *)
Fixpoint steps (es : list event) (s : sys) : option sys :=
  match es with
  | [] => Some s
  | e :: es' =>
      match step e s with
      | Some s' => steps es' s'
      | None => None
      end
  end.

End Hook.

(** The page when the hook is mounted, at time [t0]. *)
Definition mounted (supported : bool) (t0 : Z) : sys :=
  Sys (World (Hook false None None false 1000%float 10000%float 1800%float
                   5000%float [] [] 0 0 false)
             (Browser supported t0 0 [] [] [] [] [] [] []))
      [].

(* ================================================================== *)
(** * Payloads as the application reads them *)
(* ================================================================== *)

(** The string of a state. *)
Definition State_name (s : State) : jstring :=
  lit match s with
      | ERROR => "ERROR" | PH_INIT_K => "PH_INIT_K" | PH_INIT_R => "PH_INIT_R"
      | PH_R_WORK => "PH_R_WORK" | PH_R_DONE => "PH_R_DONE"
      | PH_DONE => "PH_DONE" | PH_IDLE => "PH_IDLE" | BUSY => "BUSY"
      end.

Definition all_states : list State :=
  [ERROR; PH_INIT_K; PH_INIT_R; PH_R_WORK; PH_R_DONE; PH_DONE; PH_IDLE; BUSY].

(** The member of an object with a given key; of two members with the
    same key the later one counts. *)
Fixpoint member_of (key : jstring) (l : list (jstring * json))
  : option json :=
  match l with
  | [] => None
  | (k, v) :: l' =>
      match member_of key l' with
      | Some v' => Some v'
      | None => if str_eqb k key then Some v else None
      end
  end.

(** [payload[key]] for a payload that is not [null]; [None] is
    [undefined]. *)
Definition prop (key : string) (p : payload) : option json :=
  match p with
  | PJson (JObj l) => member_of (lit key) l
  | PJson _ => None
  | PStatus s =>
      if String.eqb key "state" then
        Some (JStr (State_name (Status.state s)))
      else if String.eqb key "error" then option_map JStr (Status.error s)
      else if String.eqb key "progress" then
        option_map JNum (Status.progress s)
      else if String.eqb key "stepsRemaining" then
        option_map JNum (Status.stepsRemaining s)
      else if String.eqb key "stepsTotal" then
        option_map JNum (Status.stepsTotal s)
      else if String.eqb key "signature" then
        option_map JStr (Status.signature s)
      else if String.eqb key "pubkey" then option_map JStr (Status.pubkey s)
      else None
  | PText t =>
      if String.eqb key "rawText" then option_map JStr (rawText t)
      else if String.eqb key "publicKey" then option_map JStr (publicKey t)
      else if String.eqb key "chipId" then option_map JStr (chipId t)
      else None
  end.

(** The state that [payload.state] is strictly equal to, if any. *)
Definition state_of (p : payload) : option State :=
  match prop "state" p with
  | Some (JStr s) => find (fun st => str_eqb (State_name st) s) all_states
  | _ => None
  end.

(** [a || b] *)
Definition js_or (a b : option json) : option json :=
  match a with
  | Some v => if truthy v then a else b
  | None => b
  end.

(* ================================================================== *)
(** * The application: power-cycle supervisor and device-info read *)
(* ================================================================== *)

Module App.

Inductive Status := idle | writing | computing | done.

Definition Status_eqb (a b : Status) : bool :=
  match a, b with
  | idle, idle | writing, writing | computing, computing | done, done => true
  | _, _ => false
  end.

(** The texts [setError] is given. *)
Inductive ErrorText :=
| NoError                       (* "" *)
| ComputationTimeout            (* "Computation timeout" *)
| TimedOutReadingDeviceInfo     (* "Timed out reading device info" *)
| Failed (e : exn)              (* `Failed: ${error.message}` *)
| PayloadNotRecognized          (* "Device info payload not recognized ..." *)
| DeviceError (text : option json).
                                (* payload.error || "Unknown error ..." *)

(** [powerCycleIntervalRef.current]: [null], the object with a [stop]
    method that [startPowerCycling] stores, or the timer of the next
    cycle. *)
Inductive PowerCycleRef :=
| NoHandle
| StopHandle
| CycleTimer (id : nat).

(** The application's timers. *)
Inductive timer_cb :=
| RunCycles                     (* () => runCycles(), after 100 ms *)
| DeviceInfoFailsafe            (* the failsafe of handleGetDeviceInfo *)
| StopPowerCycling.             (* () => stopPowerCycling(), after PH_DONE *)

(** The calls the application makes into the hook. *)
Inductive hook_call :=
| StartScan (opts : StartOpts)
| StopScan
| StartSingleRead (timeoutMs : float)
| WriteText (text : jstring).

(** The state the supervisor, the device-info flow and the reading
    handler work on.  A React state and the ref that mirrors it are one
    field; [cycleCount] and [shouldContinue] are the variables
    [startPowerCycling] closes over; [calls] lists the calls made into the
    hook.  A timer is known by its identifier, which is never the falsy 0
    in a browser: a ref that holds one is [Some].  The debug log and the
    fields that only feed the display are left out. *)
Record t := Make {
  statusRef : Status;
  error : ErrorText;
  isScanning : bool;
  isFieldActive : bool;
  isGettingDeviceInfoRef : bool;
  singleReadTimeoutRef : option nat;
  powerCycleIntervalRef : PowerCycleRef;
  cycleCount : nat;
  shouldContinue : bool;
  timers : list (nat * timer_cb * Z);
  nextTimer : nat;
  calls : list hook_call
}.

Definition set_statusRef v a :=
  Make v (error a) (isScanning a) (isFieldActive a) (isGettingDeviceInfoRef a)
       (singleReadTimeoutRef a) (powerCycleIntervalRef a) (cycleCount a)
       (shouldContinue a) (timers a) (nextTimer a) (calls a).
Definition set_error v a :=
  Make (statusRef a) v (isScanning a) (isFieldActive a)
       (isGettingDeviceInfoRef a) (singleReadTimeoutRef a)
       (powerCycleIntervalRef a) (cycleCount a) (shouldContinue a) (timers a)
       (nextTimer a) (calls a).
Definition set_isScanning v a :=
  Make (statusRef a) (error a) v (isFieldActive a) (isGettingDeviceInfoRef a)
       (singleReadTimeoutRef a) (powerCycleIntervalRef a) (cycleCount a)
       (shouldContinue a) (timers a) (nextTimer a) (calls a).
Definition set_isFieldActive v a :=
  Make (statusRef a) (error a) (isScanning a) v (isGettingDeviceInfoRef a)
       (singleReadTimeoutRef a) (powerCycleIntervalRef a) (cycleCount a)
       (shouldContinue a) (timers a) (nextTimer a) (calls a).
Definition set_isGettingDeviceInfoRef v a :=
  Make (statusRef a) (error a) (isScanning a) (isFieldActive a) v
       (singleReadTimeoutRef a) (powerCycleIntervalRef a) (cycleCount a)
       (shouldContinue a) (timers a) (nextTimer a) (calls a).
Definition set_singleReadTimeoutRef v a :=
  Make (statusRef a) (error a) (isScanning a) (isFieldActive a)
       (isGettingDeviceInfoRef a) v (powerCycleIntervalRef a) (cycleCount a)
       (shouldContinue a) (timers a) (nextTimer a) (calls a).
Definition set_powerCycleIntervalRef v a :=
  Make (statusRef a) (error a) (isScanning a) (isFieldActive a)
       (isGettingDeviceInfoRef a) (singleReadTimeoutRef a) v (cycleCount a)
       (shouldContinue a) (timers a) (nextTimer a) (calls a).
Definition set_cycleCount v a :=
  Make (statusRef a) (error a) (isScanning a) (isFieldActive a)
       (isGettingDeviceInfoRef a) (singleReadTimeoutRef a)
       (powerCycleIntervalRef a) v (shouldContinue a) (timers a) (nextTimer a)
       (calls a).
Definition set_shouldContinue v a :=
  Make (statusRef a) (error a) (isScanning a) (isFieldActive a)
       (isGettingDeviceInfoRef a) (singleReadTimeoutRef a)
       (powerCycleIntervalRef a) (cycleCount a) v (timers a) (nextTimer a)
       (calls a).
Definition set_timers v a :=
  Make (statusRef a) (error a) (isScanning a) (isFieldActive a)
       (isGettingDeviceInfoRef a) (singleReadTimeoutRef a)
       (powerCycleIntervalRef a) (cycleCount a) (shouldContinue a) v
       (nextTimer a) (calls a).
Definition set_nextTimer v a :=
  Make (statusRef a) (error a) (isScanning a) (isFieldActive a)
       (isGettingDeviceInfoRef a) (singleReadTimeoutRef a)
       (powerCycleIntervalRef a) (cycleCount a) (shouldContinue a) (timers a)
       v (calls a).
Definition set_calls v a :=
  Make (statusRef a) (error a) (isScanning a) (isFieldActive a)
       (isGettingDeviceInfoRef a) (singleReadTimeoutRef a)
       (powerCycleIntervalRef a) (cycleCount a) (shouldContinue a) (timers a)
       (nextTimer a) v.

(** What the application awaits: a promise of the hook, or a
    [setTimeout] wrapped in a promise. *)
Inductive wait :=
| HookStartScan
| HookStartSingleRead
| HookWriteText
| Delay (ms : Z).

Definition setTimeout (cb : timer_cb) (ms : Z) (a : t) : nat * t :=
  (nextTimer a,
   set_timers (timers a ++ [(nextTimer a, cb, ms)])
     (set_nextTimer (S (nextTimer a)) a)).

Definition clearTimeout (i : nat) (a : t) : t :=
  set_timers (filter (fun x => negb (Nat.eqb (fst (fst x)) i)) (timers a)) a.

(** A call of the hook's synchronous [stopScan]. *)
Definition stopScan (a : t) : t := set_calls (calls a ++ [StopScan]) a.

(** [await startScan(opts)] *)
Definition startScan (opts : StartOpts) : async t wait unit :=
  exec_ (fun a => set_calls (calls a ++ [StartScan opts]) a) ;;
  await HookStartScan.

Definition maxCycles : nat := 100.

(** The options of both scans of a cycle. *)
Definition cycleOpts : StartOpts :=
  {| pollMs := Some 300%float; deepResetEveryMs := Some 999999%float;
     deepResetPauseMs := Some 0%float; staleAfterMs := Some 999999%float |}.

Definition stopPowerCycling (a : t) : t :=
  let a :=
    match powerCycleIntervalRef a with
    | NoHandle => a
    | StopHandle =>
        (* .stop(): shouldContinue = false *)
        set_powerCycleIntervalRef NoHandle (set_shouldContinue false a)
    | CycleTimer i =>
        set_powerCycleIntervalRef NoHandle (clearTimeout i a)
    end in
  set_isFieldActive false (set_isScanning false (stopScan a)).

Definition doCycle : async t wait bool :=
  fun a =>
  (if Nat.leb maxCycles (cycleCount a) then
     exec_ stopPowerCycling ;;
     exec_ (set_error ComputationTimeout) ;;
     ret false
   else if negb (shouldContinue a) then ret false
   else
     exec_ (fun a => set_cycleCount (S (cycleCount a)) a) ;;
     exec_ (set_isFieldActive true) ;;
     catch
       (startScan cycleOpts ;;
        await (Delay 20000) ;;
        exec_ stopScan ;;
        exec_ (set_isFieldActive false) ;;
        await (Delay 500) ;;
        startScan cycleOpts ;;
        await (Delay 2000) ;;
        exec_ stopScan ;;
        exec_ (set_isFieldActive false) ;;
        await (Delay 500) ;;
        ret true)
       (fun _ => ret false)) a.

Definition runCycles : async t wait unit :=
  fun a =>
  (if negb (Status_eqb (statusRef a) computing) then exec_ stopPowerCycling
   else
     continueNext <- doCycle ;;
     fun a =>
       if (continueNext && shouldContinue a
           && Status_eqb (statusRef a) computing)%bool
       then
         let (i, a') := setTimeout RunCycles 100 a in
         Done (set_powerCycleIntervalRef (CycleTimer i) a') (ok tt)
       else exec_ stopPowerCycling a) a.

Definition startPowerCycling : async t wait unit :=
  exec_ (set_cycleCount 0) ;;
  exec_ (set_shouldContinue true) ;;
  exec_ (set_powerCycleIntervalRef StopHandle) ;;
  runCycles.

Definition cancelOperation (a : t) : t :=
  let a := stopPowerCycling a in
  set_isFieldActive false (set_error NoError (set_statusRef idle a)).

(** The callback of the failsafe timer of [handleGetDeviceInfo]. *)
Definition deviceInfoFailsafe (a : t) : t :=
  if isGettingDeviceInfoRef a then
    let a := set_isGettingDeviceInfoRef false a in
    let a := set_isScanning false a in
    let a := stopScan a in
    set_error TimedOutReadingDeviceInfo a
  else a.

Definition handleGetDeviceInfo : async t wait unit :=
  catch
    (exec_ (set_error NoError) ;;
     exec_ (set_isGettingDeviceInfoRef true) ;;
     (* Clear any previous failsafe *)
     exec_ (fun a => match singleReadTimeoutRef a with
                     | Some i =>
                         set_singleReadTimeoutRef None (clearTimeout i a)
                     | None => a
                     end) ;;
     exec_ (fun a => set_calls (calls a ++ [WriteText (lit "pubkey")]) a) ;;
     await HookWriteText ;;
     exec_ (fun a => set_calls (calls a ++ [StartSingleRead 3000%float]) a) ;;
     await HookStartSingleRead ;;
     exec_ (set_isScanning true) ;;
     (* Failsafe to stop spinner if nothing arrives *)
     exec_ (fun a => let (i, a') := setTimeout DeviceInfoFailsafe 3200 a in
                     set_singleReadTimeoutRef (Some i) a'))
    (fun e =>
       exec_ (set_error (Failed e)) ;;
       exec_ (set_isGettingDeviceInfoRef false) ;;
       exec_ stopScan ;;
       exec_ (set_isScanning false)).

(** [isHex(s, 64)] *)
Definition isHex64 (v : option json) : bool :=
  match v with
  | Some (JStr s) => test LabelPat.hex64 s
  | _ => false
  end.

(** The [onReading] callback the application gives to the hook. *)
Definition onReading (payload : payload) (a : t) : t :=
  if negb (payload_truthy payload) then a
  else if isGettingDeviceInfoRef a then
    (* Single-read device info mode *)
    let pk :=
      js_or (js_or (match state_of payload with
                    | Some PH_IDLE => prop "pubkey" payload
                    | _ => None
                    end)
                   (prop "publicKey" payload))
            (prop "pubkey" payload) in
    let cid := js_or (prop "chipId" payload) (prop "uid" payload) in
    let gotSomething :=
      (isHex64 pk
       || match cid with
          | Some (JStr s) => negb (str_eqb s [])
          | _ => false
          end)%bool in
    (* Clear failsafe timeout if set *)
    let a := match singleReadTimeoutRef a with
             | Some i => set_singleReadTimeoutRef None (clearTimeout i a)
             | None => a
             end in
    if gotSomething then
      set_isScanning false (stopScan (set_isGettingDeviceInfoRef false a))
    else
      set_error PayloadNotRecognized
        (set_isGettingDeviceInfoRef false (set_isScanning false (stopScan a)))
  else
    (* Signing state machine *)
    match state_of payload with
    | Some (PH_INIT_K | PH_INIT_R | PH_R_WORK | PH_R_DONE | BUSY) =>
        set_statusRef computing a
    | Some PH_DONE =>
        snd (setTimeout StopPowerCycling 1000 (set_statusRef done a))
    | Some PH_IDLE => set_statusRef idle a
    | Some ERROR =>
        let text := match prop "error" payload with
                    | Some v => if truthy v then Some v else None
                    | None => None
                    end in
        stopPowerCycling (set_statusRef idle (set_error (DeviceError text) a))
    | None => a
    end.

(** A call of the application into the hook, as the hook sees it;
    [writeText] does not touch a scan session. *)
Definition to_call (c : hook_call) : list call :=
  match c with
  | StartScan opts => [CallStartScan (Some opts)]
  | StopScan => [CallStopScan]
  | StartSingleRead timeoutMs => [CallStartSingleRead (Some timeoutMs)]
  | WriteText _ => []
  end.

(** What [onReading] does to the hook: the calls it makes; it does not
    throw. *)
Definition reaction_to (payload : payload) (a : t) : reaction :=
  {| makes := flat_map to_call
                (skipn (List.length (calls a)) (calls (onReading payload a)));
     throws := None |}.

(** The application as a consumer of the hook while it is in the state
    [a]; its [onError] shows the error and calls nothing. *)
Definition consumer (a : t) : Consumer :=
  Build_Consumer (fun _ payload _ => reaction_to payload a)
                 (fun _ _ => no_reaction).

(** The timer [i] fires. *)
Definition fire (i : nat) (a : t) : option (run t wait unit) :=
  match find (fun x => Nat.eqb (fst (fst x)) i) (timers a) with
  | Some (_, RunCycles, _) => Some (runCycles (clearTimeout i a))
  | Some (_, DeviceInfoFailsafe, _) =>
      Some (Done (deviceInfoFailsafe (clearTimeout i a)) (ok tt))
  | Some (_, StopPowerCycling, _) =>
      Some (Done (stopPowerCycling (clearTimeout i a)) (ok tt))
  | None => None
  end.

(** The supervisor's loop: a call of [runCycles] runs to completion, and
    when it has scheduled the next one the timer fires and [runCycles] runs
    again; the loop is over when no call is scheduled. *)
Definition next_cycle (a : t) : option nat :=
  match find (fun x => match snd (fst x) with
                       | RunCycles => true
                       | DeviceInfoFailsafe | StopPowerCycling => false
                       end) (timers a) with
  | Some (i, _, _) => Some i
  | None => None
  end.

Inductive cycles (rely : t -> t -> Prop)
  (allowed : wait -> result unit -> Prop) : t -> t -> Prop :=
| cycles_end a a1 res :
    completes rely allowed (runCycles a) a1 res ->
    next_cycle a1 = None ->
    cycles rely allowed a a1
| cycles_next a a1 res a2 i af :
    completes rely allowed (runCycles a) a1 res ->
    rely a1 a2 ->
    next_cycle a2 = Some i ->
    cycles rely allowed (clearTimeout i a2) af ->
    cycles rely allowed a af.

(** The state in which [startPowerCycling] makes its first call of
    [runCycles]. *)
Definition started (a : t) : t :=
  set_powerCycleIntervalRef StopHandle
    (set_shouldContinue true (set_cycleCount 0 a)).

(** A run of the supervisor from [startPowerCycling] to its end. *)
Definition supervised rely allowed (a af : t) : Prop :=
  cycles rely allowed (started a) af.

(** The same with nothing else running and every promise settling as
    listed, one list per call of [runCycles]. *)
Fixpoint supervise (ins : list (list (result unit))) (a : t) : option t :=
  match ins with
  | [] => None
  | l :: ins' =>
      match feed l (runCycles a) with
      | Some (a1, _) =>
          match next_cycle a1 with
          | Some i => supervise ins' (clearTimeout i a1)
          | None => Some a1
          end
      | None => None
      end
  end.

(** The application when signing has written its message and is about to
    call [startPowerCycling]. *)
Definition signing : t :=
  Make computing NoError true false false None NoHandle 0 true [] 0 [].

End App.

(* ================================================================== *)
(** * A platform, to run the model *)
(* ================================================================== *)

Module Sample.

(** The UTF-8 decoder of the Encoding Standard, which [new TextDecoder()]
    makes: not fatal, so a malformed sequence decodes to U+FFFD and
    nothing throws, and a byte order mark at the start is dropped. *)
Definition REPLACEMENT : cu := 65533%N.

(** The UTF-16 code units of a code point. *)
Definition utf16 (c : N) : jstring :=
  if (c <? 65536)%N then [c]
  else [(55296 + (c - 65536) / 1024)%N; (56320 + (c - 65536) mod 1024)%N].

(** A sequence that has begun: the code point so far, the bytes still
    needed, and the bounds of the next byte. *)
Record pending := {
  point : N;
  needed : nat;
  lower : N;
  upper : N
}.

(** A byte when no sequence has begun. *)
Definition lead (b : N) : jstring + pending :=
  (if b <=? 127 then inl [b]
   else if between 194 223 b then
     inr {| point := N.land b 31; needed := 1; lower := 128; upper := 191 |}
   else if between 224 239 b then
     inr {| point := N.land b 15; needed := 2;
            lower := if b =? 224 then 160 else 128;
            upper := if b =? 237 then 159 else 191 |}
   else if between 240 244 b then
     inr {| point := N.land b 7; needed := 3;
            lower := if b =? 240 then 144 else 128;
            upper := if b =? 244 then 143 else 191 |}
   else inl [REPLACEMENT])%N.

Fixpoint utf8 (p : option pending) (bytes : list N) : jstring :=
  match bytes with
  | [] => match p with
          | Some _ => [REPLACEMENT]
          | None => []
          end
  | b :: bytes' =>
      let fresh :=
        match lead b with
        | inl out => out ++ utf8 None bytes'
        | inr q => utf8 (Some q) bytes'
        end in
      match p with
      | None => fresh
      | Some q =>
          if between (lower q) (upper q) b then
            let c := (point q * 64 + N.land b 63)%N in
            match needed q with
            | S (S n) =>
                utf8 (Some {| point := c; needed := S n; lower := 128%N;
                              upper := 191%N |}) bytes'
            | _ => utf16 c ++ utf8 None bytes'
            end
          else REPLACEMENT :: fresh
      end
  end.

Definition decode (d : list N) : jstring :=
  match utf8 None d with
  | 65279%N :: text => text
  | text => text
  end.

(** A parser that knows the empty object and the empty array. *)
Definition JSON_parse (text : jstring) : result json :=
  if str_eqb (trim text) (lit "{}") then ok (JObj [])
  else if str_eqb (trim text) (lit "[]") then ok (JArr [])
  else throw SyntaxError.

Definition quoted (s : jstring) : jstring := 34%N :: s ++ [34%N].
Definition member (key : string) (v : jstring) : jstring :=
  quoted (lit key) ++ lit ":" ++ v.
Definition object (members : list jstring) : jstring :=
  lit "{" ++ join (lit ",") members ++ lit "}".
Definition array (items : list jstring) : jstring :=
  lit "[" ++ join (lit ",") items ++ lit "]".
Definition optional {A} (key : string) (show : A -> jstring) (v : option A)
  : list jstring :=
  match v with
  | Some x => [member key (show x)]
  | None => []
  end.

Definition show_Z (z : Z) : jstring := lit (NilZero.string_of_int (Z.to_int z)).

(** Integers print in decimal; other numbers print as [null] here. *)
Definition show_number (x : float) : jstring :=
  match Prim2SF x with
  | S754_zero _ => lit "0"
  | S754_finite sg m e =>
      let n := if sg then Z.neg m else Z.pos m in
      if 0 <=? e then show_Z (n * 2 ^ e)
      else if (Z.pos m) mod 2 ^ (- e) =? 0 then show_Z (n / 2 ^ (- e))
      else lit "null"
  | _ => lit "null"
  end.

Fixpoint show_json (v : json) : jstring :=
  match v with
  | JNull => lit "null"
  | JBool true => lit "true"
  | JBool false => lit "false"
  | JNum x => show_number x
  | JStr s => quoted s
  | JArr l => array (map show_json l)
  | JObj l =>
      object (map (fun kv => quoted (fst kv) ++ lit ":"
                             ++ show_json (snd kv)) l)
  end.

Definition JSON_stringify (p : payload) : jstring :=
  match p with
  | PJson v => show_json v
  | PStatus s =>
      object ([member "state" (quoted (State_name (Status.state s)))]
              ++ optional "error" quoted (Status.error s)
              ++ optional "stepsRemaining" show_number (Status.stepsRemaining s)
              ++ optional "progress" show_number (Status.progress s)
              ++ optional "stepsTotal" show_number (Status.stepsTotal s)
              ++ optional "signature" quoted (Status.signature s)
              ++ optional "pubkey" quoted (Status.pubkey s))
  | PText t =>
      object (optional "rawText" quoted (rawText t)
              ++ optional "publicKey" quoted (publicKey t)
              ++ optional "chipId" quoted (chipId t))
  end.

Definition show_shape (x : shape) : jstring :=
  let '(t, m, i, len) := x in
  object ([member "t" (quoted t)] ++ optional "m" quoted m
          ++ optional "id" quoted i
          ++ [member "len" (show_Z (Z.of_nat len))]).

Definition JSON_stringify_shapes (l : list shape) : jstring :=
  array (map show_shape l).

(** A reading event with one text record. *)
Definition text_event (s : string) : Event :=
  {| serialNumber := Some (lit "04:a1:b2:c3");
     records := Some [ {| recordType := lit "text"; mediaType := None;
                          id := None; data := Some (Bytes (lit s)) |} ] |}.

(** A text of 128 hexadecimal digits, and its first half. *)
Definition hex128 : jstring :=
  let quarter := lit "0123456789abcdef0123456789ABCDEF" in
  quarter ++ quarter ++ quarter ++ quarter.
Definition hex64 : jstring := firstn 64 hex128.

(** The platform of the examples. *)
Definition platform : Platform :=
  Build_Platform decode JSON_parse JSON_stringify_shapes JSON_stringify.

(** A consumer whose callbacks take what they are given and do nothing
    to the hook. *)
Definition consumer : Consumer :=
  Build_Consumer (fun _ _ _ => no_reaction) (fun _ _ => no_reaction).

(** The events of a page on that platform, with that consumer. *)
Definition run_events (es : list event) (s : sys) : option sys :=
  steps (PF := platform) (CB := consumer) es s.

End Sample.

(* ================================================================== *)
(** * Notions the statements use *)
(* ================================================================== *)

(** The progress reported for an integer count of remaining steps. *)
Definition progress_at (n : Z) : float :=
  progress (progressFromRemaining (of_Z n)).

Section Absent.

(** A class of code units none of which occurs in the text. *)
Variable p : cu -> bool.

Definition free (l : jstring) : Prop := Forall (fun c => p c = false) l.

(** Patterns every match of which consumes a code unit of the class. *)
Inductive needs : re -> Prop :=
| needs_chr q : (forall c, q c = true -> p c = true) -> needs (Chr q)
| needs_seq_l r1 r2 : needs r1 -> needs (Seq r1 r2)
| needs_seq_r r1 r2 : needs r2 -> needs (Seq r1 r2)
| needs_alt r1 r2 : needs r1 -> needs r2 -> needs (Alt r1 r2)
| needs_group i r : needs r -> needs (Group i r).

End Absent.

(** A text of hexadecimal digits. *)
Definition all_hex (t : jstring) : Prop :=
  Forall (fun c => is_hex c = true) t.

(** The decoder pipeline on one text: the status decoder, then the
    adjustments of the frame extractor. *)
Definition decode_frame (text : jstring) : option Status.t :=
  option_map backfill (parseEdSignTextStatus text).

Section RunRel.

Variables (St Wt : Type).

(** A relation between the state a piece of code is given and a state it
    hands back. *)
Variable R : St -> St -> Prop.

(** Whatever the state a call is started or resumed in, the state it
    suspends or finishes in is related to it. *)
Fixpoint run_rel {A} (s0 : St) (r : run St Wt A) : Prop :=
  match r with
  | Done s _ => R s0 s
  | Await s _ k => R s0 s /\ forall res s', run_rel s' (k res s')
  end.

Definition async_rel {A} (m : async St Wt A) : Prop :=
  forall s, run_rel s (m s).

End RunRel.

Section Listener.

Context {PF : Platform}.

(** The payload a reading event hands to the emitter, if it has one. *)
Definition fruitful (ev : Event) : option payload :=
  match snd (tryParseFromEvent ev []) with
  | inr (Some p) => if payload_truthy p then Some p else None
  | _ => None
  end.

(** The payload a reading event makes the emitter pass on: one it hands
    over whose serialization differs from the stored one. *)
Definition emitted (ev : Event) (w : world) : option payload :=
  match fruitful ev with
  | Some p =>
      if str_eqb (JSON_stringify p) (lastPayloadRef (refs w)) then None
      else Some p
  | None => None
  end.

End Listener.

(** A session in which the tag reports the same status twice, at 1000 and
    at 2000 ms: the scan starts, the first reading is emitted and followed
    by its rescan, and the second reading arrives. *)
Definition repeated_status : list event :=
  [Call (CallStartScan None); Advance 50; Settle 0 (ok tt); Settle 0 (ok tt);
   Advance 1000; Reading (Sample.text_event "R:i=128");
   Advance 1150; Timeout 2; Advance 1200; Settle 0 (ok tt); Settle 0 (ok tt);
   Advance 2000; Reading (Sample.text_event "R:i=128")].

(** The emitter has nothing stored: the next payload handed to it is
    passed on. *)
Definition blank (w : world) : Prop := lastPayloadRef (refs w) = [].

(** A piece of code that does not write over a blank [lastPayloadRef]. *)
Definition keeps_blank (a b : world) : Prop := blank a -> blank b.

(** Every call in flight keeps a blank [lastPayloadRef] blank. *)
Definition tasks_keep_blank (ts : list task) : Prop :=
  Forall (fun t => forall res w, run_rel keeps_blank w (k t res w)) ts.

(** The calls that begin a session. *)
Definition starts_session (c : call) : Prop :=
  match c with
  | CallStartScan _ | CallStartSingleRead _ => True
  | CallStopScan | CallDispose _ => False
  end.

(** The state a call reaches before it first gives way. *)
Definition first_state {St Wt A} (r : run St Wt A) : St :=
  match r with
  | Done s _ => s
  | Await s _ _ => s
  end.

Section Sessions.

Context {PF : Platform} {CB : Consumer}.

(** An event that is not a reading with a payload for the emitter. *)
Definition quiet (e : event) : Prop :=
  match e with
  | Reading ev => fruitful ev = None
  | _ => True
  end.

(** The states of the page: those some sequence of events leads to from
    the mounted hook. *)
Definition reachable (s : sys) : Prop :=
  exists supported t0 es, steps es (mounted supported t0) = Some s.

End Sessions.

(** The promises of the hook settle without the scan being refused: a
    [sleep] resolves, and [reader.scan] does anything but reject with
    [NotAllowedError]. *)
Definition scan_not_refused (on : wait) (res : result unit) : Prop :=
  match on with
  | Sleep _ => res = ok tt
  | Scan _ => res <> inl NotAllowedError
  end.

(** Whatever else runs meanwhile, the browser keeps supporting Web NFC. *)
Definition still_supported (_ w : world) : Prop :=
  isSupported (env w) = true.

(** A scan session with no tag in range, on the default options: the scan
    starts at 50 ms, the ticks at 1050 to 4050 ms each restart it, the tick
    at 5050 ms finds the session stale and begins a deep reset, whose pause
    lasts until 6850 ms, and the next tick comes at 6050 ms. *)
Definition light_rescan (t : Z) : list event :=
  [Advance t; Tick 1; Advance (t + 50); Settle 0 (ok tt); Settle 0 (ok tt)].

Definition no_tag_session : list event :=
  [Call (CallStartScan None); Advance 50; Settle 0 (ok tt); Settle 0 (ok tt)]
  ++ light_rescan 1050 ++ light_rescan 2050 ++ light_rescan 3050
  ++ light_rescan 4050
  ++ [Advance 5050; Tick 1; Advance 6050; Tick 1].

(** What is in flight: what each suspended call waits for, and until
    when. *)
Definition in_flight (s : sys) : list (wait * Z) :=
  map (fun t => (on t, due t)) (tasks s).

Definition count_deep_resets (s : sys) : nat :=
  List.length
    (filter (fun l => match l with LogDeepReset => true | _ => false end)
            (console (env (W s)))).

(** While the supervisor is suspended the rest of the application leaves
    it alone: the status stays ["computing"], nobody cancels, and the
    supervisor's variables, its timer and its record of calls are not
    touched. *)
Definition undisturbed (a a' : App.t) : Prop :=
  App.statusRef a' = App.computing
  /\ App.cycleCount a' = App.cycleCount a
  /\ App.shouldContinue a' = App.shouldContinue a
  /\ App.powerCycleIntervalRef a' = App.powerCycleIntervalRef a
  /\ App.timers a' = App.timers a
  /\ App.nextTimer a' = App.nextTimer a
  /\ App.calls a' = App.calls a.

(** Every promise the supervisor awaits resolves: both scans of every
    cycle start. *)
Definition all_resolve (_ : App.wait) (res : result unit) : Prop :=
  res = ok tt.

(** The calls one cycle makes into the hook. *)
Definition cycle_calls : list App.hook_call :=
  [App.StartScan App.cycleOpts; App.StopScan;
   App.StartScan App.cycleOpts; App.StopScan].

(** The state a sequence of events leads to. *)
Definition the_state (o : option sys) : sys :=
  match o with
  | Some s => s
  | None => mounted false 0
  end.

(** The world of the session without a tag when its clock reads 5050 ms,
    before the tick. *)
Definition stale_world : world :=
  W (the_state (Sample.run_events (firstn 25 no_tag_session)
                                  (mounted true 0))).

(** A first session: one status is read and passed on, the rescan after it
    completes, and the consumer stops the scan at 3000 ms. *)
Definition first_session : list event :=
  [Call (CallStartScan None); Advance 50; Settle 0 (ok tt); Settle 0 (ok tt);
   Advance 1000; Reading (Sample.text_event "R:i=128");
   Advance 1150; Timeout 2; Advance 1200; Settle 0 (ok tt); Settle 0 (ok tt);
   Advance 3000; Call CallStopScan].

(** The second session up to its first reading: its scan starts. *)
Definition second_session_start : list event :=
  [Advance 3050; Settle 0 (ok tt); Settle 0 (ok tt); Advance 4000].

(** The status the text ["R:i=128"] decodes to. *)
Definition status_128 : payload :=
  PStatus (Status.Make PH_R_WORK None (Some 52%float) (Some 128%float)
                       (Some 255%float) None None).

(* ================================================================== *)
(** * Matching, declaratively *)
(* ================================================================== *)

(** The matcher states a pattern can lead to from a given one: what the
    backtracking matcher explores.  Each round of a [*] moves the cursor,
    and a group records where it began and ended. *)
Inductive matches : re -> mstate -> mstate -> Prop :=
| matches_eps s : matches Eps s s
| matches_chr p s c tl :
    rest s = c :: tl -> p c = true ->
    matches (Chr p) s (MState (Some c) tl (S (pos s)) (caps s))
| matches_seq r1 r2 s s1 s2 :
    matches r1 s s1 -> matches r2 s1 s2 -> matches (Seq r1 r2) s s2
| matches_alt_l r1 r2 s s1 : matches r1 s s1 -> matches (Alt r1 r2) s s1
| matches_alt_r r1 r2 s s1 : matches r2 s s1 -> matches (Alt r1 r2) s s1
| matches_star_end r s : matches (Star r) s s
| matches_star_more r s s1 s2 :
    matches r s s1 -> (pos s < pos s1)%nat -> matches (Star r) s1 s2 ->
    matches (Star r) s s2
| matches_group i r s s1 :
    matches r s s1 ->
    matches (Group i r) s
      (MState (prev s1) (rest s1) (pos s1) ((i, (pos s, pos s1)) :: caps s1))
| matches_bol s : prev s = None -> matches Bol s s
| matches_eol s : rest s = [] -> matches Eol s s
| matches_wordb s :
    xorb (word_before s) (word_after s) = true -> matches WordB s s.

(** A pattern all of whose character tests lie within the class [p]. *)
Fixpoint units_in (p : cu -> bool) (r : re) : Prop :=
  match r with
  | Chr q => forall c, q c = true -> p c = true
  | Seq r1 r2 | Alt r1 r2 => units_in p r1 /\ units_in p r2
  | Star r1 | Group _ r1 => units_in p r1
  | Eps | Bol | Eol | WordB => True
  end.

(** The code unit before the cursor once [pre] has been passed. *)
Definition prev_after (p : option cu) (pre : jstring) : option cu :=
  fold_left (fun _ c => Some c) pre p.

(** A text of white space, and one of decimal digits. *)
Definition all_space (t : jstring) : Prop :=
  Forall (fun c => is_space c = true) t.

Definition all_digits (t : jstring) : Prop :=
  Forall (fun c => is_digit c = true) t.

(** A text without white space. *)
Definition no_space (t : jstring) : Prop :=
  Forall (fun c => is_space c = false) t.

(** The code units of ["R:i="] and the digits: none of the letters that
    the patterns tried before the canonical one need. *)
Definition frame_unit (c : cu) : bool :=
  (is_digit c || existsb (cu_eqb c) (lit "R:i="))%bool.

(** The matcher's view of the text [t]: its rest is what follows its
    cursor. *)
Definition at_text (t : jstring) (s : mstate) : Prop :=
  rest s = skipn (pos s) t.

(** The declared type [EdSignStatus], variant by variant, with what the
    decoder guarantees about the values: the error text is the trimmed
    text [t]; a step count is the value of a run of digits; a signature
    has 128 hexadecimal digits and a public key 64. *)
Definition well_formed (t : jstring) (s : Status.t) : Prop :=
  match Status.state s with
  | ERROR => s = Status.Make ERROR (Some t) None None None None None
  | PH_INIT_K | PH_INIT_R =>
      s = Status.Make (Status.state s) None (Some INIT_PROGRESS) None None
                      None None
  | PH_R_WORK =>
      s = Status.only PH_R_WORK
      \/ exists d, d <> [] /\ all_digits d
                   /\ s = Status.Make PH_R_WORK None None
                                      (Some (Number_of_digits d)) None None None
  | PH_R_DONE | BUSY => s = Status.only (Status.state s)
  | PH_DONE =>
      exists sig,
        s = Status.Make PH_DONE None (Some 100%float) None None sig None
        /\ forall h, sig = Some h -> List.length h = 128%nat /\ all_hex h
  | PH_IDLE =>
      s = Status.Make PH_IDLE None None None None None (Some t)
      /\ List.length t = 64%nat /\ all_hex t
  end.

(** A text that neither begins nor ends with white space. *)
Definition trimmed (x : jstring) : Prop :=
  (forall c r, x = c :: r -> is_space c = false)
  /\ (forall c r, rev x = c :: r -> is_space c = false).

Section ExtractorNotions.

Context {PF : Platform}.

(** The records the frame extractor can take anything from: text records
    and records of a JSON media type, when their data decodes to some
    text. *)
Definition relevant (r : NDEFRecord) : bool :=
  ((is_text r || is_json_media r)
   && negb (str_eqb (safeDecode (data r)) []))%bool.

(** An event with the same tag and other records. *)
Definition with_records (ev : Event) (rs : list NDEFRecord) : Event :=
  {| serialNumber := serialNumber ev; records := Some rs |}.

End ExtractorNotions.

Section EmitterNotions.

Context {PF : Platform} {CB : Consumer}.

(** The emitter handed one payload after another, all of one tag. *)
Definition emit_all (tag : option jstring) (ps : list payload) (s : sys)
  : sys :=
  fold_left (fun s p => fst (emitIfChanged tag p s)) ps s.

(** The payloads of a sequence whose serialization differs from that of
    the one before; [last] is the serialization before the first. *)
Fixpoint coalesce (last : jstring) (ps : list payload) : list payload :=
  match ps with
  | [] => []
  | p :: ps' =>
      if str_eqb (JSON_stringify p) last then coalesce last ps'
      else p :: coalesce (JSON_stringify p) ps'
  end.

(** The serialization of the last payload of a sequence. *)
Definition last_serialized (last : jstring) (ps : list payload) : jstring :=
  fold_left (fun _ p => JSON_stringify p) ps last.

End EmitterNotions.

(** A callback that begins no session: it calls neither [startScan] nor
    [startSingleRead]. *)
Definition starts_no_session (r : reaction) : Prop :=
  Forall (fun c => ~ starts_session c) (makes r).

(** The stored serialization and the record of the calls through
    [onReadingRef] are as they were. *)
Definition same_delivery (a b : world) : Prop :=
  lastPayloadRef (refs b) = lastPayloadRef (refs a)
  /\ readings (env b) = readings (env a).

(** A status as a payload, and four of them in a row: one, the same again,
    another, and the first once more. *)
Definition status_busy : payload := PStatus (Status.only BUSY).

Definition four_statuses : list payload :=
  [status_128; status_128; status_busy; status_128].

(* ================================================================== *)
(** * The reading listener, piece by piece *)
(* ================================================================== *)

Section ListenerNotions.

Context {PF : Platform} {CB : Consumer}.

(** The world a reading event is parsed in: its line is on the console. *)
Definition heard (w : world) : world := log LogReadingReceived w.

(** The world in which the consumer's [onReading] runs when the emitter
    passes the payload [p] on: the serialization and the time are stored
    and the call is on record. *)
Definition emission (tagId : option jstring) (p : payload) (w : world)
  : world :=
  set_readings (readings (env w) ++ [(tagId, p)])
    (set_lastUpdateTsRef (clock (env w))
       (set_lastPayloadRef (JSON_stringify p) w)).

(** The world in which the emitter is called for the payload [p] of the
    event [ev]. *)
Definition parsed_in (ev : Event) (p : payload) (w : world) : world :=
  log (LogParsedResult (Some p))
    (set_lastHashRef
       (fst (tryParseFromEvent ev (lastHashRef (refs (heard w)))))
       (heard w)).

(** The last statement of the listener's [try] block: the rescan after a
    reading, unless the hook is in single-shot mode. *)
Definition scheduleRescan (s : sys) : sys :=
  if negb (suppressRescanRef (refs (W s))) then
    Sys (snd (setTimeout RescanAfterReading RESCAN_AFTER_READING_MS (W s)))
        (tasks s)
  else s.

(** The listener from the return of the consumer's callback on. *)
Definition afterCallback (x : sys * result unit) : sys :=
  match snd x with
  | inl e => readingFailed e (fst x)
  | inr _ => scheduleRescan (fst x)
  end.

End ListenerNotions.

(** Any call of the consumer. *)
Definition any_call (_ : call) : Prop := True.

(** The emitter's timestamp and the record of the calls through
    [onReadingRef] are as they were. *)
Definition same_emission (a b : world) : Prop :=
  lastUpdateTsRef (refs b) = lastUpdateTsRef (refs a)
  /\ readings (env b) = readings (env a).

(** The world differs in what the console shows and in the record-shape
    hash at most. *)
Definition same_but_log (a b : world) : Prop :=
  exists c h, b = set_console c (set_lastHashRef h a).

(* ================================================================== *)
(** * Properties every state of the page has *)
(* ================================================================== *)

(** Code that, given a world with the property [P], hands back one with
    it. *)
Definition keeps (P : world -> Prop) (a b : world) : Prop := P a -> P b.

(** Every call in flight, whenever it is resumed, hands back worlds in the
    relation [R] with the one it is resumed in. *)
Definition tasks_rel (R : world -> world -> Prop) (ts : list task) : Prop :=
  Forall (fun t => forall res w, run_rel R w (k t res w)) ts.

(** An option that, when it is given, is a number and not [NaN]. *)
Definition a_number (x : option float) : Prop :=
  match x with
  | Some v => is_nan v = false
  | None => True
  end.

(** A call whose options are numbers. *)
Definition numeric (c : call) : Prop :=
  match c with
  | CallStartScan (Some o) =>
      a_number (pollMs o) /\ a_number (deepResetEveryMs o)
      /\ a_number (deepResetPauseMs o) /\ a_number (staleAfterMs o)
  | _ => True
  end.

(** An event that, when it is a call of the consumer, is one of the calls
    [fine]. *)
Definition calls_are (fine : call -> Prop) (e : event) : Prop :=
  match e with
  | Call c => fine c
  | _ => True
  end.

Section ConsumerNotions.

Context {CB : Consumer}.

(** The calls that the consumer's callbacks make are all [fine]. *)
Definition reacts_with (fine : call -> Prop) : Prop :=
  (forall tag p w, Forall fine (makes (onReading tag p w)))
  /\ (forall e w, Forall fine (makes (onError e w))).

(** The consumer's [onReading] returns: it does not throw. *)
Definition onReading_returns : Prop :=
  forall tag p w, throws (onReading tag p w) = None.

End ConsumerNotions.

(** The timing parameters are at or above their floors. *)
Definition floors (w : world) : Prop :=
  (250 <=? pollingMsRef (refs w))%float = true
  /\ (3000 <=? deepEveryRef (refs w))%float = true
  /\ (500 <=? deepPauseRef (refs w))%float = true
  /\ (2000 <=? staleAfterRef (refs w))%float = true.

(** The hook has no poll timer, or the one that [scanIntervalRef] names
    and no other. *)
Definition one_interval (w : world) : Prop :=
  match scanIntervalRef (refs w) with
  | Some i => exists period last, intervals (env w) = [(i, period, last)]
  | None => intervals (env w) = []
  end.

(** [onError] has not been called. *)
Definition no_errors (w : world) : Prop := errors (env w) = [].

(** Between the two worlds nothing was passed to [onError] and no timer
    was armed. *)
Definition reported_nothing (a b : world) : Prop :=
  errors (env b) = errors (env a)
  /\ incl (timeouts (env b)) (timeouts (env a)).

(** A consumer whose [onReading] throws a [TypeError]. *)
Definition throwing : Consumer :=
  Build_Consumer
    (fun _ _ _ => {| makes := []; throws := Some TypeError |})
    (fun _ _ => no_reaction).

(** A scan starts and a tag is read. *)
Definition first_reading : list event :=
  [Call (CallStartScan None); Advance 50; Settle 0 (ok tt); Settle 0 (ok tt);
   Advance 1000; Reading (Sample.text_event "R:i=128")].

(** An event that is not a reading without a records array. *)
Definition has_records (e : event) : Prop :=
  match e with
  | Reading ev => records ev <> None
  | _ => True
  end.

(** Options whose poll period is [NaN]. *)
Definition nan_poll : StartOpts :=
  {| pollMs := Some nan; deepResetEveryMs := None;
     deepResetPauseMs := None; staleAfterMs := None |}.

(** A scan started twice: the consumer starts a scan on the default
    options, the scan starts, and at 1000 ms the consumer starts it again
    with the options of the power-cycle supervisor; that scan starts
    too. *)
Definition restarted_scan : list event :=
  [Call (CallStartScan None); Advance 50; Settle 0 (ok tt); Settle 0 (ok tt);
   Advance 1000; Call (CallStartScan (Some App.cycleOpts));
   Advance 1050; Settle 0 (ok tt); Settle 0 (ok tt)].

(** How the promises the hook awaits can settle at all: a [sleep] always
    resolves; [reader.scan] may do anything. *)
Definition sleep_resolves (on : wait) (res : result unit) : Prop :=
  match on with
  | Sleep _ => res = ok tt
  | Scan _ => True
  end.

(** Anything may run while a call is suspended. *)
Definition any_change (_ _ : world) : Prop := True.

(** A session in which a reading arrives at 1000 ms and the consumer
    stops the scan at 1100 ms, before the rescan that the reading
    scheduled for 1150 ms. *)
Definition stopped_after_reading : list event :=
  [Call (CallStartScan None); Advance 50; Settle 0 (ok tt); Settle 0 (ok tt);
   Advance 1000; Reading (Sample.text_event "R:i=128");
   Advance 1100; Call CallStopScan;
   Advance 1150; Timeout 2; Advance 1200; Settle 0 (ok tt); Settle 0 (ok tt)].

(* ================================================================== *)
(** * The application: signing, cancelling, the debug log *)
(* ================================================================== *)

Section Drive.

Variables (St Wt : Type).

(** A call run to its end with other code running in between: at each
    [await] the listed code runs on the state, and then the promise
    settles as listed; [None] when the list ends before the call does. *)
Fixpoint drive {A} (l : list ((St -> St) * result unit)) (r : run St Wt A)
  : option (St * result A) :=
  match r, l with
  | Done s res, _ => Some (s, res)
  | Await s on k, (f, res) :: l' => drive l' (k res (f s))
  | Await _ _ _, [] => None
  end.

End Drive.

Module AppFlows.

(** [handleSign], for the [message] of the text area.  The fields it
    resets are display fields, which [App.t] leaves out.
    [startPowerCycling] is called and not awaited: it runs to its first
    [await] within [handleSign], and the value here is that call in
    flight; [None] stands for the returns without a value. *)
Definition handleSign (message : jstring)
  : async App.t App.wait (option (run App.t App.wait unit)) :=
  fun a =>
  if str_eqb (trim message) [] then Done a (ok None)
  else
    catch
      (exec_ (App.set_error App.NoError) ;;
       exec_ (App.set_statusRef App.writing) ;;
       exec_ (fun a => App.set_calls
                         (App.calls a ++ [App.WriteText message]) a) ;;
       await App.HookWriteText ;;
       exec_ (App.set_statusRef App.computing) ;;
       exec_ (App.set_isScanning true) ;;
       await (App.Delay 100) ;;
       (fun a => let r := App.startPowerCycling a in
                 Done (first_state r) (ok (Some r))))
      (fun e =>
         exec_ (App.set_error (App.Failed e)) ;;
         exec_ (App.set_statusRef App.idle) ;;
         ret None) a.

(** The cleanup of the effect that runs when the component unmounts. *)
Definition unmount (a : App.t) : App.t :=
  let a := App.stopPowerCycling a in
  match App.singleReadTimeoutRef a with
  | Some i => App.set_singleReadTimeoutRef None (App.clearTimeout i a)
  | None => a
  end.

(** [Array.prototype.slice(-n)]: the last [n] elements, or all of them. *)
Definition slice_last {A} (n : nat) (l : list A) : list A :=
  skipn (List.length l - n) l.

(** The line [`[${timestamp}] ${msg}`]. *)
Definition stamped (e : jstring * jstring) : jstring :=
  lit "[" ++ fst e ++ lit "] " ++ snd e.

(** [addDebugLog]: the updater it hands to [setDebugLogs], for the time
    string [timestamp] that [toLocaleTimeString] gave. *)
Definition addDebugLog (timestamp msg : jstring) (prev : list jstring)
  : list jstring :=
  slice_last 15 prev ++ [stamped (timestamp, msg)].

(** The log after a sequence of calls, each with its time string. *)
Definition logged (entries : list (jstring * jstring)) (prev : list jstring)
  : list jstring :=
  fold_left (fun l e => addDebugLog (fst e) (snd e) l) entries prev.

(** What runs between the awaits of one cycle: nothing, but for [f]
    during the wait of 20 s after the first scan has started; every
    promise resolves. *)
Definition during_power_phase (f : App.t -> App.t)
  : list ((App.t -> App.t) * result unit) :=
  [(fun a => a, ok tt); (f, ok tt); (fun a => a, ok tt); (fun a => a, ok tt);
   (fun a => a, ok tt); (fun a => a, ok tt)].

(** The payload tells of a signature that is being computed: the states
    for which [onReading] sets the status to computing. *)
Definition working (p : payload) : bool :=
  match state_of p with
  | Some (PH_INIT_K | PH_INIT_R | PH_R_WORK | PH_R_DONE | BUSY) => true
  | _ => false
  end.

(** What runs between the awaits of one cycle when the user cancels during
    the wait of 20 s and the hook hands the payload [p] to [onReading]
    during the 2 s of the second scan; every promise resolves. *)
Definition cancelled_then_read (p : payload)
  : list ((App.t -> App.t) * result unit) :=
  [(fun a => a, ok tt); (App.cancelOperation, ok tt); (fun a => a, ok tt);
   (fun a => a, ok tt); (App.onReading p, ok tt); (fun a => a, ok tt)].

(** The application when the timer of its second cycle has fired: the
    first cycle ran with every promise resolving. *)
Definition second_cycle : App.t :=
  match feed [ok tt; ok tt; ok tt; ok tt; ok tt; ok tt]
             (App.runCycles (App.started App.signing)) with
  | Some (a1, _) => App.clearTimeout 0 a1
  | None => App.signing
  end.

End AppFlows.

(** While the supervisor is suspended nothing else writes its cycle
    counter, a variable only [doCycle] can see. *)
Definition count_untouched (a a' : App.t) : Prop :=
  App.cycleCount a' = App.cycleCount a.

(** A promise the application awaits may settle either way. *)
Definition any_outcome (_ : App.wait) (_ : result unit) : Prop := True.

(** The cycle counter is within the limit. *)
Definition within_limit (a : App.t) : Prop :=
  (App.cycleCount a <= App.maxCycles)%nat.

(** Code of the application that keeps the counter within the limit. *)
Definition keeps_limit (a b : App.t) : Prop :=
  within_limit a -> within_limit b.

(* ================================================================== *)
(** * The single read *)
(* ================================================================== *)








(** The timers of the application have identifiers below the next one to
    be given out. *)
Definition timers_fresh (a : App.t) : Prop :=
  Forall (fun x => (fst (fst x) < App.nextTimer a)%nat) (App.timers a).
(* ================================================================== *)
(** * Progress mapper: properties *)
(* ================================================================== *)

Section RangeChecks.

Variable bound : nat.

(** A property of the integers below [bound] that holds by running it on
    each of them. *)
Lemma range_check (P : Z -> bool) :
  forallb (fun k => P (Z.of_nat k)) (seq 0 bound) = true ->
  forall n, 0 <= n < Z.of_nat bound -> P n = true.
Proof.
  intros Hall n Hn.
  rewrite forallb_forall in Hall.
  rewrite <- (Z2Nat.id n) by lia.
  apply Hall, in_seq. lia.
Qed.

Lemma range_check2 (P : Z -> Z -> bool) :
  forallb (fun a => forallb (fun b => P (Z.of_nat a) (Z.of_nat b))
                            (seq 0 bound))
          (seq 0 bound) = true ->
  forall n m, 0 <= n < Z.of_nat bound -> 0 <= m < Z.of_nat bound ->
  P n m = true.
Proof.
  intros Hall n m Hn Hm.
  apply (range_check (fun b => P n b)); [|exact Hm].
  apply (range_check
           (fun a => forallb (fun b => P a (Z.of_nat b)) (seq 0 bound)));
    [exact Hall | exact Hn].
Qed.

(** Two functions that agree on each of the integers below [bound]. *)
Lemma range_eq (A : Type) (f g : Z -> A) :
  map (fun k => f (Z.of_nat k)) (seq 0 bound)
  = map (fun k => g (Z.of_nat k)) (seq 0 bound) ->
  forall n, 0 <= n < Z.of_nat bound -> f n = g n.
Proof.
  intros Hall n Hn.
  pose proof (f_equal (fun l => nth_error l (Z.to_nat n)) Hall) as E.
  cbv beta in E.
  rewrite !nth_error_map, nth_error_seq in E.
  destruct (Nat.ltb_spec (Z.to_nat n) bound) as [_|]; [|lia].
  simpl in E. rewrite Z2Nat.id in E by lia.
  now injection E.
Qed.

End RangeChecks.


(** Thirds never fall on a half, so rounding in binary64 agrees with
    rounding the exact quotient. *)
Lemma progress_at_closed_form n :
  0 <= n <= 255 -> progress_at n = of_Z (10 + (256 - n) / 3).
Proof.
  intros Hn.
  apply (@range_eq 256 _ progress_at (fun k => of_Z (10 + (256 - k) / 3)));
    [vm_compute; reflexivity | lia].
Qed.

Lemma stepsTotal_at n : stepsTotal (progressFromRemaining n) = 255%float.
Proof. reflexivity. Qed.

Lemma of_Z_leb_small a b :
  0 <= a <= b -> b < 96 -> PrimFloat.leb (of_Z a) (of_Z b) = true.
Proof.
  intros Hab Hb.
  pose proof (@range_check2 96
    (fun x y => (negb (x <=? y) || PrimFloat.leb (of_Z x) (of_Z y))%bool)) as H.
  specialize (H ltac:(vm_compute; reflexivity) a b ltac:(lia) ltac:(lia)).
  cbv beta in H.
  destruct (Z.leb_spec a b); [exact H | lia].
Qed.

Lemma of_Z_10 : of_Z 10 = 10%float.
Proof. vm_compute. reflexivity. Qed.

Lemma of_Z_95 : of_Z 95 = 95%float.
Proof. vm_compute. reflexivity. Qed.

Lemma progress_at_255 : progress_at 255 = INIT_PROGRESS.
Proof. vm_compute. reflexivity. Qed.

Lemma progress_at_0 : progress_at 0 = R_DONE_PROGRESS.
Proof. vm_compute. reflexivity. Qed.

Lemma thirds_bounds n : 0 <= n <= 255 -> 0 <= (256 - n) / 3 <= 85.
Proof.
  intros Hn. split; [apply Z.div_pos; lia|].
  transitivity (256 / 3); [apply Z.div_le_mono; lia | now vm_compute].
Qed.

Lemma progress_at_antitone n m :
  0 <= n -> n <= m -> m <= 255 ->
  PrimFloat.leb (progress_at m) (progress_at n) = true.
Proof.
  intros Hn Hle Hm.
  rewrite !progress_at_closed_form by lia.
  pose proof (thirds_bounds (n := n)). pose proof (thirds_bounds (n := m)).
  assert ((256 - m) / 3 <= (256 - n) / 3) by (apply Z.div_le_mono; lia).
  apply of_Z_leb_small; lia.
Qed.

(** C4. For every integer [remaining] in [0,255], [progressFromRemaining]
    reports an integral progress between 10 and 95 and a step total of 255;
    the progress never increases when [remaining] grows; 255 remaining steps
    give 10 ([INIT_PROGRESS]) and none give 95 ([R_DONE_PROGRESS]). *)
Theorem progressFromRemaining_spec :
  (forall n, 0 <= n <= 255 ->
     (exists p, progress_at n = of_Z p /\ 10 <= p <= 95)
     /\ PrimFloat.leb 10 (progress_at n) = true
     /\ PrimFloat.leb (progress_at n) 95 = true
     /\ stepsTotal (progressFromRemaining (of_Z n)) = 255%float)
  /\ (forall n m, 0 <= n -> n <= m -> m <= 255 ->
        PrimFloat.leb (progress_at m) (progress_at n) = true)
  /\ progress_at 255 = INIT_PROGRESS
  /\ progress_at 0 = R_DONE_PROGRESS.
Proof.
  split; [|split; [exact progress_at_antitone|]].
  2: { split; [exact progress_at_255 | exact progress_at_0]. }
  intros n Hn.
  pose proof (progress_at_closed_form Hn) as E.
  pose proof (thirds_bounds Hn) as B.
  split; [exists (10 + (256 - n) / 3); split; [exact E | lia]|].
  rewrite E. split; [|split].
  - rewrite <- of_Z_10. apply of_Z_leb_small; lia.
  - rewrite <- of_Z_95. apply of_Z_leb_small; lia.
  - apply stepsTotal_at.
Qed.

(** The theorem at [remaining = 128]: progress 52 of 255 steps. *)
Lemma progressFromRemaining_spec_witness :
  0 <= 128 <= 255
  /\ PrimFloat.leb 10 (progress_at 128) = true
  /\ PrimFloat.leb (progress_at 128) 95 = true.
Proof.
  split; [lia|].
  pose proof (proj1 progressFromRemaining_spec 128 ltac:(lia)) as H.
  split; [exact (proj1 (proj2 H)) | exact (proj1 (proj2 (proj2 H)))].
Defined.

(* ================================================================== *)
(** * Regular expressions: texts a pattern cannot match *)
(* ================================================================== *)

Section Absent.

Variable p : cu -> bool.


(** A continuation that fails on every text free p of the class keeps
    failing behind any pattern: matching only ever shortens the text. *)
Lemma matchk_free_fails r :
  forall s k, free p (rest s) ->
    (forall s', free p (rest s') -> k s' = None) ->
    matchk r s k = None.
Proof.
  induction r as [|q|r1 IH1 r2 IH2|r1 IH1 r2 IH2|r1 IH1|i r1 IH1| | |];
    intros s k Hs Hk; cbn [matchk].
  - apply Hk, Hs.
  - destruct (rest s) as [|c tl] eqn:E; [reflexivity|].
    destruct (q c); [|reflexivity].
    apply Hk. simpl. now inversion Hs.
  - apply IH1; [exact Hs|]. intros s1 H1. apply IH2; assumption.
  - rewrite IH1 by assumption. apply IH2; assumption.
  - generalize (S (List.length (rest s))) as fuel. intros fuel.
    revert s Hs. induction fuel as [|f IHf]; intros s Hs; cbn [star_iter].
    + apply Hk, Hs.
    + rewrite IH1; [apply Hk, Hs | exact Hs |].
      intros s1 H1. destruct (Nat.leb (pos s1) (pos s)); [reflexivity|].
      apply IHf, H1.
  - apply IH1; [exact Hs|]. intros s1 H1. apply Hk. exact H1.
  - destruct (prev s); [reflexivity | apply Hk, Hs].
  - destruct (rest s) eqn:E; [apply Hk; rewrite E; exact Hs | reflexivity].
  - destruct (xorb _ _); [apply Hk, Hs | reflexivity].
Qed.

Lemma matchk_needs_fails r :
  needs p r -> forall s k, free p (rest s) -> matchk r s k = None.
Proof.
  induction 1 as [q Hq|r1 r2 _ IH|r1 r2 _ IH|r1 r2 _ IH1 _ IH2|i r _ IH];
    intros s k Hs; simpl.
  - destruct (rest s) as [|c tl]; [reflexivity|].
    destruct (q c) eqn:E; [|reflexivity].
    apply Hq in E. inversion Hs; congruence.
  - apply IH, Hs.
  - apply matchk_free_fails; [exact Hs|]. intros s1 H1. apply IH, H1.
  - rewrite IH1 by assumption. apply IH2, Hs.
  - apply IH, Hs.
Qed.

Lemma search_needs_fails r :
  needs p r -> forall l pr i, free p l -> search r pr i l = None.
Proof.
  intros Hr l. induction l as [|c l IH]; intros pr i Hl; simpl;
    unfold match_here; rewrite (matchk_needs_fails Hr) by exact Hl;
    [reflexivity|].
  apply IH. now inversion Hl.
Qed.

Lemma test_needs_fails r l : needs p r -> free p l -> test r l = false.
Proof.
  intros Hr Hl. unfold test, exec. now rewrite search_needs_fails.
Qed.

End Absent.

(* ================================================================== *)
(** * Hexadecimal texts *)
(* ================================================================== *)


Lemma ascii_check (P : cu -> bool) :
  forallb (fun k => P (N.of_nat k)) (seq 0 128) = true ->
  forall c, (c < 128)%N -> P c = true.
Proof.
  intros Hall c Hc.
  rewrite forallb_forall in Hall.
  rewrite <- (Nnat.N2Nat.id c). apply Hall, in_seq. lia.
Qed.

Lemma is_hex_ascii c : is_hex c = true -> (c < 128)%N.
Proof.
  unfold is_hex, is_digit, between.
  rewrite !orb_true_iff, !andb_true_iff, !N.leb_le. lia.
Qed.

(** A test that no hexadecimal digit passes, checked on ASCII. *)
Lemma hex_excluded (q : cu -> bool) :
  forallb (fun k => negb (is_hex (N.of_nat k)) || negb (q (N.of_nat k)))%bool
          (seq 0 128) = true ->
  forall c, q c = true -> negb (is_hex c) = true.
Proof.
  intros Hall c Hq.
  destruct (is_hex c) eqn:Hh; [|reflexivity].
  pose proof (ascii_check (fun c => negb (is_hex c) || negb (q c))%bool Hall
                          (is_hex_ascii c Hh)) as H.
  cbv beta in H. now rewrite Hh, Hq in H.
Qed.

Lemma all_hex_free t : all_hex t -> free (fun c => negb (is_hex c)) t.
Proof.
  unfold all_hex, free. intros H.
  eapply Forall_impl; [|exact H]. cbv beta. intros c ->. reflexivity.
Qed.

Lemma hex_not_space c : is_hex c = true -> is_space c = false.
Proof.
  intros Hh.
  pose proof (@hex_excluded is_space ltac:(vm_compute; reflexivity) c) as H.
  destruct (is_space c); [|reflexivity].
  specialize (H eq_refl). now rewrite Hh in H.
Qed.

Lemma trimStart_hex t : all_hex t -> trimStart t = t.
Proof.
  intros H. destruct H as [|c t Hc _]; [reflexivity|].
  simpl. now rewrite (hex_not_space c Hc).
Qed.

Lemma trim_hex t : all_hex t -> trim t = t.
Proof.
  intros H. unfold trim, trimEnd.
  rewrite (trimStart_hex H), trimStart_hex, rev_involutive; [reflexivity|].
  apply Forall_rev, H.
Qed.

(** None of the patterns tried before the length checks can match a text
    of hexadecimal digits: each needs an [r], a [p] or an [R]. *)
Ltac needs_letter :=
  apply needs_chr; apply hex_excluded; vm_compute; reflexivity.

Lemma error_needs_r : needs (fun c => negb (is_hex c)) Pat.error.
Proof. apply needs_seq_l, needs_seq_r, needs_seq_l. needs_letter. Qed.

Lemma init_k_needs_p : needs (fun c => negb (is_hex c)) Pat.init_k.
Proof. apply needs_seq_r, needs_seq_l, needs_seq_l. needs_letter. Qed.

Lemma init_r_needs_p : needs (fun c => negb (is_hex c)) Pat.init_r.
Proof. apply needs_seq_r, needs_seq_l, needs_seq_l. needs_letter. Qed.

Lemma r_work_needs_r : needs (fun c => negb (is_hex c)) Pat.r_work.
Proof. apply needs_seq_l. needs_letter. Qed.

Lemma r_line_needs_r : needs (fun c => negb (is_hex c)) Pat.r_line.
Proof. apply needs_seq_r, needs_seq_l. needs_letter. Qed.

Lemma r_done_needs_r : needs (fun c => negb (is_hex c)) Pat.r_done.
Proof. apply needs_seq_r, needs_seq_l. needs_letter. Qed.

Lemma matchk_chr_cons q pr c l i cs k :
  matchk (Chr q) (MState pr (c :: l) i cs) k
  = if q c then k (MState (Some c) l (S i) cs) else None.
Proof. reflexivity. Qed.

(** Greedy [[0-9A-F]*] runs to the end of a hexadecimal text. *)
Lemma star_hex_to_end step k :
  (forall s k', step s k' = matchk hex s k') ->
  (forall s, rest s = [] -> k s <> None) ->
  forall l, all_hex l -> forall fuel pr i cs,
    (List.length l < fuel)%nat ->
    star_iter step k fuel (MState pr l i cs) <> None.
Proof.
  intros Hstep Hk l Hl.
  induction Hl as [|c l Hc _ IH]; intros fuel pr i cs Hf.
  - destruct fuel as [|f]; [inversion Hf|].
    cbn [star_iter]. rewrite Hstep. cbn. now apply Hk.
  - destruct fuel as [|f]; [inversion Hf|]. simpl in Hf.
    cbn [star_iter]. rewrite Hstep. unfold hex.
    rewrite matchk_chr_cons, Hc. cbn [pos].
    replace (Nat.leb (S i) i) with false
      by (symmetry; apply Nat.leb_gt; lia).
    specialize (IH f (Some c) (S i) cs ltac:(lia)).
    destruct (star_iter _ _ _ _); [discriminate | contradiction].
Qed.

Lemma test_all_hex t : t <> [] -> all_hex t -> test Pat.all_hex t = true.
Proof.
  intros Hne Ht. destruct t as [|c t]; [contradiction|].
  inversion Ht as [|? ? Hc Hrest]; subst.
  unfold test, exec, Pat.all_hex, cat, plus. cbn [search].
  unfold match_here. cbn [matchk prev rest pos caps].
  unfold hex at 1. rewrite matchk_chr_cons, Hc. cbn [rest].
  match goal with
  | |- context [star_iter ?st ?k ?f ?s] =>
      pose proof (@star_hex_to_end st k (fun _ _ => eq_refl)
                    ltac:(intros s0 E; cbv beta; rewrite E; discriminate)
                    t Hrest f (Some c) 1%nat [] ltac:(lia)) as H;
      destruct (star_iter st k f s); [reflexivity | contradiction]
  end.
Qed.

Lemma nonempty_of_length (t : jstring) n :
  List.length t = S n -> t <> [].
Proof. intros E ->. discriminate. Qed.

(** What the decoder tries first fails on a hexadecimal text. *)
Lemma decoder_prefix_on_hex t :
  all_hex t ->
  test Pat.error t = false /\ test Pat.init_k t = false
  /\ test Pat.init_r t = false /\ exec Pat.r_work t = None
  /\ test Pat.r_line t = false /\ test Pat.r_done t = false.
Proof.
  intros Ht. apply all_hex_free in Ht.
  repeat split.
  - apply (test_needs_fails error_needs_r Ht).
  - apply (test_needs_fails init_k_needs_p Ht).
  - apply (test_needs_fails init_r_needs_p Ht).
  - apply (search_needs_fails r_work_needs_r _ _ Ht).
  - apply (test_needs_fails r_line_needs_r Ht).
  - apply (test_needs_fails r_done_needs_r Ht).
Qed.

Lemma parse_hex128 t :
  List.length t = 128%nat -> all_hex t ->
  parseEdSignTextStatus t
  = Some (Status.Make PH_DONE None (Some 100%float) None None (Some t) None).
Proof.
  intros Hlen Ht. unfold parseEdSignTextStatus.
  rewrite (trim_hex Ht).
  destruct (decoder_prefix_on_hex Ht) as (-> & -> & -> & -> & -> & ->).
  rewrite Hlen, (test_all_hex (nonempty_of_length Hlen) Ht).
  reflexivity.
Qed.

Lemma parse_hex64 t :
  List.length t = 64%nat -> all_hex t ->
  parseEdSignTextStatus t
  = Some (Status.Make PH_IDLE None None None None None (Some t)).
Proof.
  intros Hlen Ht. unfold parseEdSignTextStatus.
  rewrite (trim_hex Ht).
  destruct (decoder_prefix_on_hex Ht) as (-> & -> & -> & -> & -> & ->).
  rewrite Hlen, (test_all_hex (nonempty_of_length Hlen) Ht).
  reflexivity.
Qed.

(* ================================================================== *)
(** * Status decoder: the frames of the specification *)
(* ================================================================== *)


Lemma all_hex_forallb t : forallb is_hex t = true -> all_hex t.
Proof. intros H. apply Forall_forall. now apply forallb_forall. Qed.

(** C1. On the text ["R:done"] the decoder does not reach its [R done]
    step: the fallback before it, [/^R\b/i], matches first and finds no
    digits, so the status is [PH_R_WORK] without step information, and the
    frame extractor gives it no progress.  Both patterns match the text; the
    order decides. *)
Theorem R_done_frame_decodes_as_R_work :
  test Pat.r_line (lit "R:done") = true
  /\ test Pat.r_done (lit "R:done") = true
  /\ parseEdSignTextStatus (lit "R:done") = Some (Status.only PH_R_WORK)
  /\ decode_frame (lit "R:done") = Some (Status.only PH_R_WORK)
  /\ decode_frame (lit "Rdone")
     = Some (Status.Make PH_R_DONE None (Some 97%float) None (Some 255%float)
                         None None).
Proof. repeat split; vm_compute; reflexivity. Qed.

(** C6. The frames of the specification through the decoder pipeline:
    ["PH_INIT_K"] is [PH_INIT_K] with progress 10; ["R:i=128"] is [PH_R_WORK]
    with 128 steps remaining, progress 52 and 255 steps in total; a text of
    128 hexadecimal digits is [PH_DONE] with progress 100 and that text as
    signature; one of 64 is [PH_IDLE] with that text as public key; ["busy"]
    is [BUSY]; ["xyz garbage"] is no status. *)
Theorem decoder_examples :
  decode_frame (lit "PH_INIT_K")
  = Some (Status.Make PH_INIT_K None (Some 10%float) None None None None)
  /\ decode_frame (lit "R:i=128")
     = Some (Status.Make PH_R_WORK None (Some 52%float) (Some 128%float)
                         (Some 255%float) None None)
  /\ (forall t, List.length t = 128%nat -> all_hex t ->
        decode_frame t
        = Some (Status.Make PH_DONE None (Some 100%float) None None (Some t)
                            None))
  /\ (forall t, List.length t = 64%nat -> all_hex t ->
        decode_frame t
        = Some (Status.Make PH_IDLE None None None None None (Some t)))
  /\ decode_frame (lit "busy") = Some (Status.only BUSY)
  /\ decode_frame (lit "xyz garbage") = None.
Proof.
  split; [vm_compute; reflexivity|].
  split; [vm_compute; reflexivity|].
  split; [intros t Hlen Ht; unfold decode_frame;
          rewrite (parse_hex128 Hlen Ht); reflexivity|].
  split; [intros t Hlen Ht; unfold decode_frame;
          rewrite (parse_hex64 Hlen Ht); reflexivity|].
  split; vm_compute; reflexivity.
Qed.

(** The theorem at two texts of hexadecimal digits. *)
Lemma decoder_examples_witness :
  (List.length Sample.hex128 = 128%nat /\ all_hex Sample.hex128
   /\ option_map Status.signature (decode_frame Sample.hex128)
      = Some (Some Sample.hex128))
  /\ (List.length Sample.hex64 = 64%nat /\ all_hex Sample.hex64
      /\ option_map Status.pubkey (decode_frame Sample.hex64)
         = Some (Some Sample.hex64)).
Proof.
  assert (H128 : all_hex Sample.hex128)
    by (apply all_hex_forallb; vm_compute; reflexivity).
  assert (H64 : all_hex Sample.hex64)
    by (apply all_hex_forallb; vm_compute; reflexivity).
  pose proof decoder_examples as (_ & _ & D128 & D64 & _).
  split; (split; [reflexivity | split; [assumption|]]).
  - rewrite (D128 Sample.hex128 eq_refl H128). reflexivity.
  - rewrite (D64 Sample.hex64 eq_refl H64). reflexivity.
Defined.

(* ================================================================== *)
(** * Frame extractor *)
(* ================================================================== *)

Section ExtractorFacts.

Context {PF : Platform}.

Lemma safeDecode_no_buffer : safeDecode (Some NoBuffer) = [].
Proof. reflexivity. Qed.

Lemma safeDecode_bytes d : safeDecode (Some (Bytes d)) = decode d.
Proof. reflexivity. Qed.

Lemma parse_empty_text : parseEdSignTextStatus [] = None.
Proof. vm_compute. reflexivity. Qed.

(** A record whose text is empty is passed over by every step. *)
Lemma empty_text_is_skipped r rs select :
  safeDecode (data r) = [] ->
  first_json select (r :: rs) = first_json select rs
  /\ first_status (r :: rs) = first_status rs
  /\ raw_texts (r :: rs) = raw_texts rs.
Proof.
  intros E. simpl. rewrite E.
  change (looks_like_json []) with false.
  rewrite parse_empty_text. simpl.
  repeat split; destruct (select r), (is_text r); reflexivity.
Qed.

(** The text of a single text record goes through the decoder pipeline. *)
Lemma first_status_single r :
  is_text r = true ->
  first_status [r] = decode_frame (safeDecode (data r)).
Proof.
  intros E. simpl. rewrite E. unfold decode_frame.
  now destruct (parseEdSignTextStatus _).
Qed.

Lemma extraction_result ev h rs :
  records ev = Some rs ->
  snd (tryParseFromEvent ev h)
  = ok match first_json is_json_media rs with
       | Some v => Some (PJson v)
       | None =>
           match first_json is_text rs with
           | Some v => Some (PJson v)
           | None =>
               match first_status rs with
               | Some s => Some (PStatus s)
               | None => synthesize (raw_texts rs)
               end
           end
       end.
Proof.
  intros E. unfold tryParseFromEvent. rewrite E. simpl.
  destruct (first_json is_json_media rs); [reflexivity|].
  destruct (first_json is_text rs); [reflexivity|].
  destruct (first_status rs); reflexivity.
Qed.

Lemma synthesize_none texts : synthesize texts = None <-> texts = [].
Proof.
  split; [|intros ->; reflexivity].
  destruct texts; [reflexivity|]. simpl.
  destruct (test LabelPat.hex64 _); discriminate.
Qed.

End ExtractorFacts.

(* ================================================================== *)
(** * Resumptions: what every state along a call satisfies *)
(* ================================================================== *)

Section RunRel.

Variables (St Wt : Type).

(** A relation between the state a piece of code is given and a state it
    hands back. *)
Variable R : St -> St -> Prop.
Hypothesis R_refl : forall s, R s s.
Hypothesis R_trans : forall a b c, R a b -> R b c -> R a c.


Lemma run_rel_from {A} (r : run St Wt A) s0 s1 :
  R s0 s1 -> run_rel R s1 r -> run_rel R s0 r.
Proof.
  destruct r; simpl; [eauto|]. intros H0 [H1 H2]. eauto.
Qed.

Lemma bind_run_rel {A B} (r : run St Wt A) (f : A -> async St Wt B) :
  (forall a, async_rel R (f a)) ->
  forall s0, run_rel R s0 r -> run_rel R s0 (bind_run r f).
Proof.
  intros Hf. induction r as [s [e|a]|s on k IH]; simpl; intros s0 H.
  - exact H.
  - exact (run_rel_from _ H (Hf a s)).
  - destruct H as [H1 H2]. split; [exact H1|].
    intros res s'. apply IH, H2.
Qed.

Lemma catch_run_rel {A} (r : run St Wt A) (h : exn -> async St Wt A) :
  (forall e, async_rel R (h e)) ->
  forall s0, run_rel R s0 r -> run_rel R s0 (catch_run r h).
Proof.
  intros Hh. induction r as [s [e|a]|s on k IH]; simpl; intros s0 H.
  - exact (run_rel_from _ H (Hh e s)).
  - exact H.
  - destruct H as [H1 H2]. split; [exact H1|].
    intros res s'. apply IH, H2.
Qed.

Lemma finally_run_rel {A} (r : run St Wt A) (f : St -> St) :
  (forall s, R s (f s)) ->
  forall s0, run_rel R s0 r -> run_rel R s0 (finally_run r f).
Proof.
  intros Hf. induction r as [s res|s on k IH]; simpl; intros s0 H.
  - eauto.
  - destruct H as [H1 H2]. split; [exact H1|].
    intros res s'. apply IH, H2.
Qed.

Lemma ret_rel {A} (a : A) : async_rel R (ret (Wt := Wt) a).
Proof. intros s. apply R_refl. Qed.

Lemma raise_rel {A} e : async_rel R (raise (Wt := Wt) (A := A) e).
Proof. intros s. apply R_refl. Qed.

Lemma exec_rel f : (forall s, R s (f s)) -> async_rel R (exec_ (Wt := Wt) f).
Proof. intros Hf s. apply Hf. Qed.

Lemma read_rel {A} (f : St -> A) : async_rel R (read (Wt := Wt) f).
Proof. intros s. apply R_refl. Qed.

Lemma await_rel (on : Wt) : async_rel R (await (St := St) on).
Proof. intros s. split; [apply R_refl|]. intros res s'. apply R_refl. Qed.

Lemma bind_rel {A B} (m : async St Wt A) (f : A -> async St Wt B) :
  async_rel R m -> (forall a, async_rel R (f a)) -> async_rel R (bind m f).
Proof. intros Hm Hf s. apply bind_run_rel; [exact Hf | apply Hm]. Qed.

Lemma catch_rel {A} (m : async St Wt A) h :
  async_rel R m -> (forall e, async_rel R (h e)) -> async_rel R (catch m h).
Proof. intros Hm Hh s. apply catch_run_rel; [exact Hh | apply Hm]. Qed.

Lemma finally_rel {A} (m : async St Wt A) f :
  async_rel R m -> (forall s, R s (f s)) -> async_rel R (finally m f).
Proof. intros Hm Hf s. apply finally_run_rel; [exact Hf | apply Hm]. Qed.

End RunRel.

(* ================================================================== *)
(** * The reading listener and the emitter *)
(* ================================================================== *)

Lemma cu_eqb_eq a b : cu_eqb a b = true <-> a = b.
Proof. apply N.eqb_eq. Qed.

Lemma str_eqb_eq a b : str_eqb a b = true <-> a = b.
Proof.
  revert b. induction a as [|x a IH]; intros [|y b]; simpl;
    try (split; [discriminate | discriminate]); [tauto|].
  rewrite andb_true_iff, cu_eqb_eq, IH.
  split; [intros [-> ->]; reflexivity | intros E; now injection E].
Qed.

Lemma str_eqb_neq a b : str_eqb a b = false <-> a <> b.
Proof.
  rewrite <- str_eqb_eq. destruct (str_eqb a b); split; congruence.
Qed.

Unset Implicit Arguments.

Section ListenerFacts.

Context {PF : Platform} {CB : Consumer}.

(** What an event parses to does not depend on the stored hash. *)
Lemma parsed_any_hash ev h h' :
  snd (tryParseFromEvent ev h)
  = snd (tryParseFromEvent ev h').
Proof. unfold tryParseFromEvent. now destruct (records ev). Qed.

Lemma parse_throws ev h e :
  snd (tryParseFromEvent ev h) = inl e -> records ev = None /\ e = TypeError.
Proof.
  unfold tryParseFromEvent. destruct (records ev) as [rs|]; simpl.
  - destruct (first_json is_json_media rs); [discriminate|].
    destruct (first_json is_text rs); [discriminate|].
    destruct (first_status rs); discriminate.
  - intros E. injection E as <-. split; reflexivity.
Qed.

Lemma spawn_first_state A (r : run world wait A) ts :
  W (spawn r ts) = first_state r.
Proof. now destruct r. Qed.

Lemma emitIfChanged_same tag p s :
  JSON_stringify p = lastPayloadRef (refs (W s)) ->
  emitIfChanged tag p s = (s, ok tt).
Proof.
  intros E. unfold emitIfChanged.
  now rewrite (proj2 (str_eqb_eq _ _) E).
Qed.

Lemma emitIfChanged_new tag p s :
  JSON_stringify p <> lastPayloadRef (refs (W s)) ->
  emitIfChanged tag p s
  = react (onReading tag p (emission tag p (W s)))
          (Sys (emission tag p (W s)) (tasks s)).
Proof.
  intros E. unfold emitIfChanged.
  now rewrite (proj2 (str_eqb_neq _ _) E).
Qed.

(** The listener on an event without a records array: the [catch] block
    runs. *)
Lemma listener_parse_fails ev s :
  records ev = None ->
  exists w',
    same_but_log (W s) w'
    /\ onReadingEvent ev s = readingFailed TypeError (Sys w' (tasks s)).
Proof.
  intros E. unfold onReadingEvent, tryParseFromEvent. rewrite E.
  eexists. split; [|reflexivity].
  eexists _, _. reflexivity.
Qed.

(** The listener on an event whose payload the emitter passes on: the
    consumer's callback runs, and the listener goes on as it returns. *)
Lemma listener_emits ev s p :
  emitted ev (W s) = Some p ->
  let we := emission (serialNumber ev) p (parsed_in ev p (W s)) in
  onReadingEvent ev s
  = afterCallback (react (onReading (serialNumber ev) p we)
                         (Sys we (tasks s))).
Proof.
  intros H we. subst we. unfold emitted, fruitful in H.
  unfold onReadingEvent, parsed_in, heard.
  rewrite (parsed_any_hash ev []
             (lastHashRef (refs (log LogReadingReceived (W s))))) in H.
  destruct (tryParseFromEvent ev _) as [h [e|[q|]]]; simpl in H;
    try discriminate.
  destruct (payload_truthy q) eqn:Et; [|discriminate].
  destruct (str_eqb _ _) eqn:Es; [discriminate|].
  injection H as ->. cbn [fst].
  rewrite emitIfChanged_new
    by (cbn; apply str_eqb_neq; exact Es).
  unfold afterCallback, react. cbn [fst snd W tasks].
  destruct (throws _); reflexivity.
Qed.

(** The listener on any other event: nothing but the console and the
    hash has changed when the rescan is scheduled. *)
Lemma listener_quiet ev s :
  records ev <> None -> emitted ev (W s) = None ->
  exists w',
    same_but_log (W s) w'
    /\ onReadingEvent ev s = scheduleRescan (Sys w' (tasks s)).
Proof.
  intros Hr H. unfold emitted, fruitful in H.
  unfold onReadingEvent.
  rewrite (parsed_any_hash ev []
             (lastHashRef (refs (log LogReadingReceived (W s))))) in H.
  destruct (tryParseFromEvent ev _) as [h [e|[q|]]] eqn:Ep; simpl in H.
  - exfalso. apply Hr.
    exact (proj1 (parse_throws ev _ e (f_equal snd Ep))).
  - destruct (payload_truthy q) eqn:Et.
    + destruct (str_eqb _ _) eqn:Es; [|discriminate].
      rewrite emitIfChanged_same
        by (cbn; apply str_eqb_eq; exact Es).
      eexists. split; [|reflexivity]. eexists _, _. reflexivity.
    + eexists. split; [|reflexivity]. eexists _, _. reflexivity.
  - eexists. split; [|reflexivity]. eexists _, _. reflexivity.
Qed.

End ListenerFacts.

(* ================================================================== *)
(** * What a callback of the consumer can do *)
(* ================================================================== *)

Section CallbackRel.

Context {PF : Platform} {CB : Consumer}.

(** A relation that the calls the consumer makes respect up to their
    first [await], and that the listener's own statements respect; [fine]
    holds of the calls the consumer's callbacks make. *)
Variable R : world -> world -> Prop.
Variable fine : call -> Prop.

Hypothesis R_refl : forall w, R w w.
Hypothesis R_trans : forall a b c, R a b -> R b c -> R a c.
Hypothesis R_make : forall c s, fine c -> R (W s) (W (make c s)).
Hypothesis onReading_fine : forall tag p w,
  Forall fine (makes (onReading tag p w)).
Hypothesis onError_fine : forall e w, Forall fine (makes (onError e w)).
Hypothesis R_console : forall c w, R w (set_console c w).
Hypothesis R_hash : forall h w, R w (set_lastHashRef h w).
Hypothesis R_rescan : forall w,
  R w (snd (setTimeout RescanAfterReading RESCAN_AFTER_READING_MS w)).

Lemma calls_world cs : forall s,
  Forall fine cs -> R (W s) (W (fold_left (fun s c => make c s) cs s)).
Proof.
  induction cs as [|c cs IH]; intros s H; simpl; [apply R_refl|].
  inversion H as [|? ? Hc Hcs]; subst.
  exact (R_trans _ _ _ (R_make c s Hc) (IH (make c s) Hcs)).
Qed.

Lemma react_world r s :
  Forall fine (makes r) -> R (W s) (W (fst (react r s))).
Proof. apply calls_world. Qed.

Lemma same_but_log_world a b : same_but_log a b -> R a b.
Proof.
  intros (c & h & ->).
  exact (R_trans _ _ _ (R_hash h a) (R_console c _)).
Qed.

Lemma readingFailed_world e s :
  (forall w, R w (set_errors (errors (env w) ++ [e]) w)) ->
  R (W s) (W (readingFailed e s)).
Proof.
  intros He. unfold readingFailed.
  eapply R_trans; [|apply react_world, onError_fine]. cbn [W].
  eapply R_trans; [|apply He]. apply R_console.
Qed.

Lemma scheduleRescan_world s : R (W s) (W (scheduleRescan s)).
Proof.
  unfold scheduleRescan. destruct (negb _); [apply R_rescan | apply R_refl].
Qed.

Lemma afterCallback_world r s :
  Forall fine (makes r) ->
  (forall e, throws r = Some e ->
     forall w, R w (set_errors (errors (env w) ++ [e]) w)) ->
  R (W s) (W (afterCallback (react r s))).
Proof.
  intros Hr He. unfold afterCallback.
  eapply R_trans; [apply (react_world r s Hr)|].
  unfold react. cbn [fst snd]. destruct (throws r) as [e|].
  - apply readingFailed_world, He. reflexivity.
  - apply scheduleRescan_world.
Qed.

(** The reading listener respects the relation when what it does besides
    respects it: recording the error of an event without records, storing
    and recording a payload it passes on, and recording what the
    consumer's callback throws. *)
Lemma listener_world ev s :
  (records ev = None ->
   forall w, R w (set_errors (errors (env w) ++ [TypeError]) w)) ->
  (forall p, emitted ev (W s) = Some p ->
     forall tag w, R w (emission tag p w)) ->
  (forall p tag w e,
     emitted ev (W s) = Some p -> throws (onReading tag p w) = Some e ->
     forall w', R w' (set_errors (errors (env w') ++ [e]) w')) ->
  R (W s) (W (onReadingEvent ev s)).
Proof.
  intros Hparse Hemit Hthrow.
  destruct (records ev) as [rs|] eqn:Er.
  - destruct (emitted ev (W s)) as [p|] eqn:Ee.
    + rewrite (listener_emits ev s p Ee). cbv zeta.
      eapply R_trans; [|apply afterCallback_world];
        [|apply onReading_fine|].
      * cbn [W]. eapply R_trans; [|apply (Hemit p eq_refl)].
        unfold parsed_in, heard, log.
        eapply R_trans; [apply R_console|].
        eapply R_trans; [apply R_hash | apply R_console].
      * intros e He. exact (Hthrow p _ _ e eq_refl He).
    + destruct (listener_quiet ev s) as (w' & Hw & ->);
        [rewrite Er; discriminate | exact Ee |].
      eapply R_trans; [apply (same_but_log_world _ _ Hw)|].
      apply (scheduleRescan_world (Sys w' (tasks s))).
  - destruct (listener_parse_fails ev s Er) as (w' & Hw & ->).
    eapply R_trans; [apply (same_but_log_world _ _ Hw)|].
    apply (readingFailed_world TypeError (Sys w' (tasks s))).
    apply Hparse. reflexivity.
Qed.

End CallbackRel.

(* ================================================================== *)
(** * The emitter's timestamp *)
(* ================================================================== *)

Lemma any_calls cs : Forall any_call cs.
Proof. apply Forall_forall. intros c _. exact I. Qed.

Lemma same_emission_refl w : same_emission w w.
Proof. split; reflexivity. Qed.

Lemma same_emission_trans a b c :
  same_emission a b -> same_emission b c -> same_emission a c.
Proof. intros [H1 H2] [H3 H4]. split; congruence. Qed.

(** The world a call of the consumer leaves when it returns. *)
Lemma make_world c s :
  W (make c s)
  = match c with
    | CallStartScan opts => first_state (startScan opts (W s))
    | CallStartSingleRead t => first_state (startSingleRead t (W s))
    | CallStopScan => stopScan (W s)
    | CallDispose to => dispose to (W s)
    end.
Proof. destruct c; simpl; try apply spawn_first_state; reflexivity. Qed.

(** Evaluates the code a call runs before its first [await]. *)
Ltac before_await := lazy -[Math_max opt_or delay_of of_Z].

Lemma make_same_emission c s :
  any_call c -> same_emission (W s) (W (make c s)).
Proof.
  intros _. rewrite make_world.
  destruct s as [[[la cr si rr pm de dp sa lh lp lu ld su]
                  [sup ck nid ab sc iv tmo co rd er]] ts].
  destruct c, sup, cr, si; cbn [W]; before_await; split; reflexivity.
Qed.

Section EmissionFacts.

Context {PF : Platform} {CB : Consumer}.

(** What the listener does from the return of the consumer's callback on
    leaves the emitter's timestamp and the record of its calls alone. *)
Lemma afterCallback_same_emission r s :
  same_emission (W s) (W (afterCallback (react r s))).
Proof.
  apply (afterCallback_world same_emission any_call same_emission_refl
           same_emission_trans make_same_emission);
    try (intros; apply any_calls);
    intros; split; reflexivity.
Qed.

(** The emitter's timestamp and the record of its calls, after a reading
    event. *)
Lemma onReadingEvent_emitter ev s :
  let w := W s in
  let w' := W (onReadingEvent ev s) in
  lastUpdateTsRef (refs w')
  = match emitted ev w with
    | Some _ => clock (env w)
    | None => lastUpdateTsRef (refs w)
    end
  /\ readings (env w')
     = readings (env w)
       ++ match emitted ev w with
          | Some p => [(serialNumber ev, p)]
          | None => []
          end.
Proof.
  intros w w'. subst w w'.
  destruct (emitted ev (W s)) as [p|] eqn:Ee.
  - rewrite (listener_emits ev s p Ee). cbv zeta.
    destruct (afterCallback_same_emission
                (onReading (serialNumber ev) p
                   (emission (serialNumber ev) p (parsed_in ev p (W s))))
                (Sys (emission (serialNumber ev) p (parsed_in ev p (W s)))
                     (tasks s)))
      as [H1 H2].
    rewrite H1, H2. split; reflexivity.
  - rewrite app_nil_r.
    assert (H : same_emission (W s) (W (onReadingEvent ev s))).
    { apply (listener_world same_emission any_call same_emission_refl
               same_emission_trans make_same_emission);
        try (intros; apply any_calls);
        try (intros; split; reflexivity).
      all: intros; congruence. }
    exact H.
Qed.

(** C2, as the code has it.  The hook keeps one timestamp of reads,
    [lastUpdateTsRef], and the emitter is the only code that moves it on a
    reading event: it takes the time of the event when the event's payload
    is passed on to the consumer (it parsed, and its serialization differs
    from the last one passed on), and it is left as it was on every other
    reading event, a repeated status among them. *)
Theorem lastUpdateTs_follows_emission ev s :
  let w := W s in
  let w' := W (onReadingEvent ev s) in
  lastUpdateTsRef (refs w')
  = match emitted ev w with
    | Some _ => clock (env w)
    | None => lastUpdateTsRef (refs w)
    end
  /\ readings (env w')
     = readings (env w)
       ++ match emitted ev w with
          | Some p => [(serialNumber ev, p)]
          | None => []
          end.
Proof.
  exact (onReadingEvent_emitter ev s).
Qed.

End EmissionFacts.

(** C2, as claimed, fails: the second of two equal readings is delivered at
    2000 ms and [lastUpdateTsRef] stays at 1000, the time of the first. *)
Lemma repeated_status_keeps_lastUpdateTs :
  option_map (fun s => (clock (env (W s)), lastUpdateTsRef (refs (W s)),
                        List.length (readings (env (W s)))))
             (Sample.run_events repeated_status (mounted true 0))
  = Some (2000, 1000, 1%nat).
Proof. vm_compute. reflexivity. Qed.

(* ================================================================== *)
(** * The page, event by event *)
(* ================================================================== *)

(** One step of a proof that a call is in relation [R], by the shape of
    the call. *)
Ltac rel_step trans refl :=
  lazymatch goal with
  | |- async_rel _ (bind _ _) => apply (@bind_rel _ _ _ trans); [|intros]
  | |- async_rel _ (catch _ _) => apply (@catch_rel _ _ _ trans); [|intros]
  | |- async_rel _ (finally _ _) => apply (@finally_rel _ _ _ trans)
  | |- async_rel _ (ret _) => apply (@ret_rel _ _ _ refl)
  | |- async_rel _ (raise _) => apply (@raise_rel _ _ _ refl)
  | |- async_rel _ (read _) => apply (@read_rel _ _ _ refl)
  | |- async_rel _ (await _) => apply (@await_rel _ _ _ refl)
  | |- async_rel _ (exec_ _) => apply exec_rel
  | |- async_rel _ (if ?x then _ else _) => destruct x
  | |- async_rel _ (match ?x with _ => _ end) => destruct x
  | |- run_rel ?R ?w (?m ?w) => revert w; change (async_rel R m)
  end.

Lemma remove_nth_Forall A (P : A -> Prop) i l :
  Forall P l -> Forall P (remove_nth i l).
Proof.
  intros H. revert i. induction H as [|x l Hx Hl IH]; intros [|i]; simpl;
    auto.
Qed.

Section PageRel.

Context {PF : Platform} {CB : Consumer}.

(** A relation that every piece of the hook's code respects, the calls
    of the consumer for which [startScan] and [startSingleRead] respect
    it, and the events under which the reading listener does. *)
Variable R : world -> world -> Prop.
Variable fine : call -> Prop.
Variable good : event -> Prop.

Hypothesis R_refl : forall w, R w w.
Hypothesis R_trans : forall a b c, R a b -> R b c -> R a c.
Hypothesis R_tick : async_rel R tick.
Hypothesis R_timer : forall cb, async_rel R (run_timer cb).
Hypothesis R_startScan : forall opts,
  fine (CallStartScan opts) -> async_rel R (startScan opts).
Hypothesis R_startSingleRead : forall t,
  fine (CallStartSingleRead t) -> async_rel R (startSingleRead t).
Hypothesis onReading_fine : forall tag p w,
  Forall fine (makes (onReading tag p w)).
Hypothesis onError_fine : forall e w, Forall fine (makes (onError e w)).
Hypothesis R_stopScan : forall w, R w (stopScan w).
Hypothesis R_clock : forall t w, R w (set_clock t w).
Hypothesis R_fired : forall i period w,
  R w (set_intervals
         (map (fun x => if Nat.eqb (fst (fst x)) i
                        then (i, period, clock (env w)) else x)
              (intervals (env w))) w).
Hypothesis R_clearTimeout : forall i w, R w (clearTimeout i w).
Hypothesis R_settled : forall t res w, R w (settled t res w).
Hypothesis R_console : forall c w, R w (set_console c w).
Hypothesis R_hash : forall h w, R w (set_lastHashRef h w).
Hypothesis R_rescan : forall w,
  R w (snd (setTimeout RescanAfterReading RESCAN_AFTER_READING_MS w)).
Hypothesis R_parse : forall ev,
  good (Reading ev) -> records ev = None ->
  forall w, R w (set_errors (errors (env w) ++ [TypeError]) w).
Hypothesis R_emit : forall ev s p,
  good (Reading ev) -> emitted ev (W s) = Some p ->
  forall tag w, R w (emission tag p w).
Hypothesis R_throw : forall ev s p tag w e,
  good (Reading ev) -> emitted ev (W s) = Some p ->
  throws (onReading tag p w) = Some e ->
  forall w', R w' (set_errors (errors (env w') ++ [e]) w').

Lemma first_state_rel A (r : run world wait A) w :
  run_rel R w r -> R w (first_state r).
Proof. destruct r; simpl; [auto | intros [H _]; exact H]. Qed.

Lemma spawn_tasks_rel A (r : run world wait A) ts w :
  run_rel R w r -> tasks_rel R ts -> tasks_rel R (tasks (spawn r ts)).
Proof.
  intros Hr Hts. destruct r as [w' res|w' on k]; simpl; [exact Hts|].
  apply Forall_app. split; [exact Hts|]. constructor; [|constructor].
  simpl. intros res w1. destruct Hr as [_ Hk].
  apply (bind_run_rel R_trans); [|apply Hk].
  intros a. apply (@ret_rel _ _ _ R_refl).
Qed.

Lemma spawn_rel A (r : run world wait A) ts w0 w :
  R w0 w -> run_rel R w r -> tasks_rel R ts ->
  tasks_rel R (tasks (spawn r ts)) /\ R w0 (W (spawn r ts)).
Proof.
  intros H0 Hr Hts. split; [exact (spawn_tasks_rel A r ts w Hr Hts)|].
  rewrite spawn_first_state.
  exact (R_trans _ _ _ H0 (first_state_rel A r w Hr)).
Qed.

(** A call of the consumer, whenever it is made. *)
Lemma make_rel c s :
  fine c -> tasks_rel R (tasks s) ->
  tasks_rel R (tasks (make c s)) /\ R (W s) (W (make c s)).
Proof.
  intros Hc Hts. destruct c as [opts|t| |to]; simpl.
  - eapply spawn_rel; [apply R_refl | apply R_startScan, Hc | exact Hts].
  - eapply spawn_rel;
      [apply R_refl | apply R_startSingleRead, Hc | exact Hts].
  - split; [exact Hts | apply R_stopScan].
  - split; [exact Hts | apply R_clearTimeout].
Qed.

Lemma make_rel_world c s : fine c -> R (W s) (W (make c s)).
Proof.
  intros Hc. destruct c as [opts|t| |to]; simpl; rewrite ?spawn_first_state.
  - apply first_state_rel, R_startScan, Hc.
  - apply first_state_rel, R_startSingleRead, Hc.
  - apply R_stopScan.
  - apply R_clearTimeout.
Qed.

(** The reading listener, on a good event. *)
Lemma listener_rel ev s :
  good (Reading ev) -> R (W s) (W (onReadingEvent ev s)).
Proof.
  intros Hg.
  apply (listener_world R fine R_refl R_trans make_rel_world onReading_fine
           onError_fine R_console R_hash R_rescan).
  - apply R_parse, Hg.
  - intros p E. exact (R_emit ev s p Hg E).
  - intros p tag w e E He. exact (R_throw ev s p tag w e Hg E He).
Qed.

Lemma calls_tasks cs : forall s,
  Forall fine cs -> tasks_rel R (tasks s) ->
  tasks_rel R (tasks (fold_left (fun s c => make c s) cs s)).
Proof.
  induction cs as [|c cs IH]; intros s H Hts; simpl; [exact Hts|].
  inversion H as [|? ? Hc Hcs]; subst.
  apply IH; [exact Hcs|]. exact (proj1 (make_rel c s Hc Hts)).
Qed.

Lemma readingFailed_tasks e s :
  tasks_rel R (tasks s) -> tasks_rel R (tasks (readingFailed e s)).
Proof.
  intros Hts. unfold readingFailed, react.
  apply calls_tasks; [apply onError_fine | exact Hts].
Qed.

Lemma scheduleRescan_tasks s :
  tasks_rel R (tasks s) -> tasks_rel R (tasks (scheduleRescan s)).
Proof. unfold scheduleRescan. now destruct (negb _). Qed.

(** The calls the listener leaves in flight are those it found and those
    the consumer's callbacks made. *)
Lemma listener_tasks ev s :
  tasks_rel R (tasks s) -> tasks_rel R (tasks (onReadingEvent ev s)).
Proof.
  intros Hts.
  destruct (records ev) as [rs|] eqn:Er.
  - destruct (emitted ev (W s)) as [p|] eqn:Ee.
    + rewrite (listener_emits ev s p Ee). cbv zeta.
      unfold afterCallback, react. cbn [fst snd].
      destruct (throws _);
        [apply readingFailed_tasks | apply scheduleRescan_tasks];
        (apply calls_tasks; [apply onReading_fine | exact Hts]).
    + destruct (listener_quiet ev s) as (w' & _ & ->);
        [rewrite Er; discriminate | exact Ee |].
      apply scheduleRescan_tasks. exact Hts.
  - destruct (listener_parse_fails ev s Er) as (w' & _ & ->).
    apply readingFailed_tasks. exact Hts.
Qed.

(** One event: the calls in flight go on respecting the relation, and it
    holds between the worlds before and after, for a reading event when it
    is a good one. *)
Lemma step_rel e s s' :
  tasks_rel R (tasks s) -> (forall c, e = Call c -> fine c) ->
  step e s = Some s' ->
  tasks_rel R (tasks s') /\ (good e -> R (W s) (W s')).
Proof.
  intros Hts Hfine Hstep.
  destruct e as [t|i|i|i res|ev|c]; simpl in Hstep.
  - destruct (clock _ <=? t); [|discriminate].
    injection Hstep as <-. split; [exact Hts | intros _; apply R_clock].
  - destruct (find _ _) as [[[j period] last]|]; [|discriminate].
    destruct (_ <=? _); [|discriminate]. injection Hstep as <-.
    edestruct spawn_rel as [H1 H2];
      [apply R_fired | apply R_tick | exact Hts |].
    split; [exact H1 | intros _; exact H2].
  - destruct (find _ _) as [[[j cb] d]|]; [|discriminate].
    destruct (_ <=? _); [|discriminate]. injection Hstep as <-.
    edestruct spawn_rel as [H1 H2];
      [apply R_clearTimeout | apply R_timer | exact Hts |].
    split; [exact H1 | intros _; exact H2].
  - destruct (nth_error (tasks s) i) as [t|] eqn:Et; [|discriminate].
    destruct (may_settle t res (W s)); [|discriminate].
    injection Hstep as <-.
    assert (Ht : forall r w, run_rel R w (k t r w)).
    { apply nth_error_In in Et.
      exact (proj1 (Forall_forall _ _) Hts t Et). }
    edestruct spawn_rel as [H1 H2];
      [apply R_settled | apply Ht | apply remove_nth_Forall; exact Hts |].
    split; [exact H1 | intros _; exact H2].
  - destruct (_ && _)%bool; [|discriminate]. injection Hstep as <-.
    split; [apply listener_tasks, Hts | intros Hg; apply listener_rel, Hg].
  - injection Hstep as <-.
    destruct (make_rel c s (Hfine c eq_refl) Hts) as [H1 H2].
    split; [exact H1 | intros _; exact H2].
Qed.

Lemma steps_rel es : forall s s',
  tasks_rel R (tasks s) ->
  Forall (fun e => forall c, e = Call c -> fine c) es ->
  Forall good es -> steps es s = Some s' ->
  tasks_rel R (tasks s') /\ R (W s) (W s').
Proof.
  induction es as [|e es IH]; intros s s' Hts Hf Hg H; simpl in H.
  - injection H as <-. split; [exact Hts | apply R_refl].
  - destruct (step e s) as [s1|] eqn:E; [|discriminate].
    inversion Hg as [|? ? Hge Hges]; subst.
    inversion Hf as [|? ? Hfe Hfes]; subst.
    destruct (step_rel e s s1 Hts Hfe E) as [Hts1 H1].
    destruct (IH s1 s' Hts1 Hfes Hges H) as [Hts' H'].
    split; [exact Hts' | exact (R_trans _ _ _ (H1 Hge) H')].
Qed.

End PageRel.

(* ================================================================== *)
(** * Sessions: the stored payload is cleared and stays so *)
(* ================================================================== *)

Lemma keeps_blank_refl s : keeps_blank s s.
Proof. intros H. exact H. Qed.

Lemma keeps_blank_trans a b c :
  keeps_blank a b -> keeps_blank b c -> keeps_blank a c.
Proof. unfold keeps_blank. auto. Qed.

Lemma abort_current_blank w : keeps_blank w (abort_current w).
Proof.
  unfold keeps_blank, blank, abort_current.
  destruct (controllerRef (refs w)); simpl; auto.
Qed.

Lemma stopPolling_blank w : keeps_blank w (stopPolling w).
Proof.
  unfold keeps_blank, blank, stopPolling.
  destruct (scanIntervalRef (refs w)); simpl; auto.
Qed.

(** A statement that assigns other fields keeps it blank. *)
Ltac blank_assign :=
  first [ exact abort_current_blank | exact stopPolling_blank
        | let w := fresh in let H := fresh in
          intros w H; unfold keeps_blank, blank in *; simpl;
          first [ exact H | reflexivity ] ].

Ltac keeps_blank_auto :=
  repeat (rel_step keeps_blank_trans keeps_blank_refl); try blank_assign.

Lemma doScan_keeps_blank : async_rel keeps_blank doScan.
Proof.
  intros w. unfold doScan.
  destruct (negb (isSupported (env w))); keeps_blank_auto.
Qed.

Lemma rescanNow_keeps_blank reason : async_rel keeps_blank (rescanNow reason).
Proof.
  unfold rescanNow. keeps_blank_auto. exact doScan_keeps_blank.
Qed.

Lemma deepReset_keeps_blank : async_rel keeps_blank deepReset.
Proof.
  unfold deepReset. keeps_blank_auto. exact doScan_keeps_blank.
Qed.

Lemma tick_keeps_blank : async_rel keeps_blank tick.
Proof.
  intros w. unfold tick.
  destruct (_ || _)%bool;
    [apply deepReset_keeps_blank | apply rescanNow_keeps_blank].
Qed.

Lemma run_timer_keeps_blank cb : async_rel keeps_blank (run_timer cb).
Proof.
  destruct cb as [|lc]; simpl; [apply rescanNow_keeps_blank|].
  apply exec_rel. intros w H. unfold singleReadTimeout. cbv zeta.
  match goal with |- context [if ?c then _ else _] => destruct c end;
    [|exact H].
  apply abort_current_blank. exact H.
Qed.

Lemma startScan_keeps_blank opts : async_rel keeps_blank (startScan opts).
Proof.
  unfold startScan. keeps_blank_auto; try exact doScan_keeps_blank.
Qed.

Lemma startSingleRead_keeps_blank t : async_rel keeps_blank (startSingleRead t).
Proof.
  unfold startSingleRead. keeps_blank_auto; try exact doScan_keeps_blank.
Qed.

Lemma stopScan_keeps_blank w : keeps_blank w (stopScan w).
Proof.
  intros H. unfold stopScan, blank. simpl.
  apply abort_current_blank, stopPolling_blank, H.
Qed.

(** Both calls that begin a session give way, or end, with the stored
    payload and the record-shape hash cleared. *)
Lemma session_start_clears c w :
  starts_session c ->
  let w1 := match c with
            | CallStartScan opts => first_state (startScan opts w)
            | CallStartSingleRead t => first_state (startSingleRead t w)
            | _ => w
            end in
  lastPayloadRef (refs w1) = [] /\ lastHashRef (refs w1) = [].
Proof.
  destruct w as [[la cr si rr pm de dp sa lh lp lu ld su]
                 [sup ck nid ab sc iv tmo co rd er]].
  destruct c as [opts|t| |]; try contradiction; intros _;
    destruct sup, cr, si; before_await; split; reflexivity.
Qed.

Section SessionFacts.

Context {PF : Platform} {CB : Consumer}.

Lemma run_rel_first_state A (r : run world wait A) w :
  run_rel keeps_blank w r -> keeps_blank w (first_state r).
Proof. destruct r; simpl; [auto | intros [H _]; exact H]. Qed.

Lemma step_keeps_blank e s s' :
  tasks_keep_blank (tasks s) ->
  step e s = Some s' ->
  tasks_keep_blank (tasks s')
  /\ (quiet e -> keeps_blank (W s) (W s')).
Proof.
  intros Hts.
  apply (step_rel keeps_blank any_call quiet keeps_blank_refl
           keeps_blank_trans tick_keeps_blank run_timer_keeps_blank);
    try (intros; apply any_calls); try exact Hts.
  - intros opts _. apply startScan_keeps_blank.
  - intros t _. apply startSingleRead_keeps_blank.
  - apply stopScan_keeps_blank.
  - intros t w H. exact H.
  - intros i period w H. exact H.
  - intros i w H. exact H.
  - intros t res w H. unfold settled. destruct (on t), res; exact H.
  - intros c w H. exact H.
  - intros h w H. exact H.
  - intros w H. exact H.
  - intros ev _ _ w H. exact H.
  - intros ev s0 p Hq E. exfalso. simpl in Hq. unfold emitted in E.
    rewrite Hq in E. discriminate.
  - intros ev s0 p tag w x Hq E. exfalso. simpl in Hq. unfold emitted in E.
    rewrite Hq in E. discriminate.
  - intros c _. exact I.
Qed.

Lemma steps_keep_tasks es : forall s s',
  tasks_keep_blank (tasks s) ->
  steps es s = Some s' ->
  tasks_keep_blank (tasks s').
Proof.
  induction es as [|e es IH]; intros s s' Hts H; simpl in H.
  - now injection H as <-.
  - destruct (step e s) as [s1|] eqn:E; [|discriminate].
    exact (IH s1 s' (proj1 (step_keeps_blank e s s1 Hts E)) H).
Qed.

Lemma steps_keep_blank es : forall s s',
  tasks_keep_blank (tasks s) ->
  Forall (quiet) es ->
  steps es s = Some s' ->
  keeps_blank (W s) (W s').
Proof.
  induction es as [|e es IH]; intros s s' Hts Hq H; simpl in H.
  - injection H as <-. apply keeps_blank_refl.
  - destruct (step e s) as [s1|] eqn:E; [|discriminate].
    inversion Hq as [|? ? Hqe Hqes]; subst.
    destruct (step_keeps_blank e s s1 Hts E) as [Hts1 Hb].
    eapply keeps_blank_trans; [exact (Hb Hqe) | exact (IH s1 s' Hts1 Hqes H)].
Qed.

Lemma reachable_tasks_keep_blank s :
  reachable s ->
  tasks_keep_blank (tasks s).
Proof.
  intros (sup & t0 & es & H).
  eapply steps_keep_tasks; [|exact H]. constructor.
Qed.

(** C10.  A call of [startScan] or [startSingleRead] clears the stored
    serialization and the record-shape hash before it first gives way, so
    before its scan begins; and whatever happens next on the page, short of
    a reading that parses, the first reading that parses is passed on to
    the consumer, whatever was passed on in an earlier session. *)
Theorem first_parsed_read_of_a_session_is_emitted :
  forall s0 c s1 es s2 ev p s3,
    reachable s0 ->
    starts_session c ->
    step
         (Call c) s0 = Some s1 ->
    Forall (quiet) es ->
    steps es s1
    = Some s2 ->
    fruitful ev = Some p ->
    JSON_stringify p <> [] ->
    step
         (Reading ev) s2 = Some s3 ->
    (lastPayloadRef (refs (W s1)) = [] /\ lastHashRef (refs (W s1)) = [])
    /\ readings (env (W s3))
       = readings (env (W s2)) ++ [(serialNumber ev, p)].
Proof.
  intros s0 c s1 es s2 ev p s3 Hreach Hc Hcall Hq Hes Hp Hne Hread.
  pose proof (reachable_tasks_keep_blank s0 Hreach) as Hts0.
  pose proof (session_start_clears c (W s0) Hc) as Hclear. cbv zeta in Hclear.
  assert (Hw1 : lastPayloadRef (refs (W s1)) = []
                /\ lastHashRef (refs (W s1)) = []).
  { destruct c as [opts|t| |]; try contradiction; simpl in Hcall;
      injection Hcall as <-; rewrite spawn_first_state; exact Hclear. }
  split; [exact Hw1|].
  assert (Hts1 : tasks_keep_blank (tasks s1))
    by exact (proj1 (@step_keeps_blank (Call c) s0 s1 Hts0 Hcall)).
  assert (Hb2 : blank (W s2))
    by exact (@steps_keep_blank es s1 s2 Hts1 Hq Hes (proj1 Hw1)).
  simpl in Hread. destruct (_ && _)%bool; [|discriminate].
  injection Hread as <-.
  pose proof (onReadingEvent_emitter ev s2) as H.
  cbv zeta in H. unfold emitted in H. rewrite Hp, Hb2 in H.
  rewrite (proj2 (str_eqb_neq _ _) Hne) in H.
  exact (proj2 H).
Qed.

End SessionFacts.
(* ================================================================== *)
(** * Scan session controller *)
(* ================================================================== *)

(** The guard of [rescanNow]: while a rescan is in flight another one only
    logs its line. *)
Lemma rescanNow_dropped_while_restarting reason w :
  restartingRef (refs w) = true ->
  rescanNow reason w = Done (log (LogRescanNow reason) w) (ok tt).
Proof.
  intros H. unfold rescanNow, bind, exec_, read. simpl. now rewrite H.
Qed.

(** C3.  The guard covers light rescans only: [deepReset] neither tests
    nor sets [restartingRef].  With no tag in range and the default options,
    the tick at 5050 ms begins a deep reset that pauses until 6850 ms, and
    the tick at 6050 ms begins a second one: two deep resets are in flight,
    and [restartingRef] is [false] all along. *)
Theorem deep_resets_overlap :
  option_map (fun s => (in_flight s, count_deep_resets s,
                        restartingRef (refs (W s)), clock (env (W s))))
             (Sample.run_events no_tag_session (mounted true 0))
  = Some ([(Sleep 1800%float, 6850); (Sleep 1800%float, 7850)], 2%nat, false,
          6050).
Proof. vm_compute. reflexivity. Qed.

Ltac next_await H :=
  let res := fresh "res" in
  let w := fresh "w" in
  let Hallowed := fresh "Hallowed" in
  let Hrely := fresh "Hrely" in
  let Hrest := fresh "Hrest" in
  inversion H as [|? ? ? res w ? ? Hallowed Hrely Hrest]; subst; clear H;
  simpl in Hallowed; unfold still_supported in Hrely.

(** A deep reset, once begun, stamps [lastDeepResetTsRef] when the scan it
    restarts has started or was aborted, whatever else ran meanwhile. *)
Lemma deepReset_completes w w' r :
  isSupported (env w) = true ->
  completes still_supported scan_not_refused (deepReset w) w' r ->
  r = ok tt /\ lastDeepResetTsRef (refs w') = clock (env w').
Proof.
  intros Hsup H. unfold deepReset, bind, exec_, read, await in H.
  simpl in H.
  next_await H. subst res. simpl in Hrest.
  unfold doScan in Hrest. rewrite Hrely in Hrest.
  unfold bind, exec_, await in Hrest. simpl in Hrest.
  next_await Hrest. subst res. simpl in Hrest0.
  next_await Hrest0.
  destruct res as [[]|[]]; simpl in Hrest; try contradiction;
    inversion Hrest; subst; split; reflexivity.
Qed.

Lemma abort_current_pause w :
  deepPauseRef (refs (abort_current w)) = deepPauseRef (refs w).
Proof. unfold abort_current. now destruct (controllerRef (refs w)). Qed.

(** C7.  A tick that finds no emitted reading for [staleAfterRef]
    milliseconds performs a deep reset, whatever the time since the last
    one: it cancels the scan at once and pauses for [deepPauseRef]; the
    restart then waits its 50 ms and starts a scan on a new signal; and
    when that scan has started, [lastDeepResetTsRef] takes the time, also
    when other code ran during the pauses. *)
Theorem stale_tick_performs_deep_reset w :
  isSupported (env w) = true ->
  (staleAfterRef (refs w)
   <=? of_Z (clock (env w) - lastUpdateTsRef (refs w)))%float = true ->
  tick w = deepReset w
  /\ (exists k,
        deepReset w
        = Await (abort_current (log LogDeepReset w))
                (Sleep (deepPauseRef (refs w))) k)
  /\ awaited [ok tt; ok tt; ok tt] (deepReset w)
     = [Sleep (deepPauseRef (refs w)); Sleep SCAN_SETTLE_MS;
        Scan (nextId (env w))]
  /\ (exists w',
        feed [ok tt; ok tt; ok tt] (deepReset w) = Some (w', ok tt)
        /\ lastDeepResetTsRef (refs w') = clock (env w')
        /\ controllerRef (refs w') = Some (nextId (env w))
        /\ forall c, controllerRef (refs w) = Some c -> In c (aborted (env w')))
  /\ (forall w' r,
        completes still_supported scan_not_refused (deepReset w) w' r ->
        r = ok tt /\ lastDeepResetTsRef (refs w') = clock (env w')).
Proof.
  intros Hsup Hstale.
  split; [|split; [|split; [|split]]].
  - unfold tick. cbv zeta. rewrite Hstale.
    now rewrite orb_true_r.
  - unfold deepReset, bind, exec_, read, await. simpl.
    rewrite abort_current_pause. simpl. eexists. reflexivity.
  - clear Hstale.
    destruct w as [[la cr si rr pm de dp sa lh lp lu ld su]
                   [sup ck nid ab sc iv tmo co rd er]].
    simpl in Hsup. subst. destruct cr; reflexivity.
  - clear Hstale.
    destruct w as [[la cr si rr pm de dp sa lh lp lu ld su]
                   [sup ck nid ab sc iv tmo co rd er]].
    simpl in Hsup. subst.
    destruct cr as [c|];
      (eexists; split; [reflexivity|]); simpl;
      (split; [reflexivity|]); (split; [reflexivity|]).
    + intros c' E. injection E as <-. right. left. reflexivity.
    + intros c' E. discriminate.
  - intros w' r. apply deepReset_completes, Hsup.
Qed.

(* ================================================================== *)
(** * Single-read session *)
(* ================================================================== *)


Lemma not_in_after_filter_out i l :
  ~ In i (filter (fun x => negb (Nat.eqb x i)) l).
Proof.
  intros H. apply filter_In in H. destruct H as [_ H].
  now rewrite Nat.eqb_refl in H.
Qed.

Lemma key_not_in_after_filter_out A (key : A -> nat) i l :
  ~ In i (map key (filter (fun x => negb (Nat.eqb (key x) i)) l)).
Proof.
  intros H. apply in_map_iff in H. destruct H as (x & <- & H).
  apply filter_In in H. destruct H as [_ H].
  now rewrite Nat.eqb_refl in H.
Qed.




(* ================================================================== *)
(** * Power-cycle supervisor *)
(* ================================================================== *)


(** Whether a timer of the next cycle is pending depends on the timers
    only. *)
Lemma next_cycle_timers a b :
  App.timers a = App.timers b -> App.next_cycle a = App.next_cycle b.
Proof. unfold App.next_cycle. now intros ->. Qed.

Lemma next_cycle_scheduled a i ms b :
  App.next_cycle a = None ->
  App.timers b = App.timers a ++ [(i, App.RunCycles, ms)] ->
  App.next_cycle b = Some i.
Proof.
  intros Ha Hb. unfold App.next_cycle in *. rewrite Hb. clear Hb.
  induction (App.timers a) as [|[[j cb] d] l IH]; simpl in *; [reflexivity|].
  destruct cb; simpl in *; [discriminate | exact (IH Ha) | exact (IH Ha)].
Qed.

Lemma next_cycle_cleared a i ms b :
  App.next_cycle a = None ->
  App.timers b
  = filter (fun x => negb (Nat.eqb (fst (fst x)) i))
           (App.timers a ++ [(i, App.RunCycles, ms)]) ->
  App.next_cycle b = None.
Proof.
  intros Ha Hb. unfold App.next_cycle in *. rewrite Hb. clear Hb.
  induction (App.timers a) as [|[[j cb] d] l IH]; simpl in *.
  - now rewrite Nat.eqb_refl.
  - destruct cb; simpl in *; [discriminate| |];
      destruct (negb (Nat.eqb j i)); simpl; exact (IH Ha).
Qed.

Lemma next_cycle_filtered a i b :
  App.next_cycle a = None ->
  App.timers b
  = filter (fun x => negb (Nat.eqb (fst (fst x)) i)) (App.timers a) ->
  App.next_cycle b = None.
Proof.
  intros Ha Hb. unfold App.next_cycle in *. rewrite Hb. clear Hb.
  induction (App.timers a) as [|[[j cb] d] l IH]; simpl in *; [reflexivity|].
  destruct cb; simpl in *; [discriminate| |];
    destruct (negb (Nat.eqb j i)); simpl; exact (IH Ha).
Qed.

Ltac next_cycle_await Hrun :=
  let res := fresh "res" in
  let a := fresh "a" in
  let Hallowed := fresh "Hallowed" in
  let Hrely := fresh "Hrely" in
  let Hrest := fresh "Hrest" in
  inversion Hrun as [|? ? ? res a ? ? Hallowed Hrely Hrest]; subst;
  clear Hrun; unfold all_resolve in Hallowed; subst res;
  destruct Hrely as (? & ? & ? & ? & ? & ? & ?); simpl in *;
  rename Hrest into Hrun.

(** One call of [runCycles] below the limit: a whole cycle, and the next
    call scheduled. *)
Lemma runCycles_one_cycle a a1 res :
  (App.cycleCount a < App.maxCycles)%nat ->
  App.statusRef a = App.computing ->
  App.shouldContinue a = true ->
  completes undisturbed all_resolve (App.runCycles a) a1 res ->
  App.cycleCount a1 = S (App.cycleCount a)
  /\ App.statusRef a1 = App.computing
  /\ App.shouldContinue a1 = true
  /\ App.timers a1 = App.timers a ++ [(App.nextTimer a, App.RunCycles, 100)]
  /\ App.calls a1 = App.calls a ++ cycle_calls.
Proof.
  intros Hn Hst Hgo Hrun.
  unfold App.runCycles in Hrun. rewrite Hst in Hrun.
  cbn [App.Status_eqb negb] in Hrun.
  unfold bind at 1 in Hrun. unfold App.doCycle in Hrun.
  replace (Nat.leb App.maxCycles (App.cycleCount a)) with false in Hrun
    by (symmetry; apply Nat.leb_gt; exact Hn).
  rewrite Hgo in Hrun.
  unfold bind, catch, exec_, await, App.startScan in Hrun. simpl in Hrun.
  do 6 next_cycle_await Hrun.
  match type of Hrun with
  | completes _ _ (if App.shouldContinue ?x && _ then _ else _) _ _ =>
      replace (App.shouldContinue x) with true in Hrun by congruence;
      replace (App.statusRef x) with App.computing in Hrun by congruence
  end.
  simpl in Hrun. inversion Hrun; subst; clear Hrun. simpl.
  repeat split; try congruence.
  unfold cycle_calls.
  repeat match goal with
         | E : App.calls ?x = _ |- context [App.calls ?x] => rewrite E
         end.
  rewrite <- !app_assoc. reflexivity.
Qed.

(** The call of [runCycles] at the limit: no cycle, the time-out reported,
    everything stopped. *)
Lemma runCycles_at_limit a :
  App.cycleCount a = App.maxCycles ->
  App.statusRef a = App.computing ->
  App.runCycles a
  = Done (App.stopPowerCycling
            (App.set_error App.ComputationTimeout (App.stopPowerCycling a)))
         (ok tt).
Proof.
  intros Hn Hst.
  unfold App.runCycles. rewrite Hst. cbn [App.Status_eqb negb].
  unfold bind at 1. unfold App.doCycle. rewrite Hn.
  change (Nat.leb App.maxCycles App.maxCycles) with true. cbv iota.
  reflexivity.
Qed.

Lemma stopped_at_limit a :
  App.next_cycle a = None ->
  let af := App.stopPowerCycling
              (App.set_error App.ComputationTimeout (App.stopPowerCycling a)) in
  App.cycleCount af = App.cycleCount a
  /\ App.error af = App.ComputationTimeout
  /\ App.powerCycleIntervalRef af = App.NoHandle
  /\ App.calls af = App.calls a ++ [App.StopScan; App.StopScan]
  /\ App.next_cycle af = None.
Proof.
  intros Hnc af. subst af. unfold App.stopPowerCycling.
  destruct (App.powerCycleIntervalRef a) eqn:E; simpl; rewrite ?E; simpl;
    rewrite <- ?app_assoc; repeat split;
    try reflexivity; try exact Hnc; try exact E.
  eapply next_cycle_filtered; [exact Hnc | reflexivity].
Qed.

Lemma completes_done_inv (St Wt A : Type) rely allowed (s sf : St)
  (r rf : result A) :
  completes (Wt := Wt) rely allowed (Done s r) sf rf -> sf = s /\ rf = r.
Proof. intros H. inversion H. auto. Qed.

Lemma repeat_cycles (n : nat) :
  (n < App.maxCycles)%nat ->
  List.concat (repeat cycle_calls (App.maxCycles - n))
  = cycle_calls ++ List.concat (repeat cycle_calls (App.maxCycles - S n)).
Proof.
  intros H.
  replace (App.maxCycles - n)%nat with (S (App.maxCycles - S n)) by lia.
  reflexivity.
Qed.

(** Every undisturbed run of the loop in which all scans start ends after
    the cycles that were left, with the time-out reported. *)
Lemma cycles_run a af :
  App.cycles undisturbed all_resolve a af ->
  App.statusRef a = App.computing ->
  App.shouldContinue a = true ->
  (App.cycleCount a <= App.maxCycles)%nat ->
  App.next_cycle a = None ->
  App.cycleCount af = App.maxCycles
  /\ App.error af = App.ComputationTimeout
  /\ App.powerCycleIntervalRef af = App.NoHandle
  /\ App.calls af
     = App.calls a
       ++ List.concat (repeat cycle_calls (App.maxCycles - App.cycleCount a))
       ++ [App.StopScan; App.StopScan]
  /\ App.next_cycle af = None.
Proof.
  induction 1 as [a a1 res Hrun Hnone|a a1 res a2 i af Hrun Hrely Hnext _ IH];
    intros Hst Hgo Hle Hnc.
  - destruct (Nat.eq_dec (App.cycleCount a) App.maxCycles) as [E|E].
    + rewrite (runCycles_at_limit a E Hst) in Hrun.
      apply completes_done_inv in Hrun. destruct Hrun as [-> _].
      destruct (stopped_at_limit a Hnc) as (H1 & H2 & H3 & H4 & H5).
      split; [congruence|]. split; [exact H2|]. split; [exact H3|].
      split; [|exact H5]. rewrite H4, E, Nat.sub_diag. reflexivity.
    + destruct (runCycles_one_cycle a a1 res ltac:(lia) Hst Hgo Hrun)
        as (_ & _ & _ & Ht & _).
      rewrite (next_cycle_scheduled a _ _ a1 Hnc Ht) in Hnone. discriminate.
  - destruct (Nat.eq_dec (App.cycleCount a) App.maxCycles) as [E|E].
    + rewrite (runCycles_at_limit a E Hst) in Hrun.
      apply completes_done_inv in Hrun. destruct Hrun as [-> _].
      destruct (stopped_at_limit a Hnc) as (_ & _ & _ & _ & H5).
      destruct Hrely as (_ & _ & _ & _ & Ht & _).
      rewrite (next_cycle_timers _ _ Ht), H5 in Hnext. discriminate.
    + destruct (runCycles_one_cycle a a1 res ltac:(lia) Hst Hgo Hrun)
        as (Hc1 & Hs1 & Hg1 & Ht1 & Hcalls1).
      destruct Hrely as (Hs2 & Hc2 & Hg2 & _ & Ht2 & _ & Hcalls2).
      assert (Hi : i = App.nextTimer a).
      { rewrite Ht1 in Ht2.
        rewrite (next_cycle_scheduled a _ _ a2 Hnc Ht2) in Hnext.
        now injection Hnext. }
      subst i.
      destruct IH as (F1 & F2 & F3 & F4 & F5).
      * exact Hs2.
      * cbn [App.clearTimeout App.set_timers App.shouldContinue]. congruence.
      * cbn [App.clearTimeout App.set_timers App.cycleCount].
        rewrite Hc2, Hc1. lia.
      * eapply (next_cycle_cleared a _ _ _ Hnc). simpl. rewrite Ht2, Ht1.
        reflexivity.
      * repeat split; try assumption.
        rewrite F4.
        cbn [App.clearTimeout App.set_timers App.calls App.cycleCount].
        rewrite Hcalls2, Hcalls1, Hc2, Hc1.
        rewrite (repeat_cycles (App.cycleCount a)) by lia.
        rewrite <- !app_assoc. reflexivity.
Qed.

(** With every scan starting and nothing else interfering, a call of
    [runCycles] below the limit does complete. *)
Lemma runCycles_completes a :
  (App.cycleCount a < App.maxCycles)%nat ->
  App.statusRef a = App.computing ->
  App.shouldContinue a = true ->
  exists a1, completes undisturbed all_resolve (App.runCycles a) a1 (ok tt).
Proof.
  intros Hn Hst Hgo. eexists.
  unfold App.runCycles. rewrite Hst. cbn [App.Status_eqb negb].
  unfold bind at 1. unfold App.doCycle.
  replace (Nat.leb App.maxCycles (App.cycleCount a)) with false
    by (symmetry; apply Nat.leb_gt; exact Hn).
  rewrite Hgo.
  unfold bind, catch, exec_, await, App.startScan. simpl.
  do 6 (match goal with
        | |- completes _ _ (Await ?s _ _) _ _ =>
            eapply completes_await with (res := ok tt) (s' := s);
            [reflexivity
            | split; [simpl; exact Hst | repeat split]
            | simpl]
        end).
  rewrite Hgo, Hst. simpl. apply completes_done.
Qed.

Lemma cycles_exist n : forall a,
  (App.maxCycles - App.cycleCount a = n)%nat ->
  (App.cycleCount a <= App.maxCycles)%nat ->
  App.statusRef a = App.computing ->
  App.shouldContinue a = true ->
  App.next_cycle a = None ->
  exists af, App.cycles undisturbed all_resolve a af.
Proof.
  induction n as [|n IH]; intros a Hk Hle Hst Hgo Hnc.
  - assert (E : App.cycleCount a = App.maxCycles) by lia.
    eexists. eapply App.cycles_end.
    + rewrite (runCycles_at_limit a E Hst). apply completes_done.
    + exact (proj2 (proj2 (proj2 (proj2 (stopped_at_limit a Hnc))))).
  - assert (Hlt : (App.cycleCount a < App.maxCycles)%nat) by lia.
    destruct (runCycles_completes a Hlt Hst Hgo) as [a1 Hrun].
    destruct (runCycles_one_cycle a a1 (ok tt) Hlt Hst Hgo Hrun)
      as (Hc1 & Hs1 & Hg1 & Ht1 & Hcalls1).
    destruct (IH (App.clearTimeout (App.nextTimer a) a1)) as [af Haf].
    + cbn [App.clearTimeout App.set_timers App.cycleCount]. lia.
    + cbn [App.clearTimeout App.set_timers App.cycleCount]. lia.
    + exact Hs1.
    + exact Hg1.
    + eapply (next_cycle_cleared a _ _ _ Hnc). simpl. rewrite Ht1. reflexivity.
    + exists af. eapply App.cycles_next;
        [ exact Hrun | | exact (next_cycle_scheduled a _ _ a1 Hnc Ht1)
        | exact Haf ].
      split; [exact Hs1 | repeat split].
Qed.

(** C5, as the code has it.  In every run of the supervisor in which the
    status stays ["computing"], nobody cancels and every scan starts, 100
    cycles are executed, each making its two scans, and then the supervisor
    stops and reports ["Computation timeout"]; and such runs exist.  At the
    limit [runCycles] starts no cycle, so there is never a 101st. *)
Theorem power_cycling_times_out a :
  App.statusRef a = App.computing ->
  App.next_cycle a = None ->
  (forall af,
     App.supervised undisturbed all_resolve a af ->
     App.cycleCount af = 100%nat
     /\ App.error af = App.ComputationTimeout
     /\ App.powerCycleIntervalRef af = App.NoHandle
     /\ App.calls af
        = App.calls a ++ List.concat (repeat cycle_calls 100)
          ++ [App.StopScan; App.StopScan]
     /\ App.next_cycle af = None)
  /\ (exists af, App.supervised undisturbed all_resolve a af)
  /\ (forall b,
        App.cycleCount b = 100%nat -> App.statusRef b = App.computing ->
        exists bf,
          App.runCycles b = Done bf (ok tt)
          /\ App.cycleCount bf = 100%nat /\ App.calls bf
             = App.calls b ++ [App.StopScan; App.StopScan]).
Proof.
  intros Hst Hnc. split; [|split].
  - intros af H.
    exact (cycles_run _ af H Hst eq_refl (Nat.le_0_l _) Hnc).
  - apply (cycles_exist App.maxCycles (App.started a));
      try reflexivity; try assumption. apply Nat.le_0_l.
  - intros b Hb Hsb. eexists. split; [exact (runCycles_at_limit b Hb Hsb)|].
    unfold App.stopPowerCycling.
    destruct (App.powerCycleIntervalRef b) eqn:E; simpl; rewrite ?E; simpl;
      rewrite <- ?app_assoc; (split; [exact Hb | reflexivity]).
Qed.

(** The theorem on the application as signing leaves it. *)
Lemma power_cycling_times_out_witness :
  App.statusRef App.signing = App.computing
  /\ App.next_cycle App.signing = None
  /\ exists af, App.supervised undisturbed all_resolve App.signing af
                /\ App.cycleCount af = 100%nat
                /\ App.error af = App.ComputationTimeout.
Proof.
  split; [reflexivity|]. split; [reflexivity|].
  destruct (power_cycling_times_out App.signing eq_refl eq_refl)
    as (Hall & [af Haf] & _).
  exists af. split; [exact Haf|].
  destruct (Hall af Haf) as (H1 & H2 & _). split; assumption.
Defined.

(** C5, as claimed, fails: the status stays ["computing"] and nobody
    cancels, but the first scan is refused; the supervisor stops after the
    one cycle it began and reports nothing. *)
Lemma refused_scan_ends_power_cycling :
  option_map (fun a => (App.cycleCount a, App.error a, App.statusRef a,
                        App.next_cycle a, App.calls a))
             (App.supervise [[inl NotAllowedError]] (App.started App.signing))
  = Some (1%nat, App.NoError, App.computing, None,
          [App.StartScan App.cycleOpts; App.StopScan]).
Proof. vm_compute. reflexivity. Qed.

(* ================================================================== *)
(** * The theorems at concrete states *)
(* ================================================================== *)

(** A sequence of events that can happen leads to the state it leads
    to. *)
Lemma some_the_state (o : option sys) :
  match o with Some _ => true | None => false end = true ->
  o = Some (the_state o).
Proof. destruct o; [reflexivity | discriminate]. Qed.

(** C7 at the session without a tag: at 5050 ms the last update is 5000 ms
    old, the last deep reset is not yet due again, and the tick performs a
    deep reset. *)
Lemma stale_tick_performs_deep_reset_witness :
  isSupported (env stale_world) = true
  /\ (staleAfterRef (refs stale_world)
      <=? of_Z (clock (env stale_world)
                - lastUpdateTsRef (refs stale_world)))%float = true
  /\ (deepEveryRef (refs stale_world)
      <=? of_Z (clock (env stale_world)
                - lastDeepResetTsRef (refs stale_world)))%float = false
  /\ tick stale_world = deepReset stale_world.
Proof.
  assert (H1 : isSupported (env stale_world) = true)
    by (vm_compute; reflexivity).
  assert (H2 : (staleAfterRef (refs stale_world)
                <=? of_Z (clock (env stale_world)
                          - lastUpdateTsRef (refs stale_world)))%float
               = true)
    by (vm_compute; reflexivity).
  split; [exact H1|]. split; [exact H2|].
  split; [vm_compute; reflexivity|].
  exact (proj1 (stale_tick_performs_deep_reset stale_world H1 H2)).
Defined.

(** C10 on two sessions: the status passed on in the first session is read
    again as the first reading of the second, and is passed on again. *)
Lemma first_parsed_read_of_a_session_is_emitted_witness :
  let run := steps (PF := Sample.platform) (CB := Sample.consumer) in
  let step1 := step (PF := Sample.platform) (CB := Sample.consumer) in
  let s0 := the_state (run first_session (mounted true 0)) in
  let s1 := the_state (step1 (Call (CallStartScan None)) s0) in
  let s2 := the_state (run second_session_start s1) in
  let ev := Sample.text_event "R:i=128" in
  let s3 := the_state (step1 (Reading ev) s2) in
  readings (env (W s0)) = [(serialNumber ev, status_128)]
  /\ lastPayloadRef (refs (W s0)) = Sample.JSON_stringify status_128
  /\ step1 (Reading ev) s2 = Some s3
  /\ readings (env (W s3))
     = readings (env (W s2)) ++ [(serialNumber ev, status_128)].
Proof.
  intros run step1 s0 s1 s2 ev s3.
  split; [vm_compute; reflexivity|].
  split; [vm_compute; reflexivity|].
  assert (Hread : step1 (Reading ev) s2 = Some s3)
    by (apply some_the_state; vm_compute; reflexivity).
  split; [exact Hread|].
  refine (proj2 (@first_parsed_read_of_a_session_is_emitted
                   Sample.platform Sample.consumer s0 (CallStartScan None) s1
                   second_session_start s2 ev status_128 s3
                   _ I _ _ _ _ _ Hread)).
  - exists true, 0, first_session.
    apply some_the_state. vm_compute. reflexivity.
  - apply some_the_state. vm_compute. reflexivity.
  - repeat constructor.
  - apply some_the_state. vm_compute. reflexivity.
  - vm_compute. reflexivity.
  - vm_compute. discriminate.
Defined.

(* ================================================================== *)
(** * Regular expressions: what a match tells *)
(* ================================================================== *)

(** Whatever the matcher finds, the pattern can lead there. *)
Lemma matchk_sound r :
  forall s k m, matchk r s k = Some m ->
    exists s1, matches r s s1 /\ k s1 = Some m.
Proof.
  induction r as [|q|r1 IH1 r2 IH2|r1 IH1 r2 IH2|r1 IH1|i r1 IH1| | |];
    intros s k m H; cbn [matchk] in H.
  - exists s. split; [constructor | exact H].
  - destruct (rest s) as [|c tl] eqn:E; [discriminate|].
    destruct (q c) eqn:Eq; [|discriminate].
    eexists. split; [|exact H]. now apply matches_chr.
  - apply IH1 in H. destruct H as (s1 & H1 & H).
    apply IH2 in H. destruct H as (s2 & H2 & H).
    exists s2. split; [econstructor; eassumption | exact H].
  - destruct (matchk r1 s k) as [m'|] eqn:E.
    + injection H as <-. apply IH1 in E. destruct E as (s1 & H1 & E).
      exists s1. split; [now apply matches_alt_l | exact E].
    + apply IH2 in H. destruct H as (s1 & H1 & H).
      exists s1. split; [now apply matches_alt_r | exact H].
  - revert H. generalize (S (List.length (rest s))) as fuel. intros fuel.
    revert s. induction fuel as [|f IHf]; intros s H; cbn [star_iter] in H.
    + exists s. split; [constructor | exact H].
    + match type of H with
      | match ?x with _ => _ end = _ => destruct x as [m'|] eqn:E
      end.
      * injection H as <-. apply IH1 in E. destruct E as (s1 & H1 & E).
        destruct (Nat.leb (pos s1) (pos s)) eqn:El; [discriminate|].
        apply Nat.leb_gt in El.
        apply IHf in E. destruct E as (s2 & H2 & E).
        exists s2. split; [|exact E].
        eapply matches_star_more; eassumption.
      * exists s. split; [constructor | exact H].
  - apply IH1 in H. destruct H as (s1 & H1 & H).
    eexists. split; [apply matches_group; exact H1 | exact H].
  - destruct (prev s) eqn:E; [discriminate|].
    exists s. split; [now constructor | exact H].
  - destruct (rest s) eqn:E; [|discriminate].
    exists s. split; [now constructor | exact H].
  - destruct (xorb _ _) eqn:E; [|discriminate].
    exists s. split; [now constructor | exact H].
Qed.

Lemma match_here_sound r p i s m :
  match_here r p i s = Some m -> matches r (MState p s i []) m.
Proof.
  intros H. apply matchk_sound in H. destruct H as (s1 & H1 & H).
  now injection H as <-.
Qed.

(** A match passes over code units of the pattern's class only, and the
    cursor counts them. *)
Lemma matches_consumes p r s s1 :
  units_in p r -> matches r s s1 ->
  exists u, rest s = u ++ rest s1
            /\ Forall (fun c => p c = true) u
            /\ pos s1 = (pos s + List.length u)%nat.
Proof.
  intros Hr H. induction H; simpl in Hr.
  - exists []. simpl. split; [reflexivity|]. split; [constructor | lia].
  - exists [c]. simpl. split; [assumption|]. split; [|lia].
    constructor; [now apply Hr | constructor].
  - destruct Hr as [Hr1 Hr2].
    destruct (IHmatches1 Hr1) as (u1 & E1 & F1 & P1).
    destruct (IHmatches2 Hr2) as (u2 & E2 & F2 & P2).
    exists (u1 ++ u2). rewrite <- app_assoc, <- E2, E1.
    split; [reflexivity|].
    split; [now apply Forall_app | rewrite length_app; lia].
  - apply IHmatches, Hr.
  - apply IHmatches, Hr.
  - exists []. simpl. split; [reflexivity|]. split; [constructor | lia].
  - destruct (IHmatches1 Hr) as (u1 & E1 & F1 & P1).
    destruct (IHmatches2 Hr) as (u2 & E2 & F2 & P2).
    exists (u1 ++ u2). rewrite <- app_assoc, <- E2, E1.
    split; [reflexivity|].
    split; [now apply Forall_app | rewrite length_app; lia].
  - destruct (IHmatches Hr) as (u & E & F & P). exists u. simpl. auto.
  - exists []. simpl. split; [reflexivity|]. split; [constructor | lia].
  - exists []. simpl. split; [reflexivity|]. split; [constructor | lia].
  - exists []. simpl. split; [reflexivity|]. split; [constructor | lia].
Qed.

Lemma only_any r : units_in (fun _ => true) r.
Proof. induction r; simpl; auto. Qed.

(** Exactly [n] code units are passed by [n] copies of a character test. *)
Lemma matches_times n q : forall s s1,
  matches (times n (Chr q)) s s1 -> pos s1 = (pos s + n)%nat.
Proof.
  induction n as [|n IH]; intros s s1 H; simpl in H.
  - inversion H; subst. lia.
  - inversion H as [| |? ? ? sm ? Hc Ht| | | | | | | |]; subst.
    inversion Hc; subst. apply IH in Ht. simpl in Ht. lia.
Qed.

(** Where the leftmost match begins: after a prefix at which no attempt is
    made again. *)
Lemma search_sound r : forall s p i j m,
  search r p i s = Some (j, m) ->
  exists pre s',
    s = pre ++ s' /\ j = (i + List.length pre)%nat
    /\ match_here r (prev_after p pre) j s' = Some m.
Proof.
  induction s as [|c s IH]; intros p i j m H; simpl in H.
  - destruct (match_here r p i []) as [m'|] eqn:E; [|discriminate].
    injection H as <- <-. exists [], []. simpl.
    repeat split; [lia | exact E].
  - destruct (match_here r p i (c :: s)) as [m'|] eqn:E.
    + injection H as <- <-. exists [], (c :: s). simpl.
      repeat split; [lia | exact E].
    + apply IH in H. destruct H as (pre & s' & -> & -> & H).
      exists (c :: pre), s'. simpl. repeat split; [lia | exact H].
Qed.

Lemma prev_after_none p pre : prev_after p pre = None -> pre = [].
Proof.
  destruct pre as [|c pre]; [reflexivity|]. unfold prev_after. simpl.
  intros H. exfalso. revert c H.
  induction pre as [|d pre IH]; intros c H; simpl in H;
    [discriminate | exact (IH d H)].
Qed.

(** A match found by [exec]: the text is a prefix, the matched part and a
    rest; the matched part is entry 0 of the result. *)
Lemma exec_sound p r t j m :
  units_in p r -> exec r t = Some (j, m) ->
  exists pre u,
    t = pre ++ u ++ rest m
    /\ j = List.length pre
    /\ Forall (fun c => p c = true) u
    /\ whole t (j, m) = u
    /\ matches r (MState (prev_after None pre) (u ++ rest m) j []) m.
Proof.
  intros Hr H. unfold exec in H. apply search_sound in H.
  destruct H as (pre & s' & -> & -> & H). simpl.
  apply match_here_sound in H.
  destruct (matches_consumes p r _ _ Hr H) as (u & E & F & P).
  simpl in E, P. subst s'.
  exists pre, u. repeat split; try assumption.
  unfold whole, substring. simpl. rewrite P.
  rewrite skipn_app, skipn_all, Nat.sub_diag. simpl.
  replace (List.length pre + List.length u - List.length pre)%nat
    with (List.length u + 0)%nat by lia.
  now rewrite firstn_app_2, firstn_O, app_nil_r.
Qed.

(** A pattern that begins with [^] matches at the beginning only. *)
Lemma anchored_exec p r t j m :
  units_in p r -> exec (Seq Bol r) t = Some (j, m) ->
  j = 0%nat /\ exists u, t = u ++ rest m
                         /\ Forall (fun c => p c = true) u
                         /\ matches r (MState None t 0 []) m.
Proof.
  intros Hr H.
  destruct (exec_sound p (Seq Bol r) t j m (conj I Hr) H)
    as (pre & u & Et & Ej & F & _ & Hm).
  inversion Hm as [| |? ? ? sm ? Hb Hrest| | | | | | | |]; subst.
  inversion Hb as [| | | | | | | |? Hp| |]; subst. simpl in Hp.
  apply prev_after_none in Hp. subst pre. simpl in *.
  split; [reflexivity|]. exists u. repeat split; assumption.
Qed.

(* ================================================================== *)
(** * Trimming *)
(* ================================================================== *)

Lemma trimStart_all_space t : all_space t -> trimStart t = [].
Proof. induction 1 as [|c t Hc _ IH]; simpl; [|rewrite Hc]; auto. Qed.

Lemma trimStart_app_space a t : all_space a -> trimStart (a ++ t) = trimStart t.
Proof. induction 1 as [|c a Hc _ IH]; simpl; [|rewrite Hc]; auto. Qed.

Lemma trimStart_nil t : trimStart t = [] -> all_space t.
Proof.
  induction t as [|c t IH]; simpl; [constructor|].
  destruct (is_space c) eqn:E; [|discriminate].
  intros H. constructor; [exact E | exact (IH H)].
Qed.

Lemma trimStart_app t b :
  trimStart t <> [] -> trimStart (t ++ b) = trimStart t ++ b.
Proof.
  induction t as [|c t IH]; simpl; [contradiction|].
  destruct (is_space c); [exact IH | reflexivity].
Qed.

Lemma trimStart_head t c r : trimStart t = c :: r -> is_space c = false.
Proof.
  induction t as [|d t IH]; simpl; [discriminate|].
  destruct (is_space d) eqn:E; [exact IH|].
  intros H. injection H as -> _. exact E.
Qed.

Lemma trimStart_suffix t : exists a, all_space a /\ t = a ++ trimStart t.
Proof.
  induction t as [|c t (a & Ha & E)]; simpl.
  - exists []. split; [constructor | reflexivity].
  - destruct (is_space c) eqn:Ec.
    + exists (c :: a). split; [now constructor | simpl; congruence].
    + exists []. split; [constructor | reflexivity].
Qed.

Lemma all_space_rev t : all_space t -> all_space (rev t).
Proof. apply Forall_rev. Qed.

Lemma trimEnd_app_space t b : all_space b -> trimEnd (t ++ b) = trimEnd t.
Proof.
  intros Hb. unfold trimEnd.
  now rewrite rev_app_distr, trimStart_app_space by now apply all_space_rev.
Qed.

Lemma trimEnd_app a t : trimEnd t <> [] -> trimEnd (a ++ t) = a ++ trimEnd t.
Proof.
  unfold trimEnd. intros H.
  rewrite rev_app_distr, trimStart_app, rev_app_distr, rev_involutive;
    [reflexivity|].
  intros E. apply H. now rewrite E.
Qed.

Lemma trimEnd_prefix t : exists b, all_space b /\ t = trimEnd t ++ b.
Proof.
  destruct (trimStart_suffix (rev t)) as (a & Ha & E).
  exists (rev a). split; [now apply all_space_rev|].
  unfold trimEnd. rewrite <- rev_app_distr, <- E. now rewrite rev_involutive.
Qed.

(** White space around a text does not show after trimming. *)
Lemma trim_pad a t b :
  all_space a -> all_space b -> trim (a ++ t ++ b) = trim t.
Proof.
  intros Ha Hb. unfold trim. rewrite trimStart_app_space by exact Ha.
  destruct (trimStart t) as [|c r] eqn:E.
  - rewrite trimStart_all_space; [reflexivity|].
    apply Forall_app. split; [now apply trimStart_nil | exact Hb].
  - rewrite trimStart_app, E by (rewrite E; discriminate).
    now apply trimEnd_app_space.
Qed.

Lemma trim_all_space t : all_space t -> trim t = [].
Proof. intros H. unfold trim. now rewrite trimStart_all_space. Qed.

(** A trimmed text is empty, or begins and ends with something else than
    white space. *)
Lemma trimEnd_last t c r :
  rev (trimEnd t) = c :: r -> is_space c = false.
Proof.
  unfold trimEnd. rewrite rev_involutive. apply trimStart_head.
Qed.

Lemma trimEnd_head c t :
  is_space c = false -> exists r, trimEnd (c :: t) = c :: r.
Proof.
  intros Hc. destruct (trimEnd_prefix (c :: t)) as (b & Hb & E).
  destruct (trimEnd (c :: t)) as [|d r].
  - simpl in E. subst b. inversion Hb; congruence.
  - injection E as <- _. eauto.
Qed.

Lemma trim_head t c r : trim t = c :: r -> is_space c = false.
Proof.
  unfold trim. intros H.
  destruct (trimStart t) as [|d u] eqn:E; [discriminate|].
  pose proof (trimStart_head _ _ _ E) as Hd.
  destruct (trimEnd_head d u Hd) as (r' & E'). rewrite E' in H.
  now injection H as <- _.
Qed.

Lemma trim_last t c r : rev (trim t) = c :: r -> is_space c = false.
Proof. unfold trim. apply trimEnd_last. Qed.

(** Something without white space inside a text is still inside it after
    trimming. *)
Lemma trimStart_keeps pre x post :
  x <> [] -> no_space x ->
  exists pre', trimStart (pre ++ x ++ post) = pre' ++ x ++ post.
Proof.
  intros Hne Hx. destruct (trimStart pre) as [|c r] eqn:E.
  - exists []. rewrite trimStart_app_space by now apply trimStart_nil.
    destruct Hx as [|c x Hc _]; [contradiction|]. simpl. now rewrite Hc.
  - exists (c :: r). now rewrite trimStart_app, E by (rewrite E; discriminate).
Qed.

Lemma trim_keeps pre x post :
  x <> [] -> no_space x ->
  exists pre' post', trim (pre ++ x ++ post) = pre' ++ x ++ post'.
Proof.
  intros Hne Hx. unfold trim.
  destruct (trimStart_keeps pre x post Hne Hx) as (pre' & ->).
  unfold trimEnd. rewrite !rev_app_distr, <- app_assoc.
  destruct (trimStart_keeps (rev post) (rev x) (rev pre')) as (post' & ->).
  - intros E. apply Hne. now rewrite <- (rev_involutive x), E.
  - now apply Forall_rev.
  - exists pre', (rev post').
    now rewrite !rev_app_distr, !rev_involutive, <- app_assoc.
Qed.

(* ================================================================== *)
(** * Status decoder: padding, blank texts, errors first *)
(* ================================================================== *)

(** X1. White space before and after a text makes no difference to the
    status decoder: the text is trimmed before any pattern is tried. *)
Theorem decoder_ignores_padding a t b :
  all_space a -> all_space b ->
  parseEdSignTextStatus (a ++ t ++ b) = parseEdSignTextStatus t.
Proof.
  intros Ha Hb. unfold parseEdSignTextStatus. now rewrite trim_pad.
Qed.

(** The theorem on [" busy"] followed by a line feed. *)
Lemma decoder_ignores_padding_witness :
  all_space [32%N] /\ all_space [10%N]
  /\ parseEdSignTextStatus ([32%N] ++ lit "busy" ++ [10%N])
     = Some (Status.only BUSY).
Proof.
  assert (Ha : all_space [32%N]) by (repeat constructor).
  assert (Hb : all_space [10%N]) by (repeat constructor).
  split; [exact Ha|]. split; [exact Hb|].
  etransitivity;
    [exact (decoder_ignores_padding [32%N] (lit "busy") [10%N] Ha Hb)|].
  vm_compute. reflexivity.
Defined.

Lemma search_finds r s :
  (forall p i, match_here r p i s <> None) ->
  forall pre p i, search r p i (pre ++ s) <> None.
Proof.
  intros H pre. induction pre as [|c pre IH]; intros p i.
  - specialize (H p i). simpl.
    destruct s; simpl; destruct (match_here _ _ _ _); congruence.
  - simpl. destruct (match_here _ _ _ _); [discriminate | apply IH].
Qed.

Lemma test_finds r s pre :
  (forall p i, match_here r p i s <> None) -> test r (pre ++ s) = true.
Proof.
  intros H. unfold test, exec.
  pose proof (search_finds r s H pre None 0%nat).
  now destruct (search _ _ _ _).
Qed.

Lemma fold_case_inv c a :
  fold_case c = a -> c = a \/ (c = a + 32)%N /\ is_lower c = true.
Proof.
  unfold fold_case. destruct (is_lower c) eqn:E; [|now left].
  intros <-. right. split; [|reflexivity].
  unfold is_lower, between in E.
  rewrite andb_true_iff, !N.leb_le in E. lia.
Qed.

(** [/err(or)?/i] at a text that begins with some casing of ["err"]. *)
Lemma error_matches_here c1 c2 c3 post p i :
  fold_case c1 = 69%N -> fold_case c2 = 82%N -> fold_case c3 = 82%N ->
  match_here Pat.error p i (c1 :: c2 :: c3 :: post) <> None.
Proof.
  intros H1 H2 H3. unfold match_here.
  change Pat.error
    with (Seq (Seq (chi "e") (Seq (chi "r") (chi "r")))
              (Alt (Group 1 (stri "or")) Eps)).
  cbn [matchk]. unfold chi.
  rewrite !matchk_chr_cons.
  change (fold_case (of_ascii "e")) with 69%N.
  change (fold_case (of_ascii "r")) with 82%N.
  rewrite H1, H2, H3.
  change (cu_eqb 69%N 69%N) with true. change (cu_eqb 82%N 82%N) with true.
  cbv iota.
  destruct (matchk (stri "or") _ _); discriminate.
Qed.

(** X2. Errors come first: a text that has ["err"] anywhere in it, in any
    casing, is decoded as [ERROR], whatever else it holds, and the error
    text is the whole trimmed text. *)
Theorem error_text_is_an_error pre x post :
  map fold_case x = lit "ERR" ->
  parseEdSignTextStatus (pre ++ x ++ post)
  = Some (Status.Make ERROR (Some (trim (pre ++ x ++ post)))
                      None None None None None).
Proof.
  intros Hx.
  destruct x as [|c1 [|c2 [|c3 [|]]]]; try discriminate.
  injection Hx as H1 H2 H3.
  assert (Hns : no_space [c1; c2; c3]).
  { repeat constructor;
      match goal with
      | |- is_space ?c = false =>
          match goal with
          | H : fold_case c = _ |- _ =>
              destruct (fold_case_inv _ _ H) as [->|[-> _]]; reflexivity
          end
      end. }
  destruct (trim_keeps pre [c1; c2; c3] post ltac:(discriminate) Hns)
    as (pre' & post' & E).
  unfold parseEdSignTextStatus. rewrite E.
  rewrite (test_finds Pat.error ([c1; c2; c3] ++ post') pre');
    [reflexivity|].
  intros p i. now apply error_matches_here.
Qed.

(** The theorem on a text that also names a phase. *)
Lemma error_text_is_an_error_witness :
  map fold_case (lit "Err") = lit "ERR"
  /\ option_map Status.state
       (parseEdSignTextStatus (lit "PH_INIT_K " ++ lit "Err" ++ lit "or 7"))
     = Some ERROR.
Proof.
  split; [reflexivity|].
  now rewrite (error_text_is_an_error (lit "PH_INIT_K ") (lit "Err")
                 (lit "or 7") eq_refl).
Defined.

(* ================================================================== *)
(** * Status decoder: what a decoded status looks like *)
(* ================================================================== *)

Lemma at_text_start pre s : at_text (pre ++ s) (MState (prev_after None pre) s
                                                       (List.length pre) []).
Proof.
  unfold at_text. simpl.
  now rewrite skipn_app, skipn_all, Nat.sub_diag.
Qed.

Lemma matches_at_text r s s1 t :
  matches r s s1 -> at_text t s -> at_text t s1.
Proof.
  intros H Hs.
  destruct (matches_consumes _ r s s1 (only_any r) H) as (u & E & _ & P).
  unfold at_text in *. rewrite P, Nat.add_comm, <- skipn_skipn, <- Hs, E.
  now rewrite skipn_app, skipn_all, Nat.sub_diag.
Qed.

(** What a pattern passed over, as a piece of the text. *)
Lemma matches_substring p r s s1 t :
  units_in p r -> matches r s s1 -> at_text t s ->
  Forall (fun c => p c = true) (substring (pos s) (pos s1) t)
  /\ List.length (substring (pos s) (pos s1) t) = (pos s1 - pos s)%nat.
Proof.
  intros Hr H Hs.
  destruct (matches_consumes p r s s1 Hr H) as (u & E & F & P).
  unfold substring. unfold at_text in Hs. rewrite <- Hs, E, P.
  replace (pos s + List.length u - pos s)%nat
    with (List.length u + 0)%nat by lia.
  rewrite firstn_app_2, firstn_O, app_nil_r.
  split; [exact F | lia].
Qed.

Lemma matches_cat_snoc l r s m :
  matches (cat (l ++ [r])) s m ->
  exists s1, matches (cat l) s s1 /\ matches r s1 m.
Proof.
  revert s. induction l as [|x l IH]; intros s H.
  - exists s. split; [constructor | exact H].
  - destruct l as [|y l].
    + simpl in H. inversion H; subst. eauto.
    + change (cat ((x :: y :: l) ++ [r]))
        with (Seq x (cat ((y :: l) ++ [r]))) in H.
      inversion H as [| |? ? ? sm ? Hx Hrest| | | | | | | |]; subst.
      apply IH in Hrest. destruct Hrest as (s1 & H1 & H2).
      exists s1. split; [|exact H2].
      change (cat (x :: y :: l)) with (Seq x (cat (y :: l))).
      econstructor; eassumption.
Qed.

(** A group of one or more code units of a class, at the end of a
    pattern: what it captures is a non-empty run of the class. *)
Lemma group_captured i q t s j m :
  matches (Group i (plus (Chr q))) s m -> at_text t s ->
  exists d, group i t (j, m) = Some d /\ d <> []
            /\ Forall (fun c => q c = true) d.
Proof.
  intros H Hs.
  inversion H as [| | | | | | |? ? ? s1 Hin| | |]; subst.
  unfold group. cbn [snd caps find fst]. rewrite Nat.eqb_refl.
  assert (Ho : units_in q (plus (Chr q))) by (simpl; auto).
  destruct (matches_substring q _ s s1 t Ho Hin Hs) as [F L].
  eexists. split; [reflexivity|]. split; [|exact F].
  intros E. rewrite E in L. simpl in L.
  inversion Hin as [| |? ? ? sm ? Hc Hstar| | | | | | | |]; subst.
  inversion Hc; subst.
  destruct (matches_consumes _ _ _ _ (only_any (Star (Chr q))) Hstar)
    as (u & _ & _ & P).
  simpl in P. lia.
Qed.

Lemma exec_group_captured i q l t j m :
  exec (cat (l ++ [Group i (plus (Chr q))])) t = Some (j, m) ->
  exists d, group i t (j, m) = Some d /\ d <> []
            /\ Forall (fun c => q c = true) d.
Proof.
  intros H.
  destruct (exec_sound _ _ t j m (only_any _) H)
    as (pre & u & Et & Ej & _ & _ & Hm).
  apply matches_cat_snoc in Hm. destruct Hm as (s1 & H1 & H2).
  apply (group_captured i q t s1 j m H2).
  apply (matches_at_text _ _ _ t H1).
  rewrite Et, Ej. apply at_text_start.
Qed.

Lemma test_all_hex_inv t : test Pat.all_hex t = true -> all_hex t.
Proof.
  unfold test. destruct (exec Pat.all_hex t) as [[j m]|] eqn:E;
    [intros _ | discriminate].
  change Pat.all_hex with (Seq Bol (Seq (plus hex) Eol)) in E.
  assert (Ho : units_in is_hex (Seq (plus hex) Eol)) by (simpl; auto).
  destruct (anchored_exec is_hex _ t j m Ho E) as (_ & u & Et & F & Hm).
  inversion Hm as [| |? ? ? sm ? _ He| | | | | | | |]; subst.
  inversion He as [| | | | | | | | |? Hr|]; subst.
  rewrite Hr, app_nil_r. exact F.
Qed.

Lemma only_times p n r : units_in p r -> units_in p (times n r).
Proof. intros H. induction n; simpl; auto. Qed.

Lemma long_hex_is_hex t h :
  option_map (whole t) (exec Pat.long_hex t) = Some h -> all_hex h.
Proof.
  destruct (exec Pat.long_hex t) as [[j m]|] eqn:E; [|discriminate].
  simpl. intros H. injection H as <-.
  assert (Ho : units_in is_hex Pat.long_hex).
  { change Pat.long_hex
      with (Seq WordB (Seq (Seq (times 64 hex) (Star hex)) WordB)).
    cbn [units_in]. split; [exact I|]. split; [|exact I].
    split; [apply only_times|]; cbn [units_in hex]; auto. }
  destruct (exec_sound is_hex _ t j m Ho E) as (pre & u & _ & _ & F & -> & _).
  exact F.
Qed.

(** X3. Whatever text it is given, a status the decoder returns is a
    member of the declared type [EdSignStatus] with the fields of its
    variant and no others; its error text is the trimmed text; a step
    count is always the value of a non-empty run of decimal digits (never
    [NaN]); a signature always has 128 hexadecimal digits and a public key
    is the whole trimmed text, of 64 hexadecimal digits. *)
Theorem decoded_status_is_well_formed text s :
  parseEdSignTextStatus text = Some s -> well_formed (trim text) s.
Proof.
  unfold parseEdSignTextStatus. set (t := trim text).
  destruct (test Pat.error t);
    [intros H; injection H as <-; reflexivity|].
  destruct (test Pat.init_k t);
    [intros H; injection H as <-; reflexivity|].
  destruct (test Pat.init_r t);
    [intros H; injection H as <-; reflexivity|].
  destruct (exec Pat.r_work t) as [[j m]|] eqn:Er.
  { intros H. injection H as <-. right.
    destruct (exec_group_captured 1 is_digit
                [chi "R"; spaces; opt (ch ":"); spaces; chi "i"; spaces;
                 ch "="; spaces] t j m Er) as (d & -> & Hd).
    exists d. split; [apply Hd|]. split; [apply Hd | reflexivity]. }
  destruct (test Pat.r_line t).
  { destruct (exec Pat.number t) as [[j m]|] eqn:En;
      intros H; injection H as <-; [right | left; reflexivity].
    destruct (exec_group_captured 1 is_digit [] t j m En) as (d & -> & Hd).
    exists d. split; [apply Hd|]. split; [apply Hd | reflexivity]. }
  destruct (test Pat.r_done t);
    [intros H; injection H as <-; reflexivity|].
  destruct (Nat.eqb (List.length t) 128 && test Pat.all_hex t)%bool eqn:E128.
  { intros H. injection H as <-. apply andb_true_iff in E128.
    destruct E128 as [L T]. apply Nat.eqb_eq in L.
    exists (Some t). split; [reflexivity|].
    intros h E. injection E as <-. split; [exact L|].
    now apply test_all_hex_inv. }
  destruct (Nat.eqb (List.length t) 64 && test Pat.all_hex t)%bool eqn:E64.
  { intros H. injection H as <-. apply andb_true_iff in E64.
    destruct E64 as [L T]. apply Nat.eqb_eq in L.
    split; [reflexivity|]. split; [exact L|]. now apply test_all_hex_inv. }
  destruct (test Pat.busy t);
    [intros H; injection H as <-; reflexivity|].
  destruct (test Pat.sig t).
  { destruct (option_map (whole t) (exec Pat.long_hex t)) as [h|] eqn:Eh.
    - destruct (negb (str_eqb h []) && Nat.eqb (List.length h) 128)%bool
        eqn:El; intros H; injection H as <-.
      + exists (Some h). split; [reflexivity|].
        intros h' E. injection E as <-.
        apply andb_true_iff in El. destruct El as [_ L].
        apply Nat.eqb_eq in L. split; [exact L|].
        exact (long_hex_is_hex t h Eh).
      + exists None. split; [reflexivity | discriminate].
    - intros H. injection H as <-.
      exists None. split; [reflexivity | discriminate]. }
  destruct (test Pat.done t); [|discriminate].
  intros H. injection H as <-.
  exists None. split; [reflexivity | discriminate].
Qed.

(** The theorem on the canonical frame of the R phase. *)
Lemma decoded_status_is_well_formed_witness :
  let s := Status.Make PH_R_WORK None None (Some 128%float) None None None in
  parseEdSignTextStatus (lit "R:i=128") = Some s
  /\ well_formed (trim (lit "R:i=128")) s.
Proof.
  intros s.
  assert (H : parseEdSignTextStatus (lit "R:i=128") = Some s)
    by (vm_compute; reflexivity).
  split; [exact H|].
  exact (decoded_status_is_well_formed (lit "R:i=128") s H).
Defined.

(* ================================================================== *)
(** * Status decoder: the canonical frame of the R phase *)
(* ================================================================== *)

(** Greedy iteration of a character test runs over a whole run of the
    class when what follows the iteration matches at its end. *)
Lemma star_greedy q k l :
  Forall (fun c => q c = true) l ->
  forall fuel pr i cs m,
    (List.length l < fuel)%nat ->
    k (MState (prev_after pr l) [] (i + List.length l)%nat cs) = Some m ->
    star_iter (matchk (Chr q)) k fuel (MState pr l i cs) = Some m.
Proof.
  induction 1 as [|c l Hc _ IH]; intros fuel pr i cs m Hf Hk.
  - simpl in Hk. rewrite Nat.add_0_r in Hk.
    destruct fuel as [|f]; [inversion Hf|]. cbn [star_iter].
    cbn [matchk rest]. exact Hk.
  - destruct fuel as [|f]; [inversion Hf|]. simpl in Hf.
    cbn [star_iter]. rewrite matchk_chr_cons, Hc. cbn [pos].
    replace (Nat.leb (S i) i) with false
      by (symmetry; apply Nat.leb_gt; lia).
    rewrite (IH f (Some c) (S i) cs m); [reflexivity | lia|].
    simpl in Hk. unfold prev_after.
    replace (S i + List.length l)%nat with (i + S (List.length l))%nat by lia.
    exact Hk.
Qed.

Lemma trim_fixed c t d r :
  is_space c = false -> rev (c :: t) = d :: r -> is_space d = false ->
  trim (c :: t) = c :: t.
Proof.
  intros Hc Hr Hd. unfold trim. simpl. rewrite Hc.
  unfold trimEnd. rewrite Hr. simpl. rewrite Hd.
  now rewrite <- Hr, rev_involutive.
Qed.

Lemma digit_not_space c : is_digit c = true -> is_space c = false.
Proof.
  intros H. apply hex_not_space. unfold is_hex. now rewrite H.
Qed.

Lemma frame_free d :
  all_digits d -> free (fun c => negb (frame_unit c)) (lit "R:i=" ++ d).
Proof.
  intros Hd. unfold free. apply Forall_app. split.
  - repeat constructor.
  - eapply Forall_impl; [|exact Hd]. cbv beta. intros c Hc.
    unfold frame_unit. now rewrite Hc.
Qed.

Lemma chi_excluded a (P : cu -> bool) :
  P (fold_case (of_ascii a)) = true ->
  P (fold_case (of_ascii a) + 32)%N = true ->
  forall c, cu_eqb (fold_case c) (fold_case (of_ascii a)) = true -> P c = true.
Proof.
  intros H1 H2 c E. apply cu_eqb_eq in E.
  destruct (fold_case_inv _ _ E) as [->|[-> _]]; assumption.
Qed.

Ltac needs_folded :=
  apply needs_chr; apply chi_excluded; vm_compute; reflexivity.

Lemma error_needs_e : needs (fun c => negb (frame_unit c)) Pat.error.
Proof. apply needs_seq_l, needs_seq_l. needs_folded. Qed.

Lemma init_k_needs_P : needs (fun c => negb (frame_unit c)) Pat.init_k.
Proof. apply needs_seq_r, needs_seq_l, needs_seq_l. needs_folded. Qed.

Lemma init_r_needs_P : needs (fun c => negb (frame_unit c)) Pat.init_r.
Proof. apply needs_seq_r, needs_seq_l, needs_seq_l. needs_folded. Qed.

Lemma matchk_seq a b s k :
  matchk (Seq a b) s k = matchk a s (fun s1 => matchk b s1 k).
Proof. reflexivity. Qed.

Lemma matchk_alt a b s k :
  matchk (Alt a b) s k
  = match matchk a s k with Some m => Some m | None => matchk b s k end.
Proof. reflexivity. Qed.

Lemma matchk_chr_hit q pr c l i cs k :
  q c = true ->
  matchk (Chr q) (MState pr (c :: l) i cs) k = k (MState (Some c) l (S i) cs).
Proof. intros H. now rewrite matchk_chr_cons, H. Qed.

Lemma matchk_chr_miss q pr c l i cs k :
  q c = false -> matchk (Chr q) (MState pr (c :: l) i cs) k = None.
Proof. intros H. now rewrite matchk_chr_cons, H. Qed.

Lemma matchk_group i r s k :
  matchk (Group i r) s k
  = matchk r s (fun s1 => k (MState (prev s1) (rest s1) (pos s1)
                               ((i, (pos s, pos s1)) :: caps s1))).
Proof. reflexivity. Qed.

Lemma matchk_star r s k :
  matchk (Star r) s k = star_iter (matchk r) k (S (List.length (rest s))) s.
Proof. reflexivity. Qed.

(** [\s*] before something that is no white space passes nothing. *)
Lemma spaces_skip pr c l i cs k :
  is_space c = false ->
  matchk spaces (MState pr (c :: l) i cs) k = k (MState pr (c :: l) i cs).
Proof.
  intros H. unfold spaces, space. cbn [matchk rest List.length star_iter].
  now rewrite H.
Qed.

Ltac match_step :=
  first [ rewrite matchk_seq
        | rewrite spaces_skip by (first [reflexivity | assumption])
        | rewrite matchk_chr_hit by (first [reflexivity | assumption])
        | rewrite matchk_alt ];
  cbv beta.

Lemma r_work_here c d :
  is_digit c = true -> all_digits d ->
  match_here Pat.r_work None 0 (lit "R:i=" ++ c :: d)
  = Some (MState (prev_after (Some c) d) [] (5 + List.length d)
            [(1%nat, (4%nat, (5 + List.length d)%nat))]).
Proof.
  intros Hc Hd. unfold match_here.
  pose proof (digit_not_space c Hc) as Hs.
  change Pat.r_work
    with (Seq (chi "R") (Seq spaces (Seq (Alt (ch ":") Eps)
            (Seq spaces (Seq (chi "i") (Seq spaces (Seq (ch "=")
               (Seq spaces (Group 1 (Seq digit (Star digit))))))))))).
  change (lit "R:i=" ++ c :: d)
    with (82%N :: 58%N :: 105%N :: 61%N :: c :: d).
  unfold chi, ch.
  repeat match_step.
  rewrite matchk_group, matchk_seq. unfold digit at 1.
  rewrite matchk_chr_hit by exact Hc. cbv beta.
  rewrite matchk_star. unfold digit. cbn [rest pos].
  rewrite (star_greedy is_digit _ d Hd _ (Some c) 5%nat []
             (MState (prev_after (Some c) d) [] (5 + List.length d)
                     [(1%nat, (4%nat, (5 + List.length d)%nat))]));
    [reflexivity | lia | reflexivity].
Qed.

(** X4. The canonical frame of the R phase, ["R:i="] followed by a run of
    decimal digits, whatever the digits: the decoder reports [PH_R_WORK]
    with the value of the digits as the steps remaining, and the frame
    extractor adds the progress the mapper gives for that value and a total
    of 255 steps. *)
Theorem canonical_R_frame d :
  d <> [] -> all_digits d ->
  parseEdSignTextStatus (lit "R:i=" ++ d)
  = Some (Status.Make PH_R_WORK None None (Some (Number_of_digits d)) None
                      None None)
  /\ decode_frame (lit "R:i=" ++ d)
     = Some (Status.Make PH_R_WORK None
               (Some (progress (progressFromRemaining (Number_of_digits d))))
               (Some (Number_of_digits d)) (Some TOTAL_STEPS) None None).
Proof.
  intros Hne Hd.
  assert (E : parseEdSignTextStatus (lit "R:i=" ++ d)
              = Some (Status.Make PH_R_WORK None None
                        (Some (Number_of_digits d)) None None None)).
  { destruct d as [|c d]; [contradiction|].
    inversion Hd as [|? ? Hc Hd']; subst.
    unfold parseEdSignTextStatus.
    assert (Et : trim (lit "R:i=" ++ c :: d) = lit "R:i=" ++ c :: d).
    { destruct (rev (c :: d)) as [|x r] eqn:Er.
      - apply (f_equal (@List.length _)) in Er.
        rewrite length_rev in Er. discriminate.
      - apply (trim_fixed 82%N (lit ":i=" ++ c :: d) x (r ++ rev (lit "R:i=")));
          [reflexivity | |].
        + change (82%N :: lit ":i=" ++ c :: d) with (lit "R:i=" ++ c :: d).
          now rewrite rev_app_distr, Er.
        + apply digit_not_space.
          assert (Hin : In x (c :: d))
            by (apply in_rev; rewrite Er; now left).
          exact (proj1 (Forall_forall _ _) Hd x Hin). }
    rewrite Et.
    pose proof (frame_free (c :: d) Hd) as Hfree.
    rewrite (test_needs_fails error_needs_e Hfree).
    rewrite (test_needs_fails init_k_needs_P Hfree).
    rewrite (test_needs_fails init_r_needs_P Hfree).
    unfold exec.
    change (lit "R:i=" ++ c :: d) with (82%N :: lit ":i=" ++ c :: d) at 1.
    cbn [search].
    change (82%N :: lit ":i=" ++ c :: d) with (lit "R:i=" ++ c :: d).
    rewrite (r_work_here c d Hc Hd').
    unfold group. cbn [snd caps find fst Nat.eqb].
    unfold substring.
    change (skipn 4 (lit "R:i=" ++ c :: d)) with (c :: d).
    replace (5 + List.length d - 4)%nat with (List.length (c :: d))
      by (simpl; lia).
    now rewrite firstn_all. }
  split; [exact E|]. unfold decode_frame. rewrite E. reflexivity.
Qed.

(** The theorem on 300 steps, more than the mapper's 255: the progress is
    the least, 10. *)
Lemma canonical_R_frame_witness :
  lit "300" <> [] /\ all_digits (lit "300")
  /\ option_map Status.progress (decode_frame (lit "R:i=" ++ lit "300"))
     = Some (Some 10%float).
Proof.
  assert (Hne : lit "300" <> []) by discriminate.
  assert (Hd : all_digits (lit "300")) by (repeat constructor).
  split; [exact Hne|]. split; [exact Hd|].
  etransitivity;
    [exact (f_equal (option_map Status.progress)
              (proj2 (canonical_R_frame (lit "300") Hne Hd)))|].
  vm_compute. reflexivity.
Defined.

(* ================================================================== *)
(** * Frame extractor: which records count *)
(* ================================================================== *)

Section ExtractorMore.

Context {PF : Platform}.

Lemma irrelevant_is_skipped r rs select :
  (forall x, select x = true -> (is_text x || is_json_media x)%bool = true) ->
  relevant r = false ->
  first_json select (r :: rs) = first_json select rs
  /\ first_status (r :: rs) = first_status rs
  /\ raw_texts (r :: rs) = raw_texts rs.
Proof.
  intros Hsel Hr. unfold relevant in Hr.
  apply andb_false_iff in Hr. destruct Hr as [Hr|Hr].
  - apply orb_false_iff in Hr. destruct Hr as [Ht Hj]. simpl. rewrite Ht.
    destruct (select r) eqn:Es; [|repeat split].
    apply Hsel in Es. rewrite Ht, Hj in Es. discriminate.
  - apply negb_false_iff, str_eqb_eq in Hr.
    now apply empty_text_is_skipped.
Qed.

Lemma first_json_relevant select rs :
  (forall x, select x = true -> (is_text x || is_json_media x)%bool = true) ->
  first_json select (filter relevant rs) = first_json select rs.
Proof.
  intros Hsel. induction rs as [|r rs IH]; [reflexivity|].
  cbn [filter]. destruct (relevant r) eqn:Er.
  - cbn [first_json]. rewrite IH. reflexivity.
  - rewrite IH. symmetry.
    exact (proj1 (irrelevant_is_skipped r rs select Hsel Er)).
Qed.

Lemma first_status_relevant rs :
  first_status (filter relevant rs) = first_status rs.
Proof.
  induction rs as [|r rs IH]; [reflexivity|].
  cbn [filter]. destruct (relevant r) eqn:Er.
  - cbn [first_status]. rewrite IH. reflexivity.
  - rewrite IH. symmetry.
    exact (proj1 (proj2 (irrelevant_is_skipped r rs is_text
                           ltac:(intros x ->; reflexivity) Er))).
Qed.

Lemma raw_texts_relevant rs :
  raw_texts (filter relevant rs) = raw_texts rs.
Proof.
  induction rs as [|r rs IH]; [reflexivity|].
  cbn [filter]. destruct (relevant r) eqn:Er.
  - cbn [raw_texts]. rewrite IH. reflexivity.
  - rewrite IH. symmetry.
    exact (proj2 (proj2 (irrelevant_is_skipped r rs is_text
                           ltac:(intros x ->; reflexivity) Er))).
Qed.

(** X5. Only text records and records of a JSON media type whose data
    decodes to a non-empty text take part in extraction: what an event
    parses to is what it parses to without all its other records, wherever
    they stand in the message. *)
Theorem only_relevant_records_count ev h rs :
  records ev = Some rs ->
  snd (tryParseFromEvent ev h)
  = snd (tryParseFromEvent (with_records ev (filter relevant rs)) h).
Proof.
  intros E.
  rewrite (@extraction_result _ ev h rs E).
  rewrite (@extraction_result _ (with_records ev (filter relevant rs)) h
             (filter relevant rs) eq_refl).
  rewrite !first_json_relevant, first_status_relevant, raw_texts_relevant;
    [reflexivity | |].
  - intros x ->. reflexivity.
  - intros x ->. apply orb_true_r.
Qed.

End ExtractorMore.

(** The theorem on a message with a record of another media type, a text
    record without data and a text record that says ["busy"]: the last
    alone decides. *)
Lemma only_relevant_records_count_witness :
  let other := {| recordType := lit "mime";
                  mediaType := Some (lit "application/octet-stream");
                  id := None; data := Some (Bytes (lit "{}")) |} in
  let empty := {| recordType := lit "text"; mediaType := None; id := None;
                  data := None |} in
  let busy := {| recordType := lit "text"; mediaType := None; id := None;
                 data := Some (Bytes (lit "busy")) |} in
  let ev := {| serialNumber := None; records := Some [other; empty; busy] |} in
  records ev = Some [other; empty; busy]
  /\ filter (relevant (PF := Sample.platform)) [other; empty; busy] = [busy]
  /\ snd (tryParseFromEvent (PF := Sample.platform) ev [])
     = ok (Some (PStatus (Status.only BUSY))).
Proof.
  intros other empty busy ev.
  split; [reflexivity|]. split; [vm_compute; reflexivity|].
  etransitivity;
    [exact (@only_relevant_records_count Sample.platform ev []
              [other; empty; busy] eq_refl)|].
  vm_compute. reflexivity.
Defined.

(* ================================================================== *)
(** * Frame extractor: texts that are no status *)
(* ================================================================== *)

Lemma trim_decompose t :
  exists a b, all_space a /\ all_space b /\ t = a ++ trim t ++ b.
Proof.
  destruct (trimStart_suffix t) as (a & Ha & Ea).
  destruct (trimEnd_prefix (trimStart t)) as (b & Hb & Eb).
  exists a, b. split; [exact Ha|]. split; [exact Hb|].
  unfold trim. now rewrite <- Eb.
Qed.

Lemma trim_idempotent t : trim (trim t) = trim t.
Proof.
  destruct (trim_decompose t) as (a & b & Ha & Hb & E).
  rewrite E at 2. now rewrite trim_pad.
Qed.

(** The decoder sees the trimmed text only. *)
Lemma parse_trim text :
  parseEdSignTextStatus (trim text) = parseEdSignTextStatus text.
Proof. unfold parseEdSignTextStatus. now rewrite trim_idempotent. Qed.

Lemma trim_trimmed t : trimmed (trim t).
Proof.
  split; intros c r E; [exact (trim_head t c r E) | exact (trim_last t c r E)].
Qed.

Lemma is_space_lf : is_space 10%N = true.
Proof. reflexivity. Qed.

(** [join] as the first text and what follows it, which is nothing or
    begins with the separator. *)
Lemma join_cons x l :
  exists T, join [10%N] (x :: l) = x ++ T
            /\ (T = [] \/ T = 10%N :: join [10%N] l)
            /\ (l = [] -> T = []) /\ (l <> [] -> T = 10%N :: join [10%N] l).
Proof.
  destruct l as [|y l].
  - exists []. simpl. rewrite app_nil_r.
    repeat split; auto. intros H. now contradiction H.
  - exists (10%N :: join [10%N] (y :: l)).
    repeat split; auto. discriminate.
Qed.

(** Trimmed texts joined by line feeds: when the result, white space
    around it apart, has no white space in it, it is one of the texts. *)
Lemma join_single texts : forall a h b,
  Forall trimmed texts -> all_space a -> all_space b ->
  h <> [] -> no_space h ->
  join [10%N] texts = a ++ h ++ b -> In h texts.
Proof.
  induction texts as [|x l IH]; intros a h b Ht Ha Hb Hne Hh E.
  - simpl in E. destruct a; [|discriminate]. destruct h; [|discriminate].
    contradiction.
  - inversion Ht as [|? ? Hx Hl]; subst.
    destruct (join_cons x l) as (T & ET & HT & HT0 & HT1). rewrite ET in E.
    destruct h as [|c0 h0]; [contradiction|].
    assert (Hc0 : is_space c0 = false) by now inversion Hh.
    destruct x as [|c x].
    + right. simpl in E.
      destruct l as [|y l'];
        [rewrite (HT0 eq_refl) in E; destruct a; discriminate|].
      rewrite (HT1 ltac:(discriminate)) in E.
      destruct a as [|sp a'].
      * simpl in E. injection E as E0 _. subst c0. discriminate.
      * simpl in E. injection E as _ E.
        inversion Ha; subst.
        exact (IH a' (c0 :: h0) b Hl ltac:(assumption) Hb Hne Hh E).
    + left.
      assert (Hc : is_space c = false) by exact (proj1 Hx c x eq_refl).
      destruct a as [|sp a'].
      2:{ simpl in E. injection E as E0 _. subst sp.
          inversion Ha; subst. congruence. }
      rewrite app_nil_l in E. symmetry in E.
      apply app_eq_app in E. destruct E as (m & [[E1 E2]|[E1 E2]]).
      * destruct m as [|e m']; [now rewrite app_nil_r in E1|].
        exfalso.
        assert (He : is_space e = false).
        { rewrite E1 in Hh. apply Forall_app in Hh. destruct Hh as [_ Hh].
          now inversion Hh. }
        destruct HT as [->| ->]; [discriminate|].
        injection E2 as <- _. discriminate.
      * destruct m as [|e m']; [now rewrite app_nil_r in E1|].
        exfalso.
        destruct (rev (e :: m')) as [|z zs] eqn:Er.
        { apply (f_equal (@List.length _)) in Er.
          rewrite length_rev in Er. discriminate. }
        assert (Hz : is_space z = true).
        { assert (Hin : In z (e :: m'))
            by (apply in_rev; rewrite Er; now left).
          rewrite E2 in Hb. apply Forall_app in Hb. destruct Hb as [Hb _].
          exact (proj1 (Forall_forall _ _) Hb z Hin). }
        pose proof (proj2 Hx z (zs ++ rev (c0 :: h0))) as Hlast.
        rewrite E1, rev_app_distr, Er in Hlast.
        specialize (Hlast eq_refl). congruence.
Qed.

Section ExtractorTexts.

Context {PF : Platform}.

Lemma raw_texts_trimmed rs : Forall trimmed (raw_texts rs).
Proof.
  induction rs as [|r rs IH]; simpl; [constructor|].
  destruct (is_text r); [|exact IH].
  destruct (negb _); [|exact IH].
  constructor; [apply trim_trimmed | exact IH].
Qed.

Lemma raw_texts_from rs x :
  In x (raw_texts rs) ->
  exists r, In r rs /\ is_text r = true /\ trim (safeDecode (data r)) = x.
Proof.
  induction rs as [|r rs IH]; simpl; [contradiction|].
  destruct (is_text r) eqn:Et.
  - destruct (negb _).
    + intros [E|H]; [exists r; auto|].
      destruct (IH H) as (r' & ? & ? & ?). exists r'. auto.
    + intros H. destruct (IH H) as (r' & ? & ? & ?). exists r'. auto.
  - intros H. destruct (IH H) as (r' & ? & ? & ?). exists r'. auto.
Qed.

Lemma first_status_none rs r :
  first_status rs = None -> In r rs -> is_text r = true ->
  parseEdSignTextStatus (safeDecode (data r)) = None.
Proof.
  induction rs as [|x rs IH]; simpl; [contradiction|].
  intros H [->|Hin] Ht.
  - rewrite Ht in H.
    destruct (parseEdSignTextStatus (safeDecode (data r)));
      [discriminate | reflexivity].
  - apply IH; [|exact Hin | exact Ht].
    destruct (is_text x); [|exact H].
    destruct (parseEdSignTextStatus (safeDecode (data x)));
      [discriminate | exact H].
Qed.

Lemma matches_seq_inv r1 r2 s m :
  matches (Seq r1 r2) s m -> exists s1, matches r1 s s1 /\ matches r2 s1 m.
Proof. intros H. inversion H; subst. eauto. Qed.

Lemma test_hex64_inv t :
  test LabelPat.hex64 t = true -> List.length t = 64%nat /\ all_hex t.
Proof.
  unfold test. destruct (exec LabelPat.hex64 t) as [[j m]|] eqn:E;
    [intros _ | discriminate].
  change LabelPat.hex64 with (Seq Bol (Seq (times 64 hex) Eol)) in E.
  assert (Ho : units_in is_hex (Seq (times 64 hex) Eol)).
  { cbn [units_in]. split; [|exact I]. apply only_times.
    cbn [units_in hex]. auto. }
  destruct (anchored_exec is_hex _ t j m Ho E) as (_ & u & Et & F & Hm).
  apply matches_seq_inv in Hm. destruct Hm as (sm & Ht & He).
  inversion He as [| | | | | | | | |? Hr|]; subst.
  pose proof (matches_times 64 is_hex _ _ Ht) as P.
  destruct (matches_consumes _ _ _ _ (only_any (times 64 hex)) Ht)
    as (u' & E' & _ & P').
  simpl in E', P, P'. rewrite Hr in *. rewrite !app_nil_r in *. subst u'.
  split; [lia | exact F].
Qed.

(** The branch of the last step that would return a public key alone is
    never taken: the texts of the message, joined and trimmed, are 64
    hexadecimal digits only when one text record holds just these digits,
    and the step before has then returned it as the [PH_IDLE] status. *)
Lemma hex64_branch_is_dead rs :
  first_status rs = None ->
  test LabelPat.hex64 (trim (join [10%N] (raw_texts rs))) = false.
Proof.
  intros Es. destruct (test LabelPat.hex64 _) eqn:Eh; [|reflexivity].
  exfalso. apply test_hex64_inv in Eh. destruct Eh as [L Hx].
  set (raw := trim (join [10%N] (raw_texts rs))) in *.
  destruct (trim_decompose (join [10%N] (raw_texts rs)))
    as (a & b & Ha & Hb & E). fold raw in E.
  assert (Hin : In raw (raw_texts rs)).
  { apply (join_single _ a raw b); try assumption.
    - apply raw_texts_trimmed.
    - intros E0. rewrite E0 in L. discriminate.
    - eapply Forall_impl; [|exact Hx]. apply hex_not_space. }
  destruct (raw_texts_from rs raw Hin) as (r & Hr & Ht & Etr).
  pose proof (first_status_none rs r Es Hr Ht) as Hnone.
  rewrite <- parse_trim, Etr, (parse_hex64 L Hx) in Hnone. discriminate.
Qed.

(** The last step on texts that are not a public key alone. *)
Lemma synthesize_raw_text texts :
  texts <> [] ->
  test LabelPat.hex64 (trim (join [10%N] texts)) = false ->
  let raw := trim (join [10%N] texts) in
  synthesize texts
  = Some (PText {|
      rawText := Some raw;
      publicKey := match exec LabelPat.pubkey raw with
                   | Some m => group 2 raw m
                   | None => None
                   end;
      chipId := match exec LabelPat.uid raw with
                | Some m => group 2 raw m
                | None => None
                end |}).
Proof.
  intros Hne Eh raw. subst raw. unfold synthesize.
  destruct texts as [|x l] eqn:Et; [contradiction|].
  now rewrite Eh.
Qed.

(** X6. The frame extractor never returns the payload that holds a public
    key and nothing else: for that its last step needs the texts of the
    message, joined and trimmed, to be exactly 64 hexadecimal digits, and
    then one text record holds just these digits and the step before has
    returned it as the [PH_IDLE] status.  Every text payload has its raw
    text. *)
Theorem text_payload_has_raw_text ev h p :
  snd (tryParseFromEvent ev h) = ok (Some (PText p)) -> rawText p <> None.
Proof.
  destruct (records ev) as [rs|] eqn:Ers;
    [|unfold tryParseFromEvent; rewrite Ers; discriminate].
  rewrite (@extraction_result _ ev h rs Ers).
  destruct (first_json is_json_media rs); [discriminate|].
  destruct (first_json is_text rs); [discriminate|].
  destruct (first_status rs) eqn:Es; [discriminate|].
  destruct (raw_texts rs) as [|x l] eqn:Er; [discriminate|].
  rewrite <- Er.
  rewrite (synthesize_raw_text (raw_texts rs));
    [|rewrite Er; discriminate | exact (hex64_branch_is_dead rs Es)].
  intros H; injection H as <-; discriminate.
Qed.

(** C9, as the code has it.  With the records present, extraction never
    throws.  The bytes of a record always decode, the decoder putting
    U+FFFD for what is malformed; decoding fails only for data that is no
    buffer, and such a record has the empty text and every step passes
    over it.  The result is [null] exactly when no record holds JSON that
    parses, none decodes to a status, and no text record has any text.  A
    message with a text that is neither JSON nor a status comes back as a
    raw-text payload: the trimmed texts, one to a line, with the labelled
    public key and chip identifier found in them, if any. *)
Theorem extraction_never_throws :
  (forall ev h, records ev <> None ->
     exists p, snd (tryParseFromEvent ev h) = ok p)
  /\ (forall d, safeDecode (Some (Bytes d)) = decode d)
  /\ (forall r rs select,
        data r = Some NoBuffer ->
        safeDecode (data r) = []
        /\ first_json select (r :: rs) = first_json select rs
        /\ first_status (r :: rs) = first_status rs
        /\ raw_texts (r :: rs) = raw_texts rs)
  /\ (forall ev h rs, records ev = Some rs ->
        (snd (tryParseFromEvent ev h) = ok None
         <-> first_json is_json_media rs = None
             /\ first_json is_text rs = None
             /\ first_status rs = None
             /\ raw_texts rs = []))
  /\ (forall ev h rs, records ev = Some rs ->
        first_json is_json_media rs = None ->
        first_json is_text rs = None ->
        first_status rs = None ->
        raw_texts rs <> [] ->
        let raw := trim (join [10%N] (raw_texts rs)) in
        snd (tryParseFromEvent ev h)
        = ok (Some (PText {|
            rawText := Some raw;
            publicKey := match exec LabelPat.pubkey raw with
                         | Some m => group 2 raw m
                         | None => None
                         end;
            chipId := match exec LabelPat.uid raw with
                      | Some m => group 2 raw m
                      | None => None
                      end |}))).
Proof.
  split; [|split; [|split; [|split]]].
  - intros ev h Hrs. destruct (records ev) as [rs|] eqn:E; [|contradiction].
    rewrite (@extraction_result _ ev h rs E). eauto.
  - exact safeDecode_bytes.
  - intros r rs select Hd.
    assert (E : safeDecode (data r) = [])
      by (rewrite Hd; exact safeDecode_no_buffer).
    split; [exact E | exact (@empty_text_is_skipped _ r rs select E)].
  - intros ev h rs E. rewrite (@extraction_result _ ev h rs E).
    destruct (first_json is_json_media rs);
      [split; [discriminate | intros (? & _); discriminate]|].
    destruct (first_json is_text rs);
      [split; [discriminate | intros (_ & ? & _); discriminate]|].
    destruct (first_status rs);
      [split; [discriminate | intros (_ & _ & ? & _); discriminate]|].
    split.
    + intros H. repeat split; try reflexivity.
      apply synthesize_none. now injection H.
    + intros (_ & _ & _ & ->). reflexivity.
  - intros ev h rs E Hj Ht Hs Hr raw.
    rewrite (@extraction_result _ ev h rs E), Hj, Ht, Hs.
    rewrite (synthesize_raw_text (raw_texts rs) Hr
               (hex64_branch_is_dead rs Hs)).
    reflexivity.
Qed.

End ExtractorTexts.

(** The theorem on an event whose first record holds what is no buffer:
    the status of the second record is returned; and on a text record of
    bytes that are no UTF-8, which decode and come back as the raw text. *)
Lemma extraction_never_throws_witness :
  let bad := {| recordType := lit "text"; mediaType := None; id := None;
                data := Some NoBuffer |} in
  let good := {| recordType := lit "text"; mediaType := None; id := None;
                 data := Some (Bytes (lit "busy")) |} in
  let odd := {| recordType := lit "text"; mediaType := None; id := None;
                data := Some (Bytes [255%N; 120%N]) |} in
  let ev := {| serialNumber := None; records := Some [bad; good] |} in
  let ev' := {| serialNumber := None; records := Some [odd] |} in
  records ev <> None
  /\ data bad = Some NoBuffer
  /\ first_status (PF := Sample.platform) [bad; good]
     = Some (Status.only BUSY)
  /\ (exists p,
        snd (tryParseFromEvent (PF := Sample.platform) ev []) = ok p)
  /\ raw_texts (PF := Sample.platform) [odd] <> []
  /\ snd (tryParseFromEvent (PF := Sample.platform) ev' [])
     = ok (Some (PText {| rawText := Some [65533%N; 120%N];
                          publicKey := None; chipId := None |})).
Proof.
  intros bad good odd ev ev'.
  pose proof (@extraction_never_throws Sample.platform)
    as (T & _ & S & _ & R).
  assert (Hr : raw_texts (PF := Sample.platform) [odd] <> [])
    by (vm_compute; discriminate).
  split; [discriminate|]. split; [reflexivity|]. split; [|split; [|split]].
  - destruct (S bad [good] is_text eq_refl) as (_ & _ & -> & _).
    vm_compute. reflexivity.
  - apply T. discriminate.
  - exact Hr.
  - assert (Hj : first_json (PF := Sample.platform) is_json_media [odd]
                 = None) by (vm_compute; reflexivity).
    assert (Ht : first_json (PF := Sample.platform) is_text [odd] = None)
      by (vm_compute; reflexivity).
    assert (Hs : first_status (PF := Sample.platform) [odd] = None)
      by (vm_compute; reflexivity).
    rewrite (R ev' [] [odd] eq_refl Hj Ht Hs Hr).
    vm_compute. reflexivity.
Defined.

(** C9, as claimed, fails: a text record that is no JSON, no status and
    carries no labelled field still produces a payload, its raw text. *)
Lemma unlabelled_text_is_a_payload :
  let rs := match records (Sample.text_event "xyz garbage") with
            | Some rs => rs
            | None => []
            end in
  first_json (PF := Sample.platform) is_json_media rs = None
  /\ first_json (PF := Sample.platform) is_text rs = None
  /\ first_status (PF := Sample.platform) rs = None
  /\ snd (tryParseFromEvent (PF := Sample.platform)
            (Sample.text_event "xyz garbage") [])
     = ok (Some (PText {| rawText := Some (lit "xyz garbage");
                          publicKey := None; chipId := None |})).
Proof. repeat split; vm_compute; reflexivity. Qed.

(** The theorem on a text that is no status. *)
Lemma text_payload_has_raw_text_witness :
  let p := {| rawText := Some (lit "xyz garbage"); publicKey := None;
              chipId := None |} in
  snd (tryParseFromEvent (PF := Sample.platform)
         (Sample.text_event "xyz garbage") [])
  = ok (Some (PText p))
  /\ rawText p <> None.
Proof.
  intros p.
  assert (H : snd (tryParseFromEvent (PF := Sample.platform)
                     (Sample.text_event "xyz garbage") [])
              = ok (Some (PText p))) by (vm_compute; reflexivity).
  split; [exact H|].
  exact (@text_payload_has_raw_text Sample.platform _ [] p H).
Defined.

Section ExtractorFields.

Context {PF : Platform}.

(** X7. A text record that holds white space only is no status, yet the
    event is not without a payload: the last step of the frame extractor
    keeps the record's trimmed text, and a message with just this record
    parses to the payload whose raw text is the empty string. *)
Theorem blank_text_record_is_a_payload r ev h :
  records ev = Some [r] -> is_text r = true ->
  safeDecode (data r) <> [] -> all_space (safeDecode (data r)) ->
  parseEdSignTextStatus (safeDecode (data r)) = None
  /\ snd (tryParseFromEvent ev h)
     = ok (Some (PText {| rawText := Some []; publicKey := None;
                          chipId := None |})).
Proof.
  intros Ers Ht Hne Hsp.
  pose proof (trim_all_space _ Hsp) as Etrim.
  assert (Hp : parseEdSignTextStatus (safeDecode (data r)) = None).
  { unfold parseEdSignTextStatus. rewrite Etrim. vm_compute. reflexivity. }
  split; [exact Hp|].
  rewrite (@extraction_result _ ev h [r] Ers).
  assert (Hj : looks_like_json (safeDecode (data r)) = false).
  { unfold looks_like_json. rewrite Etrim. apply andb_false_r. }
  cbn [first_json first_status raw_texts]. rewrite Ht, Hj, Hp.
  rewrite (proj2 (str_eqb_neq _ _) Hne). cbn [negb].
  destruct (is_json_media r); unfold synthesize; rewrite Etrim;
    vm_compute; reflexivity.
Qed.

(** X8. The labelled fields of a text payload are never empty and hold
    hexadecimal digits only: a public key that [tryParseFromEvent] puts
    into a text payload, and a chip identifier, is a non-empty run of
    hexadecimal digits of the raw text. *)
Theorem text_payload_fields_are_hex ev h p :
  snd (tryParseFromEvent ev h) = ok (Some (PText p)) ->
  (forall k, publicKey p = Some k -> k <> [] /\ all_hex k)
  /\ (forall c, chipId p = Some c -> c <> [] /\ all_hex c).
Proof.
  destruct (records ev) as [rs|] eqn:Ers;
    [|unfold tryParseFromEvent; rewrite Ers; discriminate].
  rewrite (@extraction_result _ ev h rs Ers).
  destruct (first_json is_json_media rs); [discriminate|].
  destruct (first_json is_text rs); [discriminate|].
  destruct (first_status rs); [discriminate|].
  unfold synthesize. destruct (raw_texts rs) as [|x l]; [discriminate|].
  set (raw := trim _).
  destruct (test LabelPat.hex64 raw) eqn:Eh; intros H; injection H as <-;
    cbn [publicKey chipId].
  - apply test_hex64_inv in Eh. destruct Eh as [L Hx].
    split; [|discriminate]. intros k E. injection E as <-.
    split; [|exact Hx]. intros E. rewrite E in L. discriminate.
  - split.
    + destruct (exec LabelPat.pubkey raw) as [[j m]|] eqn:E; [|discriminate].
      destruct (exec_group_captured 2 is_hex
                  [Group 1 (Alt (stri "pubkey")
                              (cat [stri "public";
                                    opt LabelPat.underscore_or_space;
                                    stri "key"]));
                   spaces; one_of ":="; spaces] raw j m E)
        as (d & Ed & Hne & Hd).
      intros k Ek. rewrite Ed in Ek. injection Ek as <-. split; assumption.
    + destruct (exec LabelPat.uid raw) as [[j m]|] eqn:E; [|discriminate].
      destruct (exec_group_captured 2 is_hex
                  [WordB;
                   Group 1 (Alt (stri "uid")
                              (cat [stri "chip";
                                    opt LabelPat.underscore_or_space;
                                    stri "id"]));
                   spaces; one_of ":="; spaces] raw j m E)
        as (d & Ed & Hne & Hd).
      intros k Ek. rewrite Ed in Ek. injection Ek as <-. split; assumption.
Qed.

End ExtractorFields.

(** The theorems on a record of two blanks and on a labelled key. *)
Lemma blank_text_record_is_a_payload_witness :
  let r := {| recordType := lit "text"; mediaType := None; id := None;
              data := Some (Bytes (lit "  ")) |} in
  let ev := {| serialNumber := None; records := Some [r] |} in
  records ev = Some [r] /\ is_text r = true
  /\ all_space (safeDecode (PF := Sample.platform) (data r))
  /\ snd (tryParseFromEvent (PF := Sample.platform) ev [])
     = ok (Some (PText {| rawText := Some []; publicKey := None;
                          chipId := None |})).
Proof.
  intros r ev.
  assert (Hsp : all_space (safeDecode (PF := Sample.platform) (data r)))
    by (repeat constructor).
  split; [reflexivity|]. split; [reflexivity|]. split; [exact Hsp|].
  exact (proj2 (@blank_text_record_is_a_payload Sample.platform r ev []
                  eq_refl eq_refl ltac:(discriminate) Hsp)).
Defined.

Lemma text_payload_fields_are_hex_witness :
  let p := {| rawText := Some (lit "pubkey: 0a1B");
              publicKey := Some (lit "0a1B"); chipId := None |} in
  snd (tryParseFromEvent (PF := Sample.platform)
         (Sample.text_event "pubkey: 0a1B") [])
  = ok (Some (PText p))
  /\ all_hex (lit "0a1B").
Proof.
  intros p.
  assert (H : snd (tryParseFromEvent (PF := Sample.platform)
                     (Sample.text_event "pubkey: 0a1B") [])
              = ok (Some (PText p))) by (vm_compute; reflexivity).
  split; [exact H|].
  exact (proj2 (proj1 (@text_payload_fields_are_hex Sample.platform _ [] p H)
                  (lit "0a1B") eq_refl)).
Defined.

(* ================================================================== *)
(** * Emitter: a run of payloads *)
(* ================================================================== *)

Lemma make_same_delivery c s :
  ~ starts_session c -> same_delivery (W s) (W (make c s)).
Proof.
  intros Hc. rewrite make_world.
  destruct s as [[[la cr si rr pm de dp sa lh lp lu ld su]
                  [sup ck nid ab sc iv tmo co rd er]] ts].
  destruct c; try (exfalso; apply Hc; exact I);
    destruct cr, si; cbn [W]; before_await; split; reflexivity.
Qed.

Lemma calls_same_delivery cs : forall s,
  Forall (fun c => ~ starts_session c) cs ->
  same_delivery (W s) (W (fold_left (fun s c => make c s) cs s)).
Proof.
  induction cs as [|c cs IH]; intros s H; simpl; [split; reflexivity|].
  inversion H as [|? ? Hc Hcs]; subst.
  destruct (make_same_delivery c s Hc) as [H1 H2].
  destruct (IH (make c s) Hcs) as [H3 H4].
  split; congruence.
Qed.

Section EmitterFacts.

Context {PF : Platform} {CB : Consumer}.

Lemma emitIfChanged_delivery tag p s :
  starts_no_session (onReading tag p (emission tag p (W s))) ->
  let s' := fst (emitIfChanged tag p s) in
  lastPayloadRef (refs (W s')) = JSON_stringify p
  /\ readings (env (W s'))
     = readings (env (W s))
       ++ (if str_eqb (JSON_stringify p) (lastPayloadRef (refs (W s)))
           then [] else [(tag, p)]).
Proof.
  intros Hc. cbv zeta.
  destruct (str_eqb (JSON_stringify p) (lastPayloadRef (refs (W s)))) eqn:E.
  - rewrite emitIfChanged_same by (apply str_eqb_eq; exact E).
    cbn [fst]. rewrite app_nil_r. split; [|reflexivity].
    symmetry. now apply str_eqb_eq.
  - rewrite emitIfChanged_new by (apply str_eqb_neq; exact E).
    unfold react. cbn [fst].
    destruct (calls_same_delivery _
                (Sys (emission tag p (W s)) (tasks s)) Hc) as [H1 H2].
    rewrite H1, H2. split; reflexivity.
Qed.

(** X9. The emitter coalesces.  As long as the consumer's callback begins
    no session, the emitter passes on, of the payloads handed to it one
    after another, exactly those whose serialization differs from that of
    the payload handed to it just before (for the first, from the stored
    serialization), in order, and it ends with the serialization of the
    last payload stored, also when the callback throws or stops the scan.
    So a repeated status is dropped, and a status that comes back after
    another one is passed on again. *)
Theorem emitter_coalesces tag ps :
  (forall p w, starts_no_session (onReading tag p w)) ->
  forall s,
    readings (env (W (emit_all tag ps s)))
    = readings (env (W s))
      ++ map (pair tag) (coalesce (lastPayloadRef (refs (W s))) ps)
    /\ lastPayloadRef (refs (W (emit_all tag ps s)))
       = last_serialized (lastPayloadRef (refs (W s))) ps.
Proof.
  intros Hc. induction ps as [|p ps IH]; intros s; simpl.
  - now rewrite app_nil_r.
  - destruct (IH (fst (emitIfChanged tag p s))) as [IH1 IH2].
    destruct (emitIfChanged_delivery tag p s (Hc _ _)) as [E1 E2].
    unfold emit_all in *. rewrite IH1, IH2, E1, E2.
    unfold last_serialized.
    destruct (str_eqb (JSON_stringify p) (lastPayloadRef (refs (W s))))
      eqn:E.
    + apply str_eqb_eq in E. rewrite <- E, app_nil_r. split; reflexivity.
    + rewrite <- app_assoc. split; reflexivity.
Qed.

End EmitterFacts.

(** The emitter on four statuses, the second a repetition: three are
    passed on. *)
Lemma emitter_coalesces_witness :
  (forall p w,
     starts_no_session (onReading (Consumer := Sample.consumer) None p w))
  /\ map snd (readings (env (W (emit_all (PF := Sample.platform)
                                         (CB := Sample.consumer)
                                         None four_statuses
                                         (mounted true 0)))))
     = [status_128; status_busy; status_128].
Proof.
  assert (H : forall p w,
            starts_no_session
              (onReading (Consumer := Sample.consumer) None p w))
    by (intros p w; constructor).
  split; [exact H|].
  rewrite (proj1 (@emitter_coalesces Sample.platform Sample.consumer None
                    four_statuses H (mounted true 0))).
  vm_compute. reflexivity.
Defined.
(* ================================================================== *)
(** * Properties that every piece of the hook's code keeps *)
(* ================================================================== *)

Lemma keeps_refl P w : keeps P w w.
Proof. intros H. exact H. Qed.

Lemma keeps_trans P a b c : keeps P a b -> keeps P b c -> keeps P a c.
Proof. unfold keeps. auto. Qed.

Lemma calls_are_fine fine es :
  Forall (calls_are fine) es ->
  Forall (fun e => forall c, e = Call c -> fine c) es.
Proof.
  intros H. eapply Forall_impl; [|exact H].
  intros e He c ->. exact He.
Qed.

(* ================================================================== *)
(** * Timing parameters stay above their floors *)
(* ================================================================== *)

(** A statement of the hook keeps a property of the world. *)
Ltac keeps_assign P :=
  let w := fresh "w" in
  let H := fresh "H" in
  intros w H; unfold P, abort_current, stopPolling, abort, clearInterval,
                new_controller, log in *;
  destruct w as [[] []]; simpl in *; revert H;
  repeat first
    [ match goal with
      | |- context [match ?x with _ => _ end] => is_var x; destruct x; simpl
      end
    | match goal with
      | |- context [match ?x with _ => _ end] =>
          lazymatch x with
          | context [match _ with _ => _ end] => fail
          | _ => destruct x; simpl
          end
      end ];
  intros H; first [ exact H | lia | tauto ].

(** [Math.max] with a floor that is a number gives a number no smaller,
    when the other number is one. *)
Lemma Math_max_floor f x :
  is_nan f = false -> get_sign f = false -> (f <=? f)%float = true ->
  is_nan x = false ->
  (f <=? Math_max f x)%float = true.
Proof.
  intros Hf Hs Hff Hx. unfold Math_max. rewrite Hf, Hx, Hs. simpl.
  destruct (f <? x)%float eqn:E1.
  - rewrite leb_spec. rewrite ltb_spec in E1. unfold SFltb in E1.
    unfold SFleb. destruct (SFcompare _ _) as [[]|]; congruence.
  - destruct (x <? f)%float; exact Hff.
Qed.

(** [Math.max] of [NaN] is [NaN], and a timer given [NaN] works with a
    delay of 0. *)
Lemma Math_max_nan f x : is_nan x = true -> Math_max f x = nan.
Proof.
  intros Hx. unfold Math_max. rewrite Hx. now rewrite orb_true_r.
Qed.

Lemma opt_or_number opts field dflt :
  is_nan dflt = false ->
  match opts with Some o => a_number (field o) | None => True end ->
  is_nan (opt_or opts field dflt) = false.
Proof.
  intros Hd H. unfold opt_or. destruct opts as [o|]; [|exact Hd].
  destruct (field o); [exact H | exact Hd].
Qed.

Ltac keeps_auto P :=
  repeat (rel_step (keeps_trans P) (keeps_refl P)); try keeps_assign P.

Lemma doScan_floors : async_rel (keeps floors) doScan.
Proof.
  intros w. unfold doScan.
  destruct (negb (isSupported (env w))); keeps_auto floors.
Qed.

Lemma rescanNow_floors reason : async_rel (keeps floors) (rescanNow reason).
Proof. unfold rescanNow. keeps_auto floors. exact doScan_floors. Qed.

Lemma deepReset_floors : async_rel (keeps floors) deepReset.
Proof. unfold deepReset. keeps_auto floors. exact doScan_floors. Qed.

Lemma tick_floors : async_rel (keeps floors) tick.
Proof.
  intros w. unfold tick.
  destruct (_ || _)%bool; [apply deepReset_floors | apply rescanNow_floors].
Qed.

Lemma run_timer_floors cb : async_rel (keeps floors) (run_timer cb).
Proof.
  destruct cb as [|lc]; simpl; [apply rescanNow_floors|].
  apply exec_rel. unfold singleReadTimeout. keeps_assign floors.
Qed.

Lemma startScan_floors opts :
  numeric (CallStartScan opts) ->
  async_rel (keeps floors) (startScan opts).
Proof.
  intros Hn. unfold startScan.
  assert (H1 : is_nan (opt_or opts pollMs 1000) = false)
    by (apply opt_or_number; [reflexivity|];
        destruct opts; [apply Hn | exact I]).
  assert (H2 : is_nan (opt_or opts deepResetEveryMs 10000) = false)
    by (apply opt_or_number; [reflexivity|];
        destruct opts; [apply Hn | exact I]).
  assert (H3 : is_nan (opt_or opts deepResetPauseMs 1800) = false)
    by (apply opt_or_number; [reflexivity|];
        destruct opts; [apply Hn | exact I]).
  assert (H4 : is_nan (opt_or opts staleAfterMs 5000) = false)
    by (apply opt_or_number; [reflexivity|];
        destruct opts; [apply Hn | exact I]).
  repeat (rel_step (keeps_trans floors) (keeps_refl floors));
    try exact doScan_floors;
    try (intros w (F1 & F2 & F3 & F4); unfold floors; simpl;
         repeat split; try assumption;
         apply Math_max_floor; solve [reflexivity | assumption]);
    try keeps_assign floors.
Qed.

Lemma startSingleRead_floors t :
  async_rel (keeps floors) (startSingleRead t).
Proof.
  unfold startSingleRead. keeps_auto floors; try exact doScan_floors.
Qed.
Lemma true_events es : Forall (fun _ : event => True) es.
Proof. apply Forall_forall. auto. Qed.

Section FloorsFacts.

Context {PF : Platform} {CB : Consumer}.

Lemma floors_steps es s s' :
  reacts_with numeric -> Forall (calls_are numeric) es ->
  tasks_rel (keeps floors) (tasks s) ->
  steps es s = Some s' ->
  tasks_rel (keeps floors) (tasks s') /\ keeps floors (W s) (W s').
Proof.
  intros [Hr He] Hes Hts H.
  apply (steps_rel (keeps floors) numeric (fun _ => True)
           (keeps_refl floors) (keeps_trans floors)
           tick_floors run_timer_floors startScan_floors
           (fun t _ => startSingleRead_floors t) Hr He) with (es := es);
    try assumption; try apply true_events;
    try (apply calls_are_fine; assumption).
  - unfold stopScan. keeps_assign floors.
  - intros t. keeps_assign floors.
  - intros i p. keeps_assign floors.
  - intros i. unfold clearTimeout. keeps_assign floors.
  - intros t res. unfold settled. keeps_assign floors.
  - intros c. keeps_assign floors.
  - intros h. keeps_assign floors.
  - unfold setTimeout. keeps_assign floors.
  - intros ev _ _. keeps_assign floors.
  - intros ev s0 p _ _ tag. unfold emission. keeps_assign floors.
  - intros ev s0 p tag w e _ _ _. keeps_assign floors.
Qed.

(** X10. The floors of the timing parameters hold for options that are
    numbers.  When every option passed to [startScan] is a number, then in
    every state the page can reach the poll period is at least 250 ms, a
    deep reset is due after no less than 3000 ms, its pause lasts at least
    500 ms and a session is stale after no less than 2000 ms; the
    power-cycle supervisor asks for a pause of 0 ms and gets 500, and its
    poll period of 300 ms is taken as it is.  An option that is [NaN] is
    under no floor: [Math.max] returns [NaN], the poll period is stored as
    [NaN], and the poll timer is set with it, which is a delay of 0. *)
Theorem timing_floors_hold :
  (forall supported t0 es s,
     reacts_with numeric -> Forall (calls_are numeric) es ->
     steps es (mounted supported t0) = Some s ->
     floors (W s))
  /\ (forall w,
        let w1 := first_state (startScan (Some App.cycleOpts) w) in
        pollingMsRef (refs w1) = 300%float
        /\ deepEveryRef (refs w1) = 999999%float
        /\ deepPauseRef (refs w1) = 500%float
        /\ staleAfterRef (refs w1) = 999999%float)
  /\ (forall o x w,
        pollMs o = Some x -> is_nan x = true ->
        isSupported (env w) = true ->
        exists w',
          feed [ok tt; ok tt] (startScan (Some o) w) = Some (w', ok tt)
          /\ pollingMsRef (refs w') = nan
          /\ scanIntervalRef (refs w') = Some (S (nextId (env w)))
          /\ In (S (nextId (env w)), 0, clock (env w'))
                (intervals (env w'))).
Proof.
  split; [|split].
  - intros sup t0 es s Hr Hes H.
    apply (floors_steps es (mounted sup t0) s Hr Hes);
      [constructor | exact H|].
    unfold floors. simpl. repeat split; reflexivity.
  - intros w.
    destruct w as [[la cr si rr pm de dp sa lh lp lu ld su]
                   [sup ck nid ab sc iv tmo co rd er]].
    destruct sup, cr; vm_compute; repeat split.
  - intros o x w Hp Hx Hsup.
    destruct w as [[la cr si rr pm de dp sa lh lp lu ld su]
                   [sup ck nid ab sc iv tmo co rd er]].
    simpl in Hsup. subst.
    assert (E : Math_max 250 (opt_or (Some o) pollMs 1000) = nan)
      by (apply Math_max_nan; unfold opt_or; rewrite Hp; exact Hx).
    destruct cr, si;
      (eexists; split; [lazy -[Math_max opt_or delay_of of_Z pollMs];
                        reflexivity|]);
      cbn [refs env pollingMsRef scanIntervalRef intervals clock];
      rewrite E;
      (split; [reflexivity|]); (split; [reflexivity|]);
      apply in_or_app; right; left; reflexivity.
Qed.

End FloorsFacts.

(** The floors after a scan restarted with the supervisor's options, and
    the poll timer of a scan started with a poll period of [NaN]. *)
Lemma timing_floors_hold_witness :
  let s := the_state (Sample.run_events restarted_scan (mounted true 0)) in
  let run := steps (PF := Sample.platform) (CB := Sample.consumer) in
  reacts_with (CB := Sample.consumer) numeric
  /\ Forall (calls_are numeric) restarted_scan
  /\ run restarted_scan (mounted true 0) = Some s
  /\ deepPauseRef (refs (W s)) = 500%float /\ floors (W s)
  /\ option_map (fun x => intervals (env (fst x)))
        (feed [ok tt; ok tt] (startScan (Some nan_poll) (W (mounted true 0))))
     = Some [(1%nat, 0, 0)].
Proof.
  intros s run.
  assert (Hr : reacts_with (CB := Sample.consumer) numeric)
    by (split; intros; constructor).
  assert (Hes : Forall (calls_are numeric) restarted_scan)
    by (repeat constructor; vm_compute; reflexivity).
  assert (H : run restarted_scan (mounted true 0) = Some s)
    by (apply some_the_state; vm_compute; reflexivity).
  split; [exact Hr|]. split; [exact Hes|]. split; [exact H|].
  split; [vm_compute; reflexivity|].
  split; [|vm_compute; reflexivity].
  exact (proj1 (@timing_floors_hold Sample.platform Sample.consumer)
               true 0 restarted_scan s Hr Hes H).
Defined.


(* ================================================================== *)
(** * One poll timer *)
(* ================================================================== *)

Lemma stopPolling_one_interval w :
  one_interval w ->
  scanIntervalRef (refs (stopPolling w)) = None
  /\ intervals (env (stopPolling w)) = [].
Proof.
  unfold one_interval, stopPolling.
  destruct (scanIntervalRef (refs w)) as [i|] eqn:E; simpl.
  - intros (p & l & ->). simpl. now rewrite Nat.eqb_refl.
  - intros ->. now rewrite E.
Qed.

Ltac rel_step_to_polling trans refl :=
  lazymatch goal with
  | |- async_rel _ (bind (exec_ stopPolling) _) => fail
  | _ => rel_step trans refl
  end.

Ltac one_interval_auto :=
  repeat (rel_step_to_polling (keeps_trans one_interval)
                              (keeps_refl one_interval));
  try keeps_assign one_interval.

Lemma doScan_one_interval : async_rel (keeps one_interval) doScan.
Proof.
  intros w. unfold doScan.
  destruct (negb (isSupported (env w))); one_interval_auto.
Qed.

Lemma rescanNow_one_interval reason :
  async_rel (keeps one_interval) (rescanNow reason).
Proof. unfold rescanNow. one_interval_auto. exact doScan_one_interval. Qed.

Lemma deepReset_one_interval : async_rel (keeps one_interval) deepReset.
Proof. unfold deepReset. one_interval_auto. exact doScan_one_interval. Qed.

Lemma tick_one_interval : async_rel (keeps one_interval) tick.
Proof.
  intros w. unfold tick.
  destruct (_ || _)%bool;
    [apply deepReset_one_interval | apply rescanNow_one_interval].
Qed.

Lemma run_timer_one_interval cb :
  async_rel (keeps one_interval) (run_timer cb).
Proof.
  destruct cb as [|lc]; simpl; [apply rescanNow_one_interval|].
  apply exec_rel. unfold singleReadTimeout. keeps_assign one_interval.
Qed.

Lemma stopPolling_keeps_one_interval w :
  keeps one_interval w (stopPolling w).
Proof.
  intros H. destruct (stopPolling_one_interval w H) as [E1 E2].
  unfold one_interval. now rewrite E1.
Qed.

Lemma startScan_one_interval opts :
  async_rel (keeps one_interval) (startScan opts).
Proof.
  unfold startScan. one_interval_auto; try exact doScan_one_interval.
  intros w H. destruct (stopPolling_one_interval w H) as [E1 E2].
  unfold bind, exec_, setInterval. simpl.
  unfold one_interval. simpl. rewrite E2. simpl. eauto.
Qed.

Lemma startSingleRead_one_interval t :
  async_rel (keeps one_interval) (startSingleRead t).
Proof.
  unfold startSingleRead.
  repeat (rel_step (keeps_trans one_interval) (keeps_refl one_interval));
    try exact doScan_one_interval;
    try exact stopPolling_keeps_one_interval;
    try keeps_assign one_interval.
Qed.

Section OneIntervalFacts.

Context {PF : Platform} {CB : Consumer}.

Lemma fired_one_interval i period w :
  keeps one_interval w
    (set_intervals
       (map (fun x => if Nat.eqb (fst (fst x)) i
                      then (i, period, clock (env w)) else x)
            (intervals (env w))) w).
Proof.
  unfold keeps, one_interval. simpl.
  destruct (scanIntervalRef (refs w)) as [j|].
  - intros (p & l & ->). simpl.
    destruct (Nat.eqb j i) eqn:E; [|eauto].
    apply Nat.eqb_eq in E. subst. eauto.
  - intros ->. reflexivity.
Qed.

Lemma one_interval_steps es s s' :
  tasks_rel (keeps one_interval) (tasks s) ->
  steps es s = Some s' ->
  tasks_rel (keeps one_interval) (tasks s')
  /\ keeps one_interval (W s) (W s').
Proof.
  intros Hts H.
  apply (steps_rel (keeps one_interval) any_call (fun _ => True)
           (keeps_refl one_interval) (keeps_trans one_interval)
           tick_one_interval run_timer_one_interval
           (fun o _ => startScan_one_interval o)
           (fun t _ => startSingleRead_one_interval t)
           (fun _ _ _ => any_calls _) (fun _ _ => any_calls _))
    with (es := es);
    try assumption; try apply true_events;
    try (apply Forall_forall; intros; exact I).
  - intros w Hw. unfold stopScan.
    destruct (stopPolling_one_interval w Hw) as [E1 E2].
    unfold one_interval, abort_current in *.
    destruct (controllerRef (refs (stopPolling w))); simpl;
      rewrite E1; exact E2.
  - intros t. keeps_assign one_interval.
  - apply fired_one_interval.
  - intros i. unfold clearTimeout. keeps_assign one_interval.
  - intros t res. unfold settled. keeps_assign one_interval.
  - intros c. keeps_assign one_interval.
  - intros h. keeps_assign one_interval.
  - unfold setTimeout. keeps_assign one_interval.
  - intros ev _ _. keeps_assign one_interval.
  - intros ev s0 p _ _ tag. unfold emission. keeps_assign one_interval.
  - intros ev s0 p tag w e _ _ _. keeps_assign one_interval.
Qed.

(** X11. The hook never has two poll timers: in every state the page can
    reach, either no interval is registered and [scanIntervalRef] is
    undefined, or exactly one is and [scanIntervalRef] names it, however
    many times and in whatever order [startScan], [startSingleRead] and
    [stopScan] were called and however their scans overlapped. *)
Theorem one_poll_timer s :
  reachable s ->
  one_interval (W s) /\ (List.length (intervals (env (W s))) <= 1)%nat.
Proof.
  intros (sup & t0 & es & H).
  assert (Hone : one_interval (W s)).
  { apply (one_interval_steps es (mounted sup t0) s);
      [constructor | exact H | reflexivity]. }
  split; [exact Hone|]. unfold one_interval in Hone.
  destruct (scanIntervalRef (refs (W s)));
    [destruct Hone as (p & l & ->) | rewrite Hone]; simpl; lia.
Qed.

End OneIntervalFacts.


(* ================================================================== *)
(** * What reaches [onError] *)
(* ================================================================== *)

Ltac no_errors_auto :=
  repeat (rel_step (keeps_trans no_errors) (keeps_refl no_errors));
  try keeps_assign no_errors.

Lemma doScan_no_errors : async_rel (keeps no_errors) doScan.
Proof.
  intros w. unfold doScan.
  destruct (negb (isSupported (env w))); no_errors_auto.
Qed.

Lemma rescanNow_no_errors reason :
  async_rel (keeps no_errors) (rescanNow reason).
Proof. unfold rescanNow. no_errors_auto. exact doScan_no_errors. Qed.

Lemma deepReset_no_errors : async_rel (keeps no_errors) deepReset.
Proof. unfold deepReset. no_errors_auto. exact doScan_no_errors. Qed.

Lemma tick_no_errors : async_rel (keeps no_errors) tick.
Proof.
  intros w. unfold tick.
  destruct (_ || _)%bool;
    [apply deepReset_no_errors | apply rescanNow_no_errors].
Qed.

Lemma run_timer_no_errors cb : async_rel (keeps no_errors) (run_timer cb).
Proof.
  destruct cb as [|lc]; simpl; [apply rescanNow_no_errors|].
  apply exec_rel. unfold singleReadTimeout. keeps_assign no_errors.
Qed.

Lemma startScan_no_errors opts : async_rel (keeps no_errors) (startScan opts).
Proof.
  unfold startScan, setInterval. no_errors_auto; try exact doScan_no_errors.
Qed.

Lemma startSingleRead_no_errors t :
  async_rel (keeps no_errors) (startSingleRead t).
Proof.
  unfold startSingleRead, setTimeout.
  no_errors_auto; try exact doScan_no_errors.
Qed.

Lemma reported_nothing_refl w : reported_nothing w w.
Proof. split; [reflexivity | apply incl_refl]. Qed.

Lemma reported_nothing_trans a b c :
  reported_nothing a b -> reported_nothing b c -> reported_nothing a c.
Proof.
  intros [H1 H2] [H3 H4]. split; [congruence|].
  exact (incl_tran H4 H2).
Qed.

(** A call of the consumer, up to its first [await], reports nothing and
    arms no timer. *)
Lemma make_reported_nothing c s :
  any_call c -> reported_nothing (W s) (W (make c s)).
Proof.
  intros _. rewrite make_world.
  destruct s as [[[la cr si rr pm de dp sa lh lp lu ld su]
                  [sup ck nid ab sc iv tmo co rd er]] ts].
  destruct c as [o|t| |to]; cbn [W].
  - destruct sup, cr, si; before_await;
      (split; [reflexivity | apply incl_refl]).
  - destruct sup, cr, si; before_await;
      (split; [reflexivity | apply incl_refl]).
  - destruct cr, si; before_await;
      (split; [reflexivity | apply incl_refl]).
  - unfold dispose, clearTimeout. split; [reflexivity|].
    cbn [env timeouts set_timeouts]. apply incl_filter.
Qed.

Section ErrorFacts.

Context {PF : Platform} {CB : Consumer}.

Lemma react_reported_nothing r s :
  reported_nothing (W s) (W (fst (react r s))).
Proof.
  apply (react_world reported_nothing any_call reported_nothing_refl
           reported_nothing_trans make_reported_nothing).
  apply any_calls.
Qed.

(** The [catch] block of the listener: the error is passed to [onError],
    once, and no timer is armed. *)
Lemma readingFailed_reports e s :
  errors (env (W (readingFailed e s))) = errors (env (W s)) ++ [e]
  /\ incl (timeouts (env (W (readingFailed e s)))) (timeouts (env (W s))).
Proof.
  unfold readingFailed.
  match goal with
  | |- context [react ?r ?x] =>
      destruct (react_reported_nothing r x) as [E I]
  end.
  split; [rewrite E; reflexivity | exact I].
Qed.

Lemma afterCallback_throws r s e :
  throws r = Some e ->
  afterCallback (react r s) = readingFailed e (fst (react r s)).
Proof.
  intros H. unfold afterCallback, react. cbn [fst snd]. now rewrite H.
Qed.

(** X12. What reaches [onError] is what the reading listener catches: a
    malformed reading event, or what the consumer's [onReading] throws.
    As long as every reading event has a records array and [onReading]
    returns, [onError] is never called, whatever else happens on the page
    and whatever the callbacks call; a scan that is refused or fails during
    a poll, a deep reset or a rescan after a reading is reported to nobody.
    A reading event without a records array is reported with the
    [TypeError] it raises and arms no rescan.  When [onReading] throws on a
    payload handed to it, what it threw is passed to [onError] and no
    rescan is armed either. *)
Theorem onError_only_for_malformed_events :
  (forall supported t0 es s,
     onReading_returns -> Forall has_records es ->
     steps es (mounted supported t0) = Some s ->
     errors (env (W s)) = [])
  /\ (forall ev s,
        records ev = None ->
        let s' := onReadingEvent ev s in
        errors (env (W s')) = errors (env (W s)) ++ [TypeError]
        /\ incl (timeouts (env (W s'))) (timeouts (env (W s))))
  /\ (forall ev s p e,
        emitted ev (W s) = Some p ->
        throws (onReading (serialNumber ev) p
                  (emission (serialNumber ev) p (parsed_in ev p (W s))))
        = Some e ->
        let s' := onReadingEvent ev s in
        errors (env (W s')) = errors (env (W s)) ++ [e]
        /\ incl (timeouts (env (W s'))) (timeouts (env (W s)))).
Proof.
  split; [|split].
  - intros sup t0 es s Hret Hes H.
    apply (steps_rel (keeps no_errors) any_call has_records
             (keeps_refl no_errors) (keeps_trans no_errors)
             tick_no_errors run_timer_no_errors
             (fun o _ => startScan_no_errors o)
             (fun t _ => startSingleRead_no_errors t)
             (fun _ _ _ => any_calls _) (fun _ _ => any_calls _))
      with (es := es) (s := mounted sup t0);
      try assumption; try reflexivity; try constructor;
      try (apply Forall_forall; intros; exact I).
    + unfold stopScan. keeps_assign no_errors.
    + intros t. keeps_assign no_errors.
    + intros i p. keeps_assign no_errors.
    + intros i. unfold clearTimeout. keeps_assign no_errors.
    + intros t res. unfold settled. keeps_assign no_errors.
    + intros c. keeps_assign no_errors.
    + intros h. keeps_assign no_errors.
    + unfold setTimeout. keeps_assign no_errors.
    + intros ev Hev E. exfalso. exact (Hev E).
    + intros ev s0 p _ _ tag. unfold emission. keeps_assign no_errors.
    + intros ev s0 p tag w e _ _ E. rewrite Hret in E. discriminate.
  - intros ev s E s'. subst s'.
    destruct (listener_parse_fails ev s E) as (w' & (c & h & ->) & ->).
    exact (readingFailed_reports TypeError _).
  - intros ev s p e Hp Ht s'. subst s'.
    rewrite (listener_emits ev s p Hp). cbv zeta.
    rewrite (afterCallback_throws _ _ e Ht).
    match goal with
    | |- context [readingFailed e (fst (react ?r ?x))] =>
        destruct (readingFailed_reports e (fst (react r x))) as [E I];
        destruct (react_reported_nothing r x) as [E' I']
    end.
    split.
    + rewrite E, E'. reflexivity.
    + exact (incl_tran I I').
Qed.

End ErrorFacts.

(** One poll timer after a scan started twice. *)
Lemma one_poll_timer_witness :
  let s := the_state (Sample.run_events restarted_scan (mounted true 0)) in
  reachable (PF := Sample.platform) (CB := Sample.consumer) s
  /\ scanIntervalRef (refs (W s)) = Some 3%nat
  /\ one_interval (W s)
  /\ (List.length (intervals (env (W s))) <= 1)%nat.
Proof.
  intros s.
  assert (H : reachable (PF := Sample.platform) (CB := Sample.consumer) s)
    by (exists true, 0, restarted_scan; apply some_the_state;
        vm_compute; reflexivity).
  split; [exact H|]. split; [vm_compute; reflexivity|].
  exact (@one_poll_timer Sample.platform Sample.consumer s H).
Defined.

(** No error is reported in the first session; a consumer that throws on
    the first reading has its [TypeError] passed to [onError], and no
    rescan is armed. *)
Lemma onError_only_for_malformed_events_witness :
  let run := steps (PF := Sample.platform) (CB := Sample.consumer) in
  let s := the_state (run first_session (mounted true 0)) in
  onReading_returns (CB := Sample.consumer)
  /\ Forall has_records first_session
  /\ run first_session (mounted true 0) = Some s
  /\ errors (env (W s)) = []
  /\ option_map (fun s => (errors (env (W s)), timeouts (env (W s))))
        (steps (PF := Sample.platform) (CB := throwing)
               first_reading (mounted true 0))
     = Some ([TypeError], []).
Proof.
  intros run s.
  assert (Hret : onReading_returns (CB := Sample.consumer))
    by (intros tag p w; reflexivity).
  assert (Hes : Forall has_records first_session)
    by (repeat (constructor; [first [exact I | simpl; discriminate]|]);
        constructor).
  assert (H : run first_session (mounted true 0) = Some s)
    by (apply some_the_state; vm_compute; reflexivity).
  split; [exact Hret|]. split; [exact Hes|]. split; [exact H|].
  split; [|vm_compute; reflexivity].
  exact (proj1 (@onError_only_for_malformed_events
                  Sample.platform Sample.consumer)
               true 0 first_session s Hret Hes H).
Defined.

(* ================================================================== *)
(** * Scans that fail, and scans that restart *)
(* ================================================================== *)

Ltac await_inv H :=
  let res := fresh "res" in
  let w := fresh "w" in
  let Hallowed := fresh "Hallowed" in
  let Hrest := fresh "Hrest" in
  inversion H as [|? ? ? res w ? ? Hallowed _ Hrest]; subst; clear H;
  simpl in Hallowed.

Lemma completes_bind_run St Wt A B rely allowed (r : run St Wt A)
  (f : A -> async St Wt B) sf rf :
  completes rely allowed (bind_run r f) sf rf ->
  (exists s e, completes rely allowed r s (inl e) /\ sf = s /\ rf = inl e)
  \/ (exists s a, completes rely allowed r s (inr a)
                  /\ completes rely allowed (f a s) sf rf).
Proof.
  induction r as [s [e|a]|s on k IH]; simpl; intros H.
  - inversion H; subst. left. eexists _, _.
    split; [constructor | split; reflexivity].
  - right. exists s, a. split; [constructor | exact H].
  - inversion H as [|? ? ? res s' ? ? Ha Hr Hrest]; subst.
    destruct (IH res s' Hrest) as [(s1 & e & H1 & -> & ->)|(s1 & a & H1 & H2)].
    + left. exists s1, e. repeat split. econstructor; eassumption.
    + right. exists s1, a. split; [econstructor; eassumption | exact H2].
Qed.

(** What [doScan] can throw. *)
Lemma doScan_throws w w' e :
  completes any_change sleep_resolves (doScan w) w' (inl e) ->
  e = NotSupported \/ e = NotAllowedError.
Proof.
  unfold doScan. destruct (isSupported (env w)); simpl; intros H.
  - unfold bind, exec_, await in H. simpl in H.
    await_inv H. subst res. simpl in Hrest.
    await_inv Hrest.
    destruct res as [[]|[]]; simpl in Hrest0; inversion Hrest0; subst; auto.
  - inversion H; subst. auto.
Qed.

Lemma completes_exec St Wt rely allowed (f : St -> St) s sf
  (rf : result unit) :
  completes (Wt := Wt) rely allowed (exec_ f s) sf rf ->
  sf = f s /\ rf = ok tt.
Proof. intros H. inversion H. auto. Qed.

(** X13. Which failures of a scan the caller sees.  [startScan] and
    [startSingleRead] reject with nothing but the hook's "not supported"
    error or the browser's [NotAllowedError]; any other rejection of
    [reader.scan] is swallowed: [startScan] then resolves as if the scan
    had started, stamps its two timestamps and installs the poll timer. *)
Theorem scan_failures_seen_by_the_caller :
  (forall opts w w' e,
     completes any_change sleep_resolves (startScan opts w) w' (inl e) ->
     e = NotSupported \/ e = NotAllowedError)
  /\ (forall t w w' e,
        completes any_change sleep_resolves (startSingleRead t w) w' (inl e) ->
        e = NotSupported \/ e = NotAllowedError)
  /\ (forall opts w,
        isSupported (env w) = true ->
        exists w',
          feed [ok tt; inl OtherDOMException] (startScan opts w)
          = Some (w', ok tt)
          /\ scanIntervalRef (refs w') = Some (S (nextId (env w)))
          /\ lastUpdateTsRef (refs w') = clock (env w')
          /\ lastDeepResetTsRef (refs w') = clock (env w')).
Proof.
  split; [|split].
  - intros opts w w' e H. unfold startScan in H.
    repeat match type of H with
           | completes _ _ (bind (exec_ _) _ _) _ _ =>
               unfold bind at 1 in H; simpl in H
           end.
    unfold bind at 1 in H.
    apply completes_bind_run in H.
    destruct H as [(s & e' & H & _ & E)|(s & [] & _ & H)].
    + injection E as ->. exact (doScan_throws _ _ _ H).
    + unfold bind, exec_ in H. simpl in H. inversion H.
  - intros t w w' e H. unfold startSingleRead in H.
    repeat match type of H with
           | completes _ _ (bind (exec_ _) _ _) _ _ =>
               unfold bind at 1 in H; simpl in H
           end.
    unfold bind at 1 in H.
    apply completes_bind_run in H.
    destruct H as [(s & e' & H & _ & E)|(s & [] & _ & H)].
    + injection E as ->. exact (doScan_throws _ _ _ H).
    + simpl in H. inversion H.
  - intros opts w Hsup.
    destruct w as [[la cr si rr pm de dp sa lh lp lu ld su]
                   [sup ck nid ab sc iv tmo co rd er]].
    simpl in Hsup. subst.
    unfold startScan, bind, exec_, doScan.
    destruct cr, si; simpl;
      (eexists; split; [reflexivity|]); simpl; repeat split.
Qed.

(** The theorem on the mounted hook: a scan that fails with some other
    error leaves [startScan] resolved and polling. *)
Lemma scan_failures_seen_by_the_caller_witness :
  isSupported (env (W (mounted true 0))) = true
  /\ exists w',
       feed [ok tt; inl OtherDOMException]
            (startScan None (W (mounted true 0)))
       = Some (w', ok tt)
       /\ scanIntervalRef (refs w') = Some 1%nat.
Proof.
  split; [reflexivity|].
  destruct (proj2 (proj2 scan_failures_seen_by_the_caller)
              None (W (mounted true 0)) eq_refl)
    as (w' & H1 & H2 & _).
  exists w'. split; [exact H1 | exact H2].
Defined.

(** X14. A refused [startScan] is half done.  When the browser refuses
    the scan ([NotAllowedError]) the call rejects, but it has already
    replaced the four timing parameters, cleared the stored payload and
    hash and aborted the scan that was running; its timestamps are not
    stamped and, since polling is restarted only after the scan, the poll
    timer of the session before is still registered.  A refused
    [startSingleRead] has stopped the polling, arms no timeout and leaves
    the rescans after a reading turned off. *)
Theorem refused_scan_start_is_half_done :
  (forall opts w,
     isSupported (env w) = true ->
     exists w',
       feed [ok tt; inl NotAllowedError] (startScan opts w)
       = Some (w', inl NotAllowedError)
       /\ pollingMsRef (refs w')
          = Math_max 250%float (opt_or opts pollMs 1000%float)
       /\ deepPauseRef (refs w')
          = Math_max 500%float (opt_or opts deepResetPauseMs 1800%float)
       /\ lastPayloadRef (refs w') = []
       /\ (forall c, controllerRef (refs w) = Some c -> In c (aborted (env w')))
       /\ lastUpdateTsRef (refs w') = lastUpdateTsRef (refs w)
       /\ lastDeepResetTsRef (refs w') = lastDeepResetTsRef (refs w)
       /\ scanIntervalRef (refs w') = scanIntervalRef (refs w)
       /\ intervals (env w') = intervals (env w))
  /\ (forall t w,
        isSupported (env w) = true ->
        exists w',
          feed [ok tt; inl NotAllowedError] (startSingleRead t w)
          = Some (w', inl NotAllowedError)
          /\ suppressRescanRef (refs w') = true
          /\ scanIntervalRef (refs w') = None
          /\ timeouts (env w') = timeouts (env w)).
Proof.
  split.
  - intros opts w Hsup.
    destruct w as [[la cr si rr pm de dp sa lh lp lu ld su]
                   [sup ck nid ab sc iv tmo co rd er]].
    simpl in Hsup. subst.
    unfold startScan, bind, exec_, doScan.
    destruct cr; simpl;
      (eexists; split; [reflexivity|]); simpl; repeat split;
      intros c E; try discriminate.
    injection E as <-. now left.
  - intros t w Hsup.
    destruct w as [[la cr si rr pm de dp sa lh lp lu ld su]
                   [sup ck nid ab sc iv tmo co rd er]].
    simpl in Hsup. subst.
    unfold startSingleRead, bind, exec_, doScan.
    destruct cr, si; simpl;
      (eexists; split; [reflexivity|]); simpl; repeat split.
Qed.

(** The theorem on the mounted hook. *)
Lemma refused_scan_start_is_half_done_witness :
  isSupported (env (W (mounted true 0))) = true
  /\ exists w',
       feed [ok tt; inl NotAllowedError]
            (startScan (Some App.cycleOpts) (W (mounted true 0)))
       = Some (w', inl NotAllowedError)
       /\ pollingMsRef (refs w') = 300%float.
Proof.
  split; [reflexivity|].
  destruct (proj1 refused_scan_start_is_half_done
              (Some App.cycleOpts) (W (mounted true 0)) eq_refl)
    as (w' & H1 & H2 & _).
  exists w'. split; [exact H1 | exact H2].
Defined.

(* ================================================================== *)
(** * The guard of light rescans *)
(* ================================================================== *)

Lemma completes_finally_run St Wt A rely allowed (r : run St Wt A)
  (f : St -> St) sf rf :
  completes rely allowed (finally_run r f) sf rf -> exists s, sf = f s.
Proof.
  induction r as [s res|s on k IH]; simpl; intros H.
  - inversion H; subst. eauto.
  - inversion H as [|? ? ? res s' ? ? _ _ Hrest]; subst.
    exact (IH res s' Hrest).
Qed.

(** X15. The guard of light rescans is always released.  A [rescanNow]
    that finds [restartingRef] set only logs its line; one that finds it
    clear sets it for the time of the restart and, however the restart
    ends (the scan started, was aborted, was refused, or Web NFC is not
    supported) and whatever else ran meanwhile, leaves it clear. *)
Theorem rescan_guard_is_released rely allowed reason w :
  (restartingRef (refs w) = true ->
   rescanNow reason w = Done (log (LogRescanNow reason) w) (ok tt))
  /\ (restartingRef (refs w) = false ->
      (isSupported (env w) = true ->
       restartingRef (refs (first_state (rescanNow reason w))) = true)
      /\ forall w' r,
           completes rely allowed (rescanNow reason w) w' r ->
           restartingRef (refs w') = false).
Proof.
  split; [apply rescanNow_dropped_while_restarting|].
  intros Hr.
  assert (E : rescanNow reason w
              = finally_run
                  (doScan (set_restartingRef true
                             (log (LogRescanNow reason) w)))
                  (set_restartingRef false)).
  { unfold rescanNow, bind, exec_, read, finally. simpl. now rewrite Hr. }
  rewrite E. split.
  - intros Hsup. unfold doScan. simpl. rewrite Hsup. simpl.
    unfold abort_current. simpl. now destruct (controllerRef (refs w)).
  - intros w' r H. apply completes_finally_run in H.
    destruct H as (s & ->). reflexivity.
Qed.

(** The theorem on a refused rescan of the mounted hook. *)
Lemma rescan_guard_is_released_witness :
  restartingRef (refs (W (mounted true 0))) = false
  /\ exists w',
       feed [ok tt; inl NotAllowedError]
            (rescanNow (lit "interval") (W (mounted true 0)))
       = Some (w', inl NotAllowedError)
       /\ restartingRef (refs w') = false.
Proof.
  split; [reflexivity|].
  eexists. split; [reflexivity|].
  apply (proj2 (proj2 (rescan_guard_is_released
                         (fun _ _ => True) (fun _ _ => True)
                         (lit "interval") (W (mounted true 0))) eq_refl)
           _ (inl NotAllowedError)).
  unfold rescanNow, bind, exec_, read, finally, doScan. simpl.
  match goal with
  | |- completes _ _ (Await ?s _ _) _ _ =>
      eapply completes_await with (res := ok tt) (s' := s);
      [exact I | exact I | simpl]
  end.
  match goal with
  | |- completes _ _ (Await ?s _ _) _ _ =>
      eapply completes_await with (res := inl NotAllowedError) (s' := s);
      [exact I | exact I | simpl]
  end.
  apply completes_done.
Defined.

(* ================================================================== *)
(** * What [stopScan] leaves running *)
(* ================================================================== *)

(** X16. [stopScan] stops the polling and aborts the current scan, and no
    more: a rescan that a reading has scheduled stays scheduled, and a
    rescan that is waiting out its 50 ms when [stopScan] is called goes on,
    when the wait is over, to start a scan on a new controller.  So the
    reader can be scanning again after the consumer has stopped it. *)
Theorem stopScan_leaves_rescans_running :
  (forall w, timeouts (env (stopScan w)) = timeouts (env w))
  /\ (forall reason w,
        isSupported (env w) = true -> restartingRef (refs w) = false ->
        exists w1 k1 w2 k2,
          rescanNow reason w = Await w1 (Sleep SCAN_SETTLE_MS) k1
          /\ k1 (ok tt) (stopScan w1)
             = Await w2 (Scan (nextId (env w1))) k2
          /\ controllerRef (refs w2) = Some (nextId (env w1))
          /\ scanIntervalRef (refs w2) = None).
Proof.
  split.
  - intros w. unfold stopScan, stopPolling, abort_current. simpl.
    destruct (scanIntervalRef (refs w)); simpl;
      destruct (controllerRef (refs w)); reflexivity.
  - intros reason w Hsup Hr.
    destruct w as [[la cr si rr pm de dp sa lh lp lu ld su]
                   [sup ck nid ab sc iv tmo co rd er]].
    simpl in Hsup, Hr. subst.
    unfold rescanNow, bind, exec_, read, finally, doScan.
    destruct cr, si; simpl;
      (do 4 eexists; split; [reflexivity|]); simpl;
      (split; [reflexivity|]); simpl; split; reflexivity.
Qed.

(** The theorem on a session: a reading at 1000 ms schedules a rescan for
    1150 ms, the consumer stops the scan at 1100 ms, the rescan runs, and
    at 1200 ms the reader scans again, on a new signal, with nobody
    polling. *)
Lemma stopScan_leaves_rescans_running_witness :
  let w := W (the_state (Sample.run_events (firstn 8 stopped_after_reading)
                                           (mounted true 0))) in
  let s := the_state (Sample.run_events stopped_after_reading
                                        (mounted true 0)) in
  isSupported (env w) = true /\ restartingRef (refs w) = false
  /\ scanning (env w) = []
  /\ map (fun x => snd (fst x)) (timeouts (env w)) = [RescanAfterReading]
  /\ scanning (env (W s)) = [3%nat]
  /\ intervals (env (W s)) = []
  /\ exists w1 k1, rescanNow (lit "after-reading") w
                   = Await w1 (Sleep SCAN_SETTLE_MS) k1.
Proof.
  intros w s.
  assert (H1 : isSupported (env w) = true) by (vm_compute; reflexivity).
  assert (H2 : restartingRef (refs w) = false) by (vm_compute; reflexivity).
  split; [exact H1|]. split; [exact H2|].
  split; [vm_compute; reflexivity|]. split; [vm_compute; reflexivity|].
  split; [vm_compute; reflexivity|]. split; [vm_compute; reflexivity|].
  destruct (proj2 stopScan_leaves_rescans_running
              (lit "after-reading") w H1 H2)
    as (w1 & k1 & _ & _ & E & _).
  exists w1, k1. exact E.
Defined.

(* ================================================================== *)
(** * Power-cycle supervisor: the limit, whatever happens *)
(* ================================================================== *)

(** What a relation that the code and its environment respect says of a
    completed call. *)
Lemma completes_rel St Wt A (R rely : St -> St -> Prop) allowed
  (r : run St Wt A) s0 sf rf :
  (forall a b c, R a b -> R b c -> R a c) ->
  (forall a b, rely a b -> R a b) ->
  run_rel R s0 r -> completes rely allowed r sf rf -> R s0 sf.
Proof.
  intros Htrans Hrely Hr H. revert s0 Hr.
  induction H as [s r|s on k res s' sf rf _ Hs _ IH]; intros s0 Hr.
  - exact Hr.
  - destruct Hr as [H0 Hk].
    exact (Htrans _ _ _ H0 (Htrans _ _ _ (Hrely _ _ Hs) (IH s' (Hk res s')))).
Qed.

Lemma keeps_limit_refl a : keeps_limit a a.
Proof. intros H. exact H. Qed.

Lemma keeps_limit_trans a b c :
  keeps_limit a b -> keeps_limit b c -> keeps_limit a c.
Proof. unfold keeps_limit. auto. Qed.

Lemma stopPowerCycling_count a :
  App.cycleCount (App.stopPowerCycling a) = App.cycleCount a.
Proof.
  unfold App.stopPowerCycling. now destruct (App.powerCycleIntervalRef a).
Qed.

Ltac limit_assign :=
  let a := fresh "a" in
  let H := fresh "H" in
  intros a H; unfold keeps_limit, within_limit in *;
  rewrite ?stopPowerCycling_count; simpl; exact H.

Ltac limit_auto :=
  repeat (rel_step keeps_limit_trans keeps_limit_refl); try limit_assign.

(** A statement, and what follows it. *)
Lemma exec_then_rel St Wt A (R : St -> St -> Prop)
  (R_trans : forall a b c, R a b -> R b c -> R a c)
  (f : St -> St) (m : async St Wt A) a :
  R a (f a) -> async_rel R m -> run_rel R a ((exec_ f ;; m) a).
Proof.
  intros H Hm. unfold bind, exec_. simpl.
  exact (@run_rel_from _ _ _ R_trans _ _ _ _ H (Hm (f a))).
Qed.

Lemma doCycle_keeps_limit : async_rel keeps_limit App.doCycle.
Proof.
  intros a. unfold App.doCycle.
  destruct (Nat.leb App.maxCycles (App.cycleCount a)) eqn:E.
  - clear E.
    match goal with
    | |- run_rel _ ?s (?m ?s) => generalize s; change (async_rel keeps_limit m)
    end.
    limit_auto.
  - destruct (negb (App.shouldContinue a)); [apply keeps_limit_refl|].
    apply Nat.leb_gt in E.
    apply (exec_then_rel _ _ _ keeps_limit keeps_limit_trans).
    + intros _. unfold within_limit. simpl. exact E.
    + unfold App.startScan. limit_auto.
Qed.

Lemma runCycles_keeps_limit : async_rel keeps_limit App.runCycles.
Proof.
  intros a. unfold App.runCycles.
  destruct (negb (App.Status_eqb (App.statusRef a) App.computing)).
  - revert a. apply exec_rel. limit_assign.
  - revert a. apply (@bind_rel _ _ _ keeps_limit_trans);
      [exact doCycle_keeps_limit|].
    intros continueNext a.
    destruct (_ && _)%bool.
    + intros H. exact H.
    + revert a. apply exec_rel. limit_assign.
Qed.

Lemma cycles_keep_limit a af :
  App.cycles count_untouched any_outcome a af ->
  within_limit a -> within_limit af.
Proof.
  induction 1 as [a a1 res Hrun _|a a1 res a2 i af Hrun Hrely _ _ IH];
    intros Ha.
  - refine (completes_rel _ _ _ keeps_limit _ _ _ _ _ _
              keeps_limit_trans _ (runCycles_keeps_limit a) Hrun Ha).
    intros x y E Hx. unfold within_limit, count_untouched in *. congruence.
  - apply IH. unfold within_limit. simpl.
    unfold count_untouched in Hrely. rewrite Hrely.
    refine (completes_rel _ _ _ keeps_limit _ _ _ _ _ _
              keeps_limit_trans _ (runCycles_keeps_limit a) Hrun Ha).
    intros x y E Hx. unfold within_limit, count_untouched in *. congruence.
Qed.

(** X17. The supervisor never runs more than 100 cycles, whatever
    happens: however each scan start and each wait ends, and whatever the
    rest of the application does to the status and to everything else it
    can reach while the supervisor is suspended, the cycle counter of a
    run that [startPowerCycling] began never exceeds [maxCycles]. *)
Theorem never_more_than_100_cycles a af :
  App.supervised count_untouched any_outcome a af ->
  (App.cycleCount af <= 100)%nat.
Proof.
  intros H. apply (cycles_keep_limit _ af H).
  unfold within_limit. simpl. apply Nat.le_0_l.
Qed.

(** The theorem on a run whose first scan is refused. *)
Lemma never_more_than_100_cycles_witness :
  exists af,
    App.supervised count_untouched any_outcome App.signing af
    /\ App.cycleCount af = 1%nat
    /\ (App.cycleCount af <= 100)%nat.
Proof.
  assert (H : exists af,
            App.supervised count_untouched any_outcome App.signing af
            /\ App.cycleCount af = 1%nat).
  { eexists. split.
    - eapply App.cycles_end.
      + unfold App.runCycles, App.doCycle, App.startScan, bind, catch,
          exec_, await. simpl.
        match goal with
        | |- completes _ _ (Await ?s _ _) _ _ =>
            eapply completes_await
              with (res := inl NotAllowedError) (s' := s);
            [exact I | reflexivity | simpl]
        end.
        apply completes_done.
      + reflexivity.
    - reflexivity. }
  destruct H as (af & H1 & H2). exists af.
  split; [exact H1|]. split; [exact H2|].
  exact (never_more_than_100_cycles App.signing af H1).
Defined.

(* ================================================================== *)
(** * Stopping the supervisor in the middle of a cycle *)
(* ================================================================== *)

(** The call of [runCycles] that begins a cycle. *)
Ltac enter_cycle a Hst Hgo Hn :=
  unfold App.runCycles; rewrite Hst; cbn [App.Status_eqb negb];
  unfold bind at 1; unfold App.doCycle;
  replace (Nat.leb App.maxCycles (App.cycleCount a)) with false
    by (symmetry; apply Nat.leb_gt; exact Hn);
  rewrite Hgo; cbn [negb]; clear Hn.

(** [onReading] on a status of a signature in the making. *)
Lemma onReading_working p a :
  App.isGettingDeviceInfoRef a = false -> payload_truthy p = true ->
  AppFlows.working p = true ->
  App.onReading p a = App.set_statusRef App.computing a.
Proof.
  intros Hg Ht Hw. unfold App.onReading, AppFlows.working in *.
  rewrite Ht, Hg. cbn [negb].
  destruct (state_of p) as [[]|]; try discriminate; reflexivity.
Qed.

Lemma filter_fired (tm : list (nat * App.timer_cb * Z)) i :
  (forall cb ms, ~ In (i, cb, ms) tm) ->
  filter (fun x : nat * App.timer_cb * Z =>
            negb (Nat.eqb (fst (fst x)) i)) tm = tm.
Proof.
  intros Hfired. induction tm as [|[[j cb] d] tm IH]; [reflexivity|].
  simpl. destruct (Nat.eqb j i) eqn:E.
  - apply Nat.eqb_eq in E. subst j.
    exfalso. apply (Hfired cb d). now left.
  - simpl. rewrite IH; [reflexivity|].
    intros cb' ms' Hin. apply (Hfired cb' ms'). now right.
Qed.

(** X18. Cancelling does not interrupt the cycle in flight, and a reading
    can undo it.  When the user cancels during the 20 s power phase of a
    cycle, the scan is stopped at once, but the cycle goes on as written:
    when the 20 s are over it stops the scan again, waits, and starts its
    second scan, which runs for its 2 s although the status is already
    idle.  If nothing else happens before the cycle has ended, the
    supervisor then sees the status and stops, and no further cycle is
    scheduled.  If the second scan reads a status of a signature in the
    making, [onReading] sets the status back to computing: in the first
    cycle the supervisor stops all the same, with the status showing
    computing; from the second cycle on, where the handle was the timer
    that had begun the cycle, the next cycle is scheduled and the
    cancellation is lost. *)
Theorem cancel_does_not_interrupt_a_cycle a :
  App.statusRef a = App.computing ->
  App.shouldContinue a = true ->
  (App.cycleCount a < App.maxCycles)%nat ->
  (exists af,
     drive (AppFlows.during_power_phase App.cancelOperation) (App.runCycles a)
     = Some (af, ok tt)
     /\ App.calls af
        = App.calls a
          ++ [App.StartScan App.cycleOpts; App.StopScan; App.StopScan;
              App.StartScan App.cycleOpts; App.StopScan; App.StopScan]
     /\ App.statusRef af = App.idle
     /\ App.powerCycleIntervalRef af = App.NoHandle
     /\ App.cycleCount af = S (App.cycleCount a)
     /\ (App.next_cycle a = None -> App.next_cycle af = None))
  /\ (forall p,
        App.isGettingDeviceInfoRef a = false ->
        payload_truthy p = true -> AppFlows.working p = true ->
        exists af,
          drive (AppFlows.cancelled_then_read p) (App.runCycles a)
          = Some (af, ok tt)
          /\ App.statusRef af = App.computing
          /\ App.calls af
             = App.calls a
               ++ [App.StartScan App.cycleOpts; App.StopScan; App.StopScan;
                   App.StartScan App.cycleOpts; App.StopScan]
               ++ match App.powerCycleIntervalRef a with
                  | App.StopHandle => [App.StopScan]
                  | _ => []
                  end
          /\ (App.powerCycleIntervalRef a = App.StopHandle ->
              App.powerCycleIntervalRef af = App.NoHandle
              /\ App.timers af = App.timers a)
          /\ (forall i,
                App.powerCycleIntervalRef a = App.CycleTimer i ->
                (forall cb ms, ~ In (i, cb, ms) (App.timers a)) ->
                App.powerCycleIntervalRef af
                = App.CycleTimer (App.nextTimer a)
                /\ App.timers af
                   = App.timers a ++ [(App.nextTimer a, App.RunCycles, 100)])).
Proof.
  intros Hst Hgo Hn. split.
  - enter_cycle a Hst Hgo Hn.
    destruct a as [st er sc fa gd tr pr n go tm nt cl].
    cbn [App.statusRef App.shouldContinue] in Hst, Hgo. subst.
    destruct pr as [| |i];
      (eexists; split; [cbv -[app filter Nat.eqb negb fst]; reflexivity|]);
      cbn [App.calls App.statusRef App.powerCycleIntervalRef App.cycleCount];
      (split; [rewrite <- !app_assoc; reflexivity|]);
      (split; [reflexivity|]); (split; [reflexivity|]);
      (split; [reflexivity|]); intros Hnc;
      unfold App.next_cycle in *; cbn [App.timers] in *; try exact Hnc.
    induction tm as [|[[j cb] d] tm IH]; simpl in *; [reflexivity|].
    destruct cb; simpl in *; try discriminate;
      destruct (negb (Nat.eqb j i)); simpl; exact (IH Hnc).
  - intros p Hg Ht Hw. enter_cycle a Hst Hgo Hn.
    destruct a as [st er sc fa gd tr pr n go tm nt cl].
    cbn [App.statusRef App.shouldContinue App.isGettingDeviceInfoRef]
      in Hst, Hgo, Hg.
    subst.
    destruct pr as [| |i];
      cbv -[app filter Nat.eqb negb fst App.onReading];
      (rewrite onReading_working; [|reflexivity | exact Ht | exact Hw]);
      (eexists; split; [cbv -[app filter Nat.eqb negb fst]; reflexivity|]);
      cbn [App.calls App.statusRef App.powerCycleIntervalRef App.timers
           App.nextTimer];
      (split; [reflexivity|]);
      (split; [rewrite <- !app_assoc; reflexivity|]);
      (split; [intros E; try discriminate E; split; reflexivity|]);
      intros j E Hfired; try discriminate E.
    injection E as <-. split; [reflexivity|].
    cbn [fst]. rewrite (filter_fired tm i Hfired). reflexivity.
Qed.

(** The theorem on the first cycle of a signing session, and on its
    second cycle with the status of a tag at work read after the
    cancellation: the third cycle is scheduled. *)
Lemma cancel_does_not_interrupt_a_cycle_witness :
  let a := App.started App.signing in
  let b := AppFlows.second_cycle in
  (App.statusRef a = App.computing /\ App.shouldContinue a = true
   /\ (App.cycleCount a < App.maxCycles)%nat
   /\ exists af,
        drive (AppFlows.during_power_phase App.cancelOperation)
              (App.runCycles a)
        = Some (af, ok tt)
        /\ List.length (App.calls af) = 6%nat
        /\ App.statusRef af = App.idle)
  /\ (App.statusRef b = App.computing /\ App.shouldContinue b = true
      /\ (App.cycleCount b < App.maxCycles)%nat
      /\ App.isGettingDeviceInfoRef b = false
      /\ AppFlows.working status_128 = true
      /\ App.powerCycleIntervalRef b = App.CycleTimer 0
      /\ exists bf,
           drive (AppFlows.cancelled_then_read status_128) (App.runCycles b)
           = Some (bf, ok tt)
           /\ App.statusRef bf = App.computing
           /\ App.timers bf = [(1%nat, App.RunCycles, 100)]).
Proof.
  intros a b. split.
  - assert (Hn : (App.cycleCount a < App.maxCycles)%nat)
      by (vm_compute; repeat constructor).
    split; [reflexivity|]. split; [reflexivity|]. split; [exact Hn|].
    destruct (proj1 (cancel_does_not_interrupt_a_cycle a eq_refl eq_refl Hn))
      as (af & H1 & H2 & H3 & _).
    exists af. split; [exact H1|]. split; [|exact H3].
    rewrite H2. reflexivity.
  - assert (Hst : App.statusRef b = App.computing)
      by (vm_compute; reflexivity).
    assert (Hgo : App.shouldContinue b = true) by (vm_compute; reflexivity).
    assert (Hn : (App.cycleCount b < App.maxCycles)%nat)
      by (vm_compute; repeat constructor).
    assert (Hg : App.isGettingDeviceInfoRef b = false)
      by (vm_compute; reflexivity).
    assert (Hw : AppFlows.working status_128 = true)
      by (vm_compute; reflexivity).
    assert (Hpr : App.powerCycleIntervalRef b = App.CycleTimer 0)
      by (vm_compute; reflexivity).
    split; [exact Hst|]. split; [exact Hgo|]. split; [exact Hn|].
    split; [exact Hg|]. split; [exact Hw|]. split; [exact Hpr|].
    destruct (proj2 (cancel_does_not_interrupt_a_cycle b Hst Hgo Hn)
                status_128 Hg eq_refl Hw)
      as (bf & H1 & H2 & _ & _ & H5).
    exists bf. split; [exact H1|]. split; [exact H2|].
    apply (H5 0%nat Hpr). intros cb ms. vm_compute. intros [].
Defined.

(** X19. Without a change of the status, [stopPowerCycling] stops the
    supervisor in its first cycle only.  During the first cycle the
    handle it finds is the object with the [stop] method, and the
    supervisor ends with that cycle.  From the second cycle on the handle
    is the identifier of the timer that began the cycle, already fired:
    clearing it does nothing, [shouldContinue] stays set, and when the
    cycle has ended the next one is scheduled as if nothing had happened.
    The cleanup at unmount, which calls [stopPowerCycling] and leaves the
    status alone, therefore does not end a signing session that is in
    its second or a later cycle. *)
Theorem unmount_stops_the_first_cycle_only a :
  App.statusRef a = App.computing ->
  App.shouldContinue a = true ->
  (App.cycleCount a < App.maxCycles)%nat ->
  App.singleReadTimeoutRef a = None ->
  (App.powerCycleIntervalRef a = App.StopHandle ->
   exists af,
     drive (AppFlows.during_power_phase AppFlows.unmount) (App.runCycles a)
     = Some (af, ok tt)
     /\ App.shouldContinue af = false
     /\ App.timers af = App.timers a
     /\ App.powerCycleIntervalRef af = App.NoHandle)
  /\ (forall i,
        App.powerCycleIntervalRef a = App.CycleTimer i ->
        (forall cb ms, ~ In (i, cb, ms) (App.timers a)) ->
        exists af,
          drive (AppFlows.during_power_phase AppFlows.unmount) (App.runCycles a)
          = Some (af, ok tt)
          /\ App.shouldContinue af = true
          /\ App.timers af
             = App.timers a ++ [(App.nextTimer a, App.RunCycles, 100)]
          /\ App.powerCycleIntervalRef af
             = App.CycleTimer (App.nextTimer a)
          /\ App.cycleCount af = S (App.cycleCount a)).
Proof.
  intros Hst Hgo Hn Hsr. split.
  - intros Hpr. enter_cycle a Hst Hgo Hn.
    destruct a as [st er sc fa gd tr pr n go tm nt cl].
    cbn [App.statusRef App.shouldContinue App.singleReadTimeoutRef
         App.powerCycleIntervalRef App.timers App.nextTimer App.cycleCount]
      in *.
    subst. eexists.
    split; [cbv -[app filter Nat.eqb negb fst]; reflexivity|].
    cbn [App.shouldContinue App.timers App.powerCycleIntervalRef].
    split; [reflexivity|]. split; reflexivity.
  - intros i Hpr Hfired. enter_cycle a Hst Hgo Hn.
    destruct a as [st er sc fa gd tr pr n go tm nt cl].
    cbn [App.statusRef App.shouldContinue App.singleReadTimeoutRef
         App.powerCycleIntervalRef App.timers App.nextTimer App.cycleCount]
      in *.
    subst.
    pose proof (filter_fired tm i Hfired) as Hf.
    eexists. split; [cbv -[app filter Nat.eqb negb fst]; reflexivity|].
    cbn [App.shouldContinue App.timers App.powerCycleIntervalRef
         App.cycleCount].
    split; [reflexivity|]. split; [|split; reflexivity].
    cbv beta in Hf. cbn [fst] in Hf |- *.
    rewrite Hf. reflexivity.
Qed.

(** The theorem on the second cycle of a signing session: the
    component unmounts during its power phase, and the third cycle is
    scheduled. *)
Lemma unmount_stops_the_first_cycle_only_witness :
  let a := AppFlows.second_cycle in
  App.statusRef a = App.computing /\ App.shouldContinue a = true
  /\ (App.cycleCount a < App.maxCycles)%nat
  /\ App.powerCycleIntervalRef a = App.CycleTimer 0
  /\ exists af,
       drive (AppFlows.during_power_phase AppFlows.unmount) (App.runCycles a)
       = Some (af, ok tt)
       /\ App.timers af = [(1%nat, App.RunCycles, 100)]
       /\ App.cycleCount af = 2%nat.
Proof.
  intros a.
  assert (Hst : App.statusRef a = App.computing) by (vm_compute; reflexivity).
  assert (Hgo : App.shouldContinue a = true) by (vm_compute; reflexivity).
  assert (Hn : (App.cycleCount a < App.maxCycles)%nat)
    by (vm_compute; repeat constructor).
  assert (Hsr : App.singleReadTimeoutRef a = None)
    by (vm_compute; reflexivity).
  assert (Hpr : App.powerCycleIntervalRef a = App.CycleTimer 0)
    by (vm_compute; reflexivity).
  split; [exact Hst|]. split; [exact Hgo|]. split; [exact Hn|].
  split; [exact Hpr|].
  destruct (proj2 (unmount_stops_the_first_cycle_only a Hst Hgo Hn Hsr)
              0%nat Hpr)
    as (af & H1 & _ & H3 & _ & H5).
  - intros cb ms. vm_compute. intros [].
  - exists af. split; [exact H1|]. split; [exact H3 | exact H5].
Defined.

(* ================================================================== *)
(** * The device-info read and the start of signing *)
(* ================================================================== *)

Lemma completes_catch_run St Wt A rely allowed (r : run St Wt A)
  (h : exn -> async St Wt A) sf rf :
  (forall e s sf' rf',
     completes rely allowed (h e s) sf' rf' -> exists x, rf' = inr x) ->
  completes rely allowed (catch_run r h) sf rf -> exists x, rf = inr x.
Proof.
  intros Hh. induction r as [s [e|a]|s on k IH]; simpl; intros H.
  - exact (Hh e s sf rf H).
  - inversion H; subst. eauto.
  - inversion H as [|? ? ? res s' ? ? _ _ Hrest]; subst.
    exact (IH res s' Hrest).
Qed.

Lemma find_fresh_timer (tm : list (nat * App.timer_cb * Z)) i cb ms :
  Forall (fun x => (fst (fst x) < i)%nat) tm ->
  find (fun x => Nat.eqb (fst (fst x)) i) (tm ++ [(i, cb, ms)])
  = Some (i, cb, ms).
Proof.
  induction 1 as [|x tm Hx _ IH]; simpl.
  - now rewrite Nat.eqb_refl.
  - replace (Nat.eqb (fst (fst x)) i) with false; [exact IH|].
    symmetry. apply Nat.eqb_neq. lia.
Qed.

Lemma filter_fresh (tm : list (nat * App.timer_cb * Z)) i j :
  Forall (fun x => (fst (fst x) < i)%nat) tm ->
  Forall (fun x => (fst (fst x) < i)%nat)
         (filter (fun x => negb (Nat.eqb (fst (fst x)) j)) tm).
Proof.
  intros H. apply Forall_forall. intros x Hx. apply filter_In in Hx.
  exact (proj1 (Forall_forall _ _) H x (proj1 Hx)).
Qed.

(** Both promises of [handleGetDeviceInfo] resolve: the read is asked for
    with 3000 ms and the failsafe is armed for 3200 ms; the failsafe as it
    fires with the flag still set. *)
Lemma handleGetDeviceInfo_arms_failsafe a :
  timers_fresh a ->
  exists af af',
    feed [ok tt; ok tt] (App.handleGetDeviceInfo a) = Some (af, ok tt)
    /\ App.error af = App.NoError
    /\ App.isGettingDeviceInfoRef af = true
    /\ App.isScanning af = true
    /\ App.singleReadTimeoutRef af = Some (App.nextTimer a)
    /\ In (App.nextTimer a, App.DeviceInfoFailsafe, 3200)
          (App.timers af)
    /\ App.fire (App.nextTimer a) af = Some (Done af' (ok tt))
    /\ App.error af' = App.TimedOutReadingDeviceInfo
    /\ App.isGettingDeviceInfoRef af' = false
    /\ App.isScanning af' = false
    /\ App.calls af'
       = App.calls a
         ++ [App.WriteText (lit "pubkey"); App.StartSingleRead 3000%float;
             App.StopScan].
Proof.
  intros Hfresh. destruct a as [st er sc fa gd tr pr n go tm nt cl].
  unfold timers_fresh in Hfresh. cbn [App.timers App.nextTimer] in Hfresh.
  cbn [App.nextTimer].
  destruct tr as [j|].
  - pose proof (find_fresh_timer _ nt App.DeviceInfoFailsafe 3200
                  (filter_fresh tm nt j Hfresh)) as Hfind.
    eexists. eexists.
    split; [cbv -[app filter Nat.eqb negb fst lit]; reflexivity|].
    cbn [App.error App.isGettingDeviceInfoRef App.isScanning App.calls
         App.singleReadTimeoutRef App.timers].
    do 4 (split; [reflexivity|]).
    split; [apply in_or_app; right; left; reflexivity|].
    split.
    + unfold App.fire. cbn [App.timers]. rewrite Hfind.
      cbv -[app filter Nat.eqb negb fst lit]. reflexivity.
    + cbn [App.error App.isGettingDeviceInfoRef App.isScanning App.calls].
      do 3 (split; [reflexivity|]).
      rewrite <- !app_assoc. reflexivity.
  - pose proof (find_fresh_timer _ nt App.DeviceInfoFailsafe 3200 Hfresh)
      as Hfind.
    eexists. eexists.
    split; [cbv -[app filter Nat.eqb negb fst lit]; reflexivity|].
    cbn [App.error App.isGettingDeviceInfoRef App.isScanning App.calls
         App.singleReadTimeoutRef App.timers].
    do 4 (split; [reflexivity|]).
    split; [apply in_or_app; right; left; reflexivity|].
    split.
    + unfold App.fire. cbn [App.timers]. rewrite Hfind.
      cbv -[app filter Nat.eqb negb fst lit]. reflexivity.
    + cbn [App.error App.isGettingDeviceInfoRef App.isScanning App.calls].
      do 3 (split; [reflexivity|]).
      rewrite <- !app_assoc. reflexivity.
Qed.

(** X20. The device-info read.  [handleGetDeviceInfo] never rejects,
    however its promises settle.  When the write of the ["pubkey"] command
    fails, no read is started: the failure is shown, the flag is cleared
    and the scan stopped.  When the single read cannot be started, the
    same.  When both succeed, the single read having been asked for with
    a time-out of 3000 ms, the failsafe is armed for 3200 ms in place of
    any earlier one, and if it fires with the flag still set it clears the
    flag, stops the scan and shows the time-out. *)
Theorem device_info_read_outcomes a :
  (forall rely allowed af r,
     completes rely allowed (App.handleGetDeviceInfo a) af r -> r = ok tt)
  /\ (forall e,
        exists af,
          feed [inl e] (App.handleGetDeviceInfo a) = Some (af, ok tt)
          /\ App.error af = App.Failed e
          /\ App.isGettingDeviceInfoRef af = false
          /\ App.isScanning af = false
          /\ App.calls af
             = App.calls a ++ [App.WriteText (lit "pubkey"); App.StopScan])
  /\ (forall e,
        exists af,
          feed [ok tt; inl e] (App.handleGetDeviceInfo a) = Some (af, ok tt)
          /\ App.error af = App.Failed e
          /\ App.isGettingDeviceInfoRef af = false
          /\ App.isScanning af = false
          /\ App.singleReadTimeoutRef af = None
          /\ App.calls af
             = App.calls a
               ++ [App.WriteText (lit "pubkey"); App.StartSingleRead 3000%float;
                   App.StopScan])
  /\ (timers_fresh a ->
      exists af af',
        feed [ok tt; ok tt] (App.handleGetDeviceInfo a) = Some (af, ok tt)
        /\ App.error af = App.NoError
        /\ App.isGettingDeviceInfoRef af = true
        /\ App.isScanning af = true
        /\ App.singleReadTimeoutRef af = Some (App.nextTimer a)
        /\ In (App.nextTimer a, App.DeviceInfoFailsafe, 3200)
              (App.timers af)
        /\ App.fire (App.nextTimer a) af = Some (Done af' (ok tt))
        /\ App.error af' = App.TimedOutReadingDeviceInfo
        /\ App.isGettingDeviceInfoRef af' = false
        /\ App.isScanning af' = false
        /\ App.calls af'
           = App.calls a
             ++ [App.WriteText (lit "pubkey"); App.StartSingleRead 3000%float;
                 App.StopScan]).
Proof.
  split; [|split; [|split]].
  - intros rely allowed af r H. unfold App.handleGetDeviceInfo, catch in H.
    apply completes_catch_run in H; [destruct H as [[] ->]; reflexivity|].
    intros e s sf' rf' He. unfold bind, exec_ in He. simpl in He.
    inversion He; subst. eauto.
  - intros e. destruct a as [st er sc fa gd tr pr n go tm nt cl].
    destruct tr; (eexists; split; [cbv -[app filter Nat.eqb negb fst lit];
                                   reflexivity|]);
      cbn [App.error App.isGettingDeviceInfoRef App.isScanning App.calls];
      (split; [reflexivity|]); (split; [reflexivity|]);
      (split; [reflexivity|]); rewrite <- !app_assoc; reflexivity.
  - intros e. destruct a as [st er sc fa gd tr pr n go tm nt cl].
    destruct tr; (eexists; split; [cbv -[app filter Nat.eqb negb fst lit];
                                   reflexivity|]);
      cbn [App.error App.isGettingDeviceInfoRef App.isScanning App.calls
           App.singleReadTimeoutRef];
      (split; [reflexivity|]); (split; [reflexivity|]);
      (split; [reflexivity|]); (split; [reflexivity|]);
      rewrite <- !app_assoc; reflexivity.
  - exact (handleGetDeviceInfo_arms_failsafe a).
Qed.

(** The theorem on the idle application. *)
Lemma device_info_read_outcomes_witness :
  let a := App.Make App.idle App.NoError false false false None App.NoHandle
                    0 true [] 0 [] in
  timers_fresh a
  /\ exists af af',
       feed [ok tt; ok tt] (App.handleGetDeviceInfo a) = Some (af, ok tt)
       /\ In (0%nat, App.DeviceInfoFailsafe, 3200) (App.timers af)
       /\ App.fire 0 af = Some (Done af' (ok tt))
       /\ App.error af' = App.TimedOutReadingDeviceInfo.
Proof.
  intros a.
  assert (Hf : timers_fresh a) by constructor.
  split; [exact Hf|].
  destruct (proj2 (proj2 (proj2 (device_info_read_outcomes a))) Hf)
    as (af & af' & H1 & _ & _ & _ & _ & H5 & H6 & H7 & _).
  exists af, af'. split; [exact H1|]. split; [exact H5|].
  split; [exact H6 | exact H7].
Defined.

(** X21. The start of signing.  [handleSign] does nothing for a message
    of white space.  Otherwise it writes the message to the tag first;
    when the write fails it shows the failure, returns to idle and leaves
    the supervisor alone: no scan is started; when the write succeeds the
    status is ["computing"] and, 100 ms later, the first cycle of the
    supervisor begins and starts its first scan. *)
Theorem signing_starts_with_the_write message a :
  (all_space message -> AppFlows.handleSign message a = Done a (ok None))
  /\ (trim message <> [] ->
      (forall e,
         exists af,
           feed [inl e] (AppFlows.handleSign message a) = Some (af, ok None)
           /\ App.statusRef af = App.idle
           /\ App.error af = App.Failed e
           /\ App.calls af = App.calls a ++ [App.WriteText message]
           /\ App.cycleCount af = App.cycleCount a
           /\ App.powerCycleIntervalRef af = App.powerCycleIntervalRef a)
      /\ exists af k,
           feed [ok tt; ok tt] (AppFlows.handleSign message a)
           = Some (af, ok (Some (Await af App.HookStartScan k)))
           /\ App.statusRef af = App.computing
           /\ App.cycleCount af = 1%nat
           /\ App.powerCycleIntervalRef af = App.StopHandle
           /\ App.calls af
              = App.calls a
                ++ [App.WriteText message; App.StartScan App.cycleOpts]).
Proof.
  split.
  - intros H. unfold AppFlows.handleSign.
    now rewrite (trim_all_space _ H).
  - intros Hne. unfold AppFlows.handleSign.
    rewrite (proj2 (str_eqb_neq _ _) Hne).
    destruct a as [st er sc fa gd tr pr n go tm nt cl].
    split.
    + intros e. eexists.
      split; [cbv -[app filter Nat.eqb negb fst]; reflexivity|].
      cbn [App.statusRef App.error App.calls App.cycleCount
           App.powerCycleIntervalRef].
      repeat (split; [reflexivity|]). reflexivity.
    + eexists. eexists.
      split; [cbv -[app filter Nat.eqb negb fst]; reflexivity|].
      cbn [App.statusRef App.error App.calls App.cycleCount
           App.powerCycleIntervalRef].
      do 3 (split; [reflexivity|]).
      rewrite <- !app_assoc. reflexivity.
Qed.

(** The theorem on the message of the demonstration. *)
Lemma signing_starts_with_the_write_witness :
  let a := App.Make App.idle App.NoError false false false None App.NoHandle
                    0 true [] 0 [] in
  trim (lit "Hello World") <> []
  /\ exists af k,
       feed [ok tt; ok tt] (AppFlows.handleSign (lit "Hello World") a)
       = Some (af, ok (Some (Await af App.HookStartScan k)))
       /\ App.calls af
          = [App.WriteText (lit "Hello World"); App.StartScan App.cycleOpts].
Proof.
  intros a.
  assert (Hne : trim (lit "Hello World") <> []) by (vm_compute; discriminate).
  split; [exact Hne|].
  destruct (proj2 (proj2 (signing_starts_with_the_write (lit "Hello World") a)
                     Hne))
    as (af & k & H1 & _ & _ & _ & H5).
  exists af, k. split; [exact H1 | exact H5].
Defined.

(* ================================================================== *)
(** * [stopScan], once and twice *)
(* ================================================================== *)

Lemma filter_filter_same (l : list nat) c :
  filter (fun x => negb (Nat.eqb x c)) (filter (fun x => negb (Nat.eqb x c)) l)
  = filter (fun x => negb (Nat.eqb x c)) l.
Proof.
  induction l as [|x l IH]; simpl; [reflexivity|].
  destruct (negb (Nat.eqb x c)) eqn:E; simpl; [rewrite E|]; congruence.
Qed.

(** X22. After [stopScan] the hook polls no more, the signal of the
    current scan is raised and that scan is over, and rescans after a
    reading are on again for the next session.  Calling it again changes
    nothing: the refs, the timers and the running scans are the same, and
    the same signals are raised. *)
Theorem stopScan_is_idempotent w :
  let w1 := stopScan w in
  let w2 := stopScan w1 in
  (scanIntervalRef (refs w1) = None
   /\ suppressRescanRef (refs w1) = false
   /\ (forall i, scanIntervalRef (refs w) = Some i ->
         ~ In i (map (fun x => fst (fst x)) (intervals (env w1))))
   /\ (forall c, controllerRef (refs w) = Some c ->
         In c (aborted (env w1)) /\ ~ In c (scanning (env w1))))
  /\ refs w2 = refs w1
  /\ scanning (env w2) = scanning (env w1)
  /\ intervals (env w2) = intervals (env w1)
  /\ timeouts (env w2) = timeouts (env w1)
  /\ (forall c, In c (aborted (env w2)) <-> In c (aborted (env w1))).
Proof.
  destruct w as [[la cr si rr pm de dp sa lh lp lu ld su]
                 [sup ck nid ab sc iv tmo co rd er]].
  cbv zeta. unfold stopScan, stopPolling, abort_current, abort, clearInterval.
  destruct si as [i|], cr as [c|]; simpl;
    (split;
     [split; [reflexivity|split; [reflexivity|split]]
     |split; [reflexivity
             |split; [|split; [reflexivity|split; [reflexivity|]]]]]).
  all: try (intros x; simpl; tauto).
  all: try first [apply filter_filter_same | reflexivity].
  all: intros j E; try discriminate; injection E as <-.
  all: try apply key_not_in_after_filter_out.
  all: split; [now left | apply not_in_after_filter_out].
Qed.

(* ================================================================== *)
(** * The debug log *)
(* ================================================================== *)

Lemma slice_last_length A n (l : list A) :
  List.length (AppFlows.slice_last n l) = Nat.min n (List.length l).
Proof. unfold AppFlows.slice_last. rewrite length_skipn. lia. Qed.

Lemma slice_last_snoc A n (l : list A) x :
  AppFlows.slice_last (S n) (l ++ [x]) = AppFlows.slice_last n l ++ [x].
Proof.
  unfold AppFlows.slice_last. rewrite length_app, skipn_app. simpl.
  replace (List.length l + 1 - S n)%nat with (List.length l - n)%nat by lia.
  replace (List.length l - n - List.length l)%nat with 0%nat by lia.
  reflexivity.
Qed.

Lemma slice_last_slice_last A n k (l : list A) :
  (n <= k)%nat ->
  AppFlows.slice_last n (AppFlows.slice_last k l) = AppFlows.slice_last n l.
Proof.
  intros H. unfold AppFlows.slice_last.
  rewrite skipn_skipn, length_skipn. f_equal. lia.
Qed.

Lemma logged_snoc entries e prev :
  AppFlows.logged (entries ++ [e]) prev
  = AppFlows.slice_last 15 (AppFlows.logged entries prev)
    ++ [AppFlows.stamped e].
Proof.
  unfold AppFlows.logged. rewrite fold_left_app. simpl.
  unfold AppFlows.addDebugLog. now destruct e.
Qed.

(** X23. The debug log is a window on the last 16 lines.  Once a line has
    been added the log never holds more than 16 lines, whatever it held
    before, and a log that began empty holds exactly the last 16 of the
    lines added, each with its time stamp, in the order they were
    added. *)
Theorem debug_log_keeps_the_last_16 entries prev :
  (entries <> [] -> (List.length (AppFlows.logged entries prev) <= 16)%nat)
  /\ AppFlows.logged entries []
     = AppFlows.slice_last 16 (map AppFlows.stamped entries).
Proof.
  split.
  - destruct (rev entries) as [|e l] eqn:E.
    + intros H. exfalso. apply H.
      now rewrite <- (rev_involutive entries), E.
    + intros _. rewrite <- (rev_involutive entries), E. simpl.
      rewrite logged_snoc, length_app, slice_last_length.
      cbn [List.length]. lia.
  - induction entries as [|e entries IH] using rev_ind; [reflexivity|].
    rewrite logged_snoc, IH, map_app. simpl.
    rewrite slice_last_snoc, slice_last_slice_last by lia. reflexivity.
Qed.

(** The theorem on twenty lines. *)
Lemma debug_log_keeps_the_last_16_witness :
  let entries := map (fun n => (lit "10:00:00", [N.of_nat n]))
                     (seq 65 20) in
  entries <> []
  /\ List.length (AppFlows.logged entries []) = 16%nat
  /\ (List.length (AppFlows.logged entries [lit "a"; lit "b"]) <= 16)%nat.
Proof.
  intros entries.
  assert (Hne : entries <> []) by discriminate.
  split; [exact Hne|]. split; [vm_compute; reflexivity|].
  exact (proj1 (debug_log_keeps_the_last_16 entries [lit "a"; lit "b"]) Hne).
Defined.

(* ================================================================== *)
(** * The single read *)
(* ================================================================== *)







Section SingleReadFacts.

Context {PF : Platform} {CB : Consumer}.








End SingleReadFacts.

Section SingleRead.

Context {PF : Platform} {CB : Consumer}.


End SingleRead.


